(** * regex_cpp: a Brzozowski-derivative regular expression matcher

    Shallow embedding of [src/main.cpp].

    The C++ program keeps its regex nodes behind [std::shared_ptr] and
    compares them by address, so the embedding has an explicit store: a
    node is an object in a heap, a [RegexPtr] is an optional address
    ([None] is [nullptr]), and the three static caches and the two
    function-local singletons are fields of the program state.  Code that
    reads or extends the store lives in a small state-and-error monad. *)

From Stdlib Require Import String Ascii ZArith Lia.
From stdpp Require Import base option list gmap strings.

Local Open Scope string_scope.

(** ** Data model *)

(** [RegexPtr]: a shared pointer to a node; [None] is the null pointer.
    Nodes are never freed while a cache or a parent still refers to them,
    so an address, once handed out, names the same object for ever. *)
Abbreviation addr := nat (only parsing).
Abbreviation RegexPtr := (option nat) (only parsing).

(** The subclasses of [class Regex], as the objects stored in the heap. *)
Inductive Regex : Type :=
  | Emp
  | Eps
  | Char (c_ : ascii)
  | Or (r1 r2 : RegexPtr)
  | Concat (r1 r2 : RegexPtr)
  | Star (r1 : RegexPtr).

#[global] Instance Regex_eq_dec : EqDecision Regex.
Proof. solve_decision. Defined.

(** [struct RegexKey]: [operator<] orders keys lexicographically on
    [(type, r1.get(), r2.get())], so two keys are equivalent exactly when
    the three components are equal. *)
Record RegexKey : Type := mkRegexKey {
  type : string;
  key_r1 : RegexPtr;
  key_r2 : RegexPtr
}.

#[global] Instance RegexKey_eq_dec : EqDecision RegexKey.
Proof. solve_decision. Defined.

#[global] Instance RegexKey_countable : Countable RegexKey.
Proof.
  refine (inj_countable'
            (fun k => (type k, key_r1 k, key_r2 k))
            (fun t => mkRegexKey t.1.1 t.1.2 t.2) _).
  by intros [].
Defined.

(** The program state: the heap of allocated nodes (the address of a node
    is its index; allocation appends), the two lazily initialised
    singletons [Emp::instance()::inst] and [Eps::instance()::inst], and the
    static members [Or::cache], [Concat::cache] and [Star::cache]. *)
Record State : Type := mkState {
  heap : list Regex;
  Emp_inst : RegexPtr;
  Eps_inst : RegexPtr;
  Or_cache : gmap RegexKey RegexPtr;
  Concat_cache : gmap RegexKey RegexPtr;
  Star_cache : gmap RegexPtr RegexPtr
}.

(** State of a freshly started process. *)
Definition initial_state : State :=
  mkState [] None None ∅ ∅ ∅.

(** ** The monad of the program

    A computation either returns a value and a new state, throws a
    [std::runtime_error] (the state it leaves behind is kept: the caches
    are static), has undefined behaviour (a null or dangling pointer is
    dereferenced, or [top]/[pop] is called on an empty [std::stack]), or
    runs out of the recursion fuel of the embedding. *)
Inductive Outcome (A : Type) : Type :=
  | Ok (a : A) (s : State)
  | Throw (what : string) (s : State)
  | Undefined
  | OutOfFuel.

Arguments Ok {A} a s.
Arguments Throw {A} what s.
Arguments Undefined {A}.
Arguments OutOfFuel {A}.

Definition M (A : Type) : Type := State -> Outcome A.

Definition ret {A} (a : A) : M A := fun s => Ok a s.

Definition bind {A B} (m : M A) (k : A -> M B) : M B :=
  fun s =>
    match m s with
    | Ok a s' => k a s'
    | Throw what s' => Throw what s'
    | Undefined => Undefined
    | OutOfFuel => OutOfFuel
    end.

Notation "'let*' x ':=' m 'in' k" := (bind m (fun x => k))
  (at level 10, x name, m at level 100, k at level 200).
Notation "'let*' ' pat ':=' m 'in' k" :=
  (bind m (fun x => match x with pat => k end))
  (at level 10, pat strict pattern, m at level 100, k at level 200).

Definition throw {A} (what : string) : M A := fun s => Throw what s.
Definition undefined {A} : M A := fun _ => Undefined.
Definition out_of_fuel {A} : M A := fun _ => OutOfFuel.

(** [*p]: the object a pointer refers to. *)
Definition deref (p : RegexPtr) : M Regex :=
  fun s =>
    match p with
    | None => Undefined
    | Some a =>
        match heap s !! a with
        | Some obj => Ok obj s
        | None => Undefined
        end
    end.

(** [new T(...)] / [std::make_shared<T>(...)]: a fresh object at the next
    address. *)
Definition alloc (obj : Regex) : M RegexPtr :=
  fun s =>
    Ok (Some (length (heap s)))
       (mkState (heap s ++ [obj]) (Emp_inst s) (Eps_inst s)
                (Or_cache s) (Concat_cache s) (Star_cache s)).

(** ** Singletons *)

(** [Emp::instance]: [static RegexPtr inst(new Emp())] is initialised the
    first time control passes through it. *)
Definition Emp_instance : M RegexPtr :=
  fun s =>
    match Emp_inst s with
    | Some a => Ok (Some a) s
    | None =>
        let inst := Some (length (heap s)) in
        Ok inst (mkState (heap s ++ [Emp]) inst (Eps_inst s)
                         (Or_cache s) (Concat_cache s) (Star_cache s))
    end.

(** [Eps::instance]. *)
Definition Eps_instance : M RegexPtr :=
  fun s =>
    match Eps_inst s with
    | Some a => Ok (Some a) s
    | None =>
        let inst := Some (length (heap s)) in
        Ok inst (mkState (heap s ++ [Eps]) (Emp_inst s) inst
                         (Or_cache s) (Concat_cache s) (Star_cache s))
    end.

(** ** Smart constructors *)

(** [cache.find(key)] on each of the three caches: [None] is [cache.end()]. *)
Definition Or_cache_find (key : RegexKey) : M (option RegexPtr) :=
  fun s => Ok (Or_cache s !! key) s.
Definition Concat_cache_find (key : RegexKey) : M (option RegexPtr) :=
  fun s => Ok (Concat_cache s !! key) s.
Definition Star_cache_find (key : RegexPtr) : M (option RegexPtr) :=
  fun s => Ok (Star_cache s !! key) s.

(** [cache[key] = ptr]. *)
Definition Or_cache_store (key : RegexKey) (ptr : RegexPtr) : M unit :=
  fun s =>
    Ok tt (mkState (heap s) (Emp_inst s) (Eps_inst s)
                   (<[key := ptr]> (Or_cache s)) (Concat_cache s) (Star_cache s)).
Definition Concat_cache_store (key : RegexKey) (ptr : RegexPtr) : M unit :=
  fun s =>
    Ok tt (mkState (heap s) (Emp_inst s) (Eps_inst s)
                   (Or_cache s) (<[key := ptr]> (Concat_cache s)) (Star_cache s)).
Definition Star_cache_store (key : RegexPtr) (ptr : RegexPtr) : M unit :=
  fun s =>
    Ok tt (mkState (heap s) (Emp_inst s) (Eps_inst s)
                   (Or_cache s) (Concat_cache s) (<[key := ptr]> (Star_cache s))).

(** [Or::create]. *)
Definition Or_create (a b : RegexPtr) : M RegexPtr :=
  match a with
  | None => ret b
  | Some _ =>
      match b with
      | None => ret a
      | Some _ =>
          if decide (a = b) then ret a
          else
            let key := mkRegexKey "Or" a b in
            let* it := Or_cache_find key in
            match it with
            | Some second => ret second
            | None =>
                let* ptr := alloc (Or a b) in
                let* _ := Or_cache_store key ptr in
                ret ptr
            end
      end
  end.

(** [Concat::create]: as [Or::create], without the [a == b] shortcut. *)
Definition Concat_create (a b : RegexPtr) : M RegexPtr :=
  match a with
  | None => ret b
  | Some _ =>
      match b with
      | None => ret a
      | Some _ =>
          let key := mkRegexKey "Concat" a b in
          let* it := Concat_cache_find key in
          match it with
          | Some second => ret second
          | None =>
              let* ptr := alloc (Concat a b) in
              let* _ := Concat_cache_store key ptr in
              ret ptr
          end
      end
  end.

(** [Star::create]. *)
Definition Star_create (a : RegexPtr) : M RegexPtr :=
  match a with
  | None => Eps_instance
  | Some _ =>
      let* it := Star_cache_find a in
      match it with
      | Some second => ret second
      | None =>
          let* ptr := alloc (Star a) in
          let* _ := Star_cache_store a ptr in
          ret ptr
      end
  end.

(** ** Nullability and derivative *)

(** A virtual call through a pointer recurses into the children of the
    object it reaches.  Children are allocated before their parent, so a
    call on the object at address [a] nests at most [a + 1] deep;
    [ptr_fuel] is that bound. *)
Definition ptr_fuel (p : RegexPtr) : nat :=
  match p with
  | Some a => S a
  | None => 1
  end.

(** [p->is_contain_eps()], by dynamic dispatch on the object at [p].
    [||] and [&&] evaluate their right operand only when needed. *)
Fixpoint is_contain_eps_fuel (fuel : nat) (p : RegexPtr) : M bool :=
  match fuel with
  | 0 => out_of_fuel
  | S fuel' =>
      let* obj := deref p in
      match obj with
      | Emp => ret false
      | Eps => ret true
      | Char _ => ret false
      | Or r1 r2 =>
          let* b1 := is_contain_eps_fuel fuel' r1 in
          if b1 then ret true else is_contain_eps_fuel fuel' r2
      | Concat r1 r2 =>
          let* b1 := is_contain_eps_fuel fuel' r1 in
          if b1 then is_contain_eps_fuel fuel' r2 else ret false
      | Star _ => ret true
      end
  end.

Definition is_contain_eps (p : RegexPtr) : M bool :=
  is_contain_eps_fuel (ptr_fuel p) p.

(** C++ leaves the order in which the arguments of a call are evaluated
    unspecified (they are not interleaved).  Three calls in [derive] have
    two arguments with effects on the store; the development is
    parametric in the order the compiler picked. *)
Inductive ArgOrder : Type := LeftToRight | RightToLeft.

Section Derivative.

Variable order : ArgOrder.

Definition args2 {A B} (first : M A) (second : M B) : M (A * B) :=
  match order with
  | LeftToRight => let* a := first in let* b := second in ret (a, b)
  | RightToLeft => let* b := second in let* a := first in ret (a, b)
  end.

(** The bodies of the six [derive] overrides, selected by the class of
    the object; [call p c] is the virtual call [p->derive(c)] on a child. *)
Definition derive_body (call : RegexPtr -> ascii -> M RegexPtr)
    (obj : Regex) (c : ascii) : M RegexPtr :=
  match obj with
  | Emp => Emp_instance
  | Eps => Emp_instance
  | Char c_ => if Ascii.eqb c_ c then Eps_instance else Emp_instance
  | Or r1 r2 =>
      let* '(d1, d2) := args2 (call r1 c) (call r2 c) in
      Or_create d1 d2
  | Concat r1 r2 =>
      let* nullable := is_contain_eps r1 in
      if nullable then
        let* '(l, d2) := args2 (let* d1 := call r1 c in Concat_create d1 r2)
                               (call r2 c) in
        Or_create l d2
      else
        let* d1 := call r1 c in
        Concat_create d1 r2
  | Star r1 =>
      let* '(d1, st) := args2 (call r1 c) (Star_create r1) in
      Concat_create d1 st
  end.

(** [p->derive(c)], by dynamic dispatch on the object at [p]. *)
Fixpoint derive_fuel (fuel : nat) (p : RegexPtr) (c : ascii) : M RegexPtr :=
  match fuel with
  | 0 => out_of_fuel
  | S fuel' =>
      let* obj := deref p in
      derive_body (derive_fuel fuel') obj c
  end.

Definition derive (p : RegexPtr) (c : ascii) : M RegexPtr :=
  derive_fuel (ptr_fuel p) p c.

(** ** Matcher *)

(** The loop of [is_match]: [for (char c : text) result = result->derive(c)]. *)
Fixpoint is_match_loop (result : RegexPtr) (text : string) : M RegexPtr :=
  match text with
  | EmptyString => ret result
  | String c rest =>
      let* result' := derive result c in
      is_match_loop result' rest
  end.

(** [is_match]. *)
Definition is_match (regex : RegexPtr) (text : string) : M bool :=
  let* result := is_match_loop regex text in
  is_contain_eps result.

End Derivative.

(** ** Parser *)

Local Open Scope char_scope.

(** [std::stack::top] and [std::stack::pop]; the head of the list is the
    top of the stack.  On an empty stack both are undefined behaviour. *)
Definition top {A} (stack : list A) : M A :=
  match stack with
  | x :: _ => ret x
  | [] => undefined
  end.

Definition pop {A} (stack : list A) : M (list A) :=
  match stack with
  | _ :: rest => ret rest
  | [] => undefined
  end.

(** The lambda [apply_op]; the captured [operands] stack is passed in and
    returned. *)
Definition apply_op (op : ascii) (operands : list RegexPtr)
  : M (list RegexPtr) :=
  if Ascii.eqb op "|" then
    let* b := top operands in
    let* operands := pop operands in
    let* a := top operands in
    let* operands := pop operands in
    let* r := Or_create a b in
    ret (r :: operands)
  else if Ascii.eqb op "." then
    let* b := top operands in
    let* operands := pop operands in
    let* a := top operands in
    let* operands := pop operands in
    let* r := Concat_create a b in
    ret (r :: operands)
  else ret operands.

(** The lambda [precedence]. *)
Definition precedence (op : ascii) : Z :=
  if Ascii.eqb op "*" then 4
  else if Ascii.eqb op "+" then 4
  else if Ascii.eqb op "?" then 4
  else if Ascii.eqb op "." then 3
  else if Ascii.eqb op "|" then 2
  else 0.

(** The lambda [process_stack]: its [while] loop walks down the operator
    stack. *)
Fixpoint process_stack (op : ascii) (ops : list ascii)
    (operands : list RegexPtr) : M (list ascii * list RegexPtr) :=
  match ops with
  | [] => ret (ops, operands)
  | top_op :: ops' =>
      if (precedence top_op >=? precedence op)%Z then
        let* operands := apply_op top_op operands in
        process_stack op ops' operands
      else ret (ops, operands)
  end.

(** The [while] loop of the [')'] branch:
    [while (!ops.empty() && ops.top() != '(') { apply_op(ops.top()); ops.pop(); }] *)
Fixpoint close_paren_loop (ops : list ascii) (operands : list RegexPtr)
  : M (list ascii * list RegexPtr) :=
  match ops with
  | [] => ret (ops, operands)
  | top_op :: ops' =>
      if Ascii.eqb top_op "(" then ret (ops, operands)
      else
        let* operands := apply_op top_op operands in
        close_paren_loop ops' operands
  end.

(** The local variables of [parse_regex] that live across iterations. *)
Record Locals : Type := mkLocals {
  operands : list RegexPtr;
  ops : list ascii;
  prev : RegexPtr
}.

(** The body of the [for] loop after the escape has been resolved: the
    chain of [if]s on [c]. *)
Definition dispatch (c : ascii) (l : Locals) : M Locals :=
  if Ascii.eqb c "(" then
    ret (mkLocals (operands l) (c :: ops l) None)
  else if Ascii.eqb c ")" then
    let* '(ops1, operands1) := close_paren_loop (ops l) (operands l) in
    match ops1 with
    | [] => throw "Mismatched parentheses"%string
    | _ :: ops2 =>
        let* prev1 := top operands1 in
        ret (mkLocals operands1 ops2 prev1)
    end
  else if Ascii.eqb c "*" || Ascii.eqb c "+" || Ascii.eqb c "?" then
    match prev l with
    | None => throw (String c " cannot appear at start")
    | Some _ =>
        let* operands1 := pop (operands l) in
        let* operands2 :=
          (if Ascii.eqb c "*" then
             let* r := Star_create (prev l) in
             ret (r :: operands1)
           else if Ascii.eqb c "+" then
             let* st := Star_create (prev l) in
             let* r := Concat_create (prev l) st in
             ret (r :: operands1)
           else if Ascii.eqb c "?" then
             let* e := Eps_instance in
             let* r := Or_create e (prev l) in
             ret (r :: operands1)
           else ret operands1) in
        let* prev1 := top operands2 in
        ret (mkLocals operands2 (ops l) prev1)
    end
  else if Ascii.eqb c "|" then
    let* '(ops1, operands1) := process_stack "|" (ops l) (operands l) in
    ret (mkLocals operands1 ("|" :: ops1) None)
  else
    let* r := alloc (Char c) in
    let* '(ops1, operands1) :=
      (match prev l with
       | Some _ =>
           let* '(ops1, operands1) := process_stack "." (ops l) (operands l) in
           ret ("." :: ops1, operands1)
       | None => ret (ops l, operands l)
       end) in
    ret (mkLocals (r :: operands1) ops1 r).

(** The [for] loop over the pattern.  A backslash takes the following
    character as [c] and then falls into the same chain of [if]s. *)
Fixpoint parse_loop (s : string) (l : Locals) : M Locals :=
  match s with
  | EmptyString => ret l
  | String c rest =>
      if Ascii.eqb c "\" then
        match rest with
        | EmptyString => throw "Invalid escape"%string
        | String c' rest' =>
            let* l' := dispatch c' l in
            parse_loop rest' l'
        end
      else
        let* l' := dispatch c l in
        parse_loop rest l'
  end.

(** The final [while (!ops.empty())] loop. *)
Fixpoint flush_loop (ops : list ascii) (operands : list RegexPtr)
  : M (list RegexPtr) :=
  match ops with
  | [] => ret operands
  | top_op :: ops' =>
      if Ascii.eqb top_op "(" || Ascii.eqb top_op ")" then
        throw "Mismatched parentheses"%string
      else
        let* operands := apply_op top_op operands in
        flush_loop ops' operands
  end.

(** [parse_regex]. *)
Definition parse_regex (s : string) : M RegexPtr :=
  let* l := parse_loop s (mkLocals [] [] None) in
  let* operands := flush_loop (ops l) (operands l) in
  if decide (length operands = 1) then top operands
  else throw "Invalid regex"%string.

Local Close Scope char_scope.

(** The two calls of [main], on a fresh process. *)
Definition run (order : ArgOrder) (pattern text : string) : Outcome bool :=
  (let* regex := parse_regex pattern in is_match order regex text) initial_state.

Definition result_of {A} (o : Outcome A) : option A :=
  match o with
  | Ok a _ => Some a
  | _ => None
  end.

(** ** The program

    What a run of the process leaves: an exit status with what was
    written to [std::cout] and [std::cerr], or a crash by undefined
    behaviour, or the embedding running out of fuel. *)
Inductive ProcessOutcome : Type :=
  | Exited (status : Z) (cout cerr : string)
  | Crashed
  | Exhausted.

(** The line feed that ends every line [main] writes. *)
Definition newline : string := String (ascii_of_nat 10) EmptyString.

(** [main]: [argv] is the argument vector, its length [argc].  With
    [argc = 0] there is no [argv[0]] to print (it is a null pointer).
    The [catch] clause takes every [std::exception]; nothing but
    [parse_regex] throws. *)
Definition main (order : ArgOrder) (argv : list string) : ProcessOutcome :=
  match argv with
  | [] => Crashed
  | [_; pattern; text] =>
      match parse_regex pattern initial_state with
      | Ok regex s =>
          match is_match order regex text s with
          | Ok matched _ =>
              Exited 0 ((if matched then "true" else "false") +:+ newline) ""
          | Throw what _ =>
              Exited 1 "" ("Error parsing regex: " +:+ what +:+ newline)
          | Undefined => Crashed
          | OutOfFuel => Exhausted
          end
      | Throw what _ =>
          Exited 1 "" ("Error parsing regex: " +:+ what +:+ newline)
      | Undefined => Crashed
      | OutOfFuel => Exhausted
      end
  | argv0 :: _ =>
      Exited 1 "" ("Usage: " +:+ argv0 +:+ " <regex> <text>" +:+ newline)
  end.

(** ** Invariants of the store *)

(** [below p n]: [p] is not null and its address is smaller than [n]. *)
Definition below (p : RegexPtr) (n : nat) : Prop :=
  match p with
  | Some a => a < n
  | None => False
  end.

(** A pointer is valid when it refers to an allocated object. *)
Definition valid (s : State) (p : RegexPtr) : Prop :=
  below p (length (heap s)).

(** What holds of the object at address [n]: its children were allocated
    before it and are not null; an [Emp] or [Eps] object is the singleton
    (their constructors are private). *)
Definition node_ok (s : State) (n : nat) (obj : Regex) : Prop :=
  match obj with
  | Emp => Emp_inst s = Some n
  | Eps => Eps_inst s = Some n
  | Char _ => True
  | Or a b => below a n /\ below b n
  | Concat a b => below a n /\ below b n
  | Star a => below a n
  end.

Definition heap_ok (s : State) : Prop :=
  Forall (fun x => node_ok s x.1 x.2) (imap pair (heap s)).

(** An initialised singleton holds an object of its class. *)
Definition inst_ok (s : State) (inst : RegexPtr) (obj : Regex) : Prop :=
  match inst with
  | Some a => heap s !! a = Some obj
  | None => True
  end.

(** A cached pointer refers to the object that was built for its key. *)
Definition cached_ok (s : State) (obj : Regex) (v : RegexPtr) : Prop :=
  match v with
  | Some q => heap s !! q = Some obj
  | None => False
  end.

Definition Or_cache_ok (s : State) : Prop :=
  map_Forall (fun k v => type k = "Or" /\ cached_ok s (Or (key_r1 k) (key_r2 k)) v)
             (Or_cache s).

Definition Concat_cache_ok (s : State) : Prop :=
  map_Forall (fun k v => type k = "Concat"
                         /\ cached_ok s (Concat (key_r1 k) (key_r2 k)) v)
             (Concat_cache s).

Definition Star_cache_ok (s : State) : Prop :=
  map_Forall (fun k v => cached_ok s (Star k) v) (Star_cache s).

Record wf (s : State) : Prop := mkWf {
  wf_heap : heap_ok s;
  wf_Emp : inst_ok s (Emp_inst s) Emp;
  wf_Eps : inst_ok s (Eps_inst s) Eps;
  wf_Or : Or_cache_ok s;
  wf_Concat : Concat_cache_ok s;
  wf_Star : Star_cache_ok s
}.

(** The store only grows: objects stay where they are, an initialised
    singleton stays, cache entries stay. *)
Definition inst_le (i i' : RegexPtr) : Prop :=
  match i with
  | Some _ => i' = i
  | None => True
  end.

Definition cache_le `{Countable K} (m m' : gmap K RegexPtr) : Prop :=
  map_Forall (fun k v => m' !! k = Some v) m.

Record State_le (s s' : State) : Prop := mkLe {
  le_heap : heap s `prefix_of` heap s';
  le_Emp : inst_le (Emp_inst s) (Emp_inst s');
  le_Eps : inst_le (Eps_inst s) (Eps_inst s');
  le_Or : cache_le (Or_cache s) (Or_cache s');
  le_Concat : cache_le (Concat_cache s) (Concat_cache s');
  le_Star : cache_le (Star_cache s) (Star_cache s')
}.

(** All of these are decidable, so they can be checked on a concrete
    state by evaluation. *)
#[global] Instance below_dec p n : Decision (below p n).
Proof. destruct p; simpl; apply _. Defined.

#[global] Instance valid_dec s p : Decision (valid s p).
Proof. unfold valid; apply _. Defined.

#[global] Instance node_ok_dec s n obj : Decision (node_ok s n obj).
Proof. destruct obj; simpl; apply _. Defined.

#[global] Instance inst_ok_dec s inst obj : Decision (inst_ok s inst obj).
Proof. destruct inst; simpl; apply _. Defined.

#[global] Instance cached_ok_dec s obj v : Decision (cached_ok s obj v).
Proof. destruct v; simpl; apply _. Defined.

#[global] Instance inst_le_dec i i' : Decision (inst_le i i').
Proof. destruct i; simpl; apply _. Defined.

#[global] Instance wf_dec s : Decision (wf s).
Proof.
  refine (cast_if (decide (heap_ok s /\ inst_ok s (Emp_inst s) Emp
                           /\ inst_ok s (Eps_inst s) Eps /\ Or_cache_ok s
                           /\ Concat_cache_ok s /\ Star_cache_ok s)));
    [ destruct a as (?&?&?&?&?&?); by constructor
    | intros []; tauto ].
Defined.

#[global] Instance State_le_dec s s' : Decision (State_le s s').
Proof.
  refine (cast_if (decide (heap s `prefix_of` heap s'
                           /\ inst_le (Emp_inst s) (Emp_inst s')
                           /\ inst_le (Eps_inst s) (Eps_inst s')
                           /\ cache_le (Or_cache s) (Or_cache s')
                           /\ cache_le (Concat_cache s) (Concat_cache s')
                           /\ cache_le (Star_cache s) (Star_cache s'))));
    [ destruct a as (?&?&?&?&?&?); by constructor
    | intros []; tauto ].
Defined.

(** ** A program logic for the monad

    [agree m1 m2 s Q]: started in [s], the two computations return the
    same value and the same state, that state is well formed and extends
    [s], and [Q] holds of the result.  With [m1 = m2] this is total
    correctness of one computation. *)
Definition agree {A} (m1 m2 : M A) (s : State) (Q : A -> State -> Prop) : Prop :=
  exists a s', m1 s = Ok a s' /\ m2 s = Ok a s' /\ wf s' /\ State_le s s' /\ Q a s'.

(** [Q] keeps holding when the store grows. *)
Definition stable {A} (Q : A -> State -> Prop) : Prop :=
  forall a s s', Q a s -> State_le s s' -> Q a s'.

(** [extends m]: whenever [m] returns, it returns a later store; this is
    asked of every store, well formed or not. *)
Definition extends {A} (m : M A) : Prop :=
  forall s a s', m s = Ok a s' -> State_le s s'.

(** [partial m s Q]: if [m], started in [s], returns, then the store it
    returns is well formed and extends [s], and [Q] holds of the result.
    The parser may throw, so this is what can be said of it. *)
Definition partial {A} (m : M A) (s : State) (Q : A -> State -> Prop) : Prop :=
  forall a s', m s = Ok a s' -> wf s' /\ State_le s s' /\ Q a s'.

(** The loop invariant of [parse_regex]: the operand stack holds valid
    pointers, and so does [prev] unless it is null. *)
Definition operands_ok (s : State) (operands : list RegexPtr) : Prop :=
  Forall (valid s) operands.

Definition locals_ok (s : State) (l : Locals) : Prop :=
  operands_ok s (operands l)
  /\ match prev l with
     | Some a => valid s (Some a)
     | None => True
     end.

(** ** The matcher as the specification words it

    "Starting from root, derive sequentially with each symbol of text in
    order (left to right), replacing the working node with each
    derivative's result": a left fold over the symbols of the text. *)
Definition derive_all (order : ArgOrder) (root : RegexPtr) (text : string)
  : M RegexPtr :=
  fold_left (fun working c => let* node := working in derive order node c)
            (list_ascii_of_string text) (ret root).

(** ** A concrete store

    The store and the root after [parse_regex "ab*"] in a fresh process:
    [Char 'a'] at 0, [Char 'b'] at 1, [Star] of 1 at 2 and, at 3, the root
    [Concat] of 0 and 2. *)
Definition store_of {A} (o : Outcome A) : State :=
  match o with
  | Ok _ s => s
  | Throw _ s => s
  | _ => initial_state
  end.

Definition ab_star_store : State := store_of (parse_regex "ab*" initial_state).

(** The store after [parse_regex "(a|b)+"] in a fresh process. *)
Definition a_or_b_plus_store : State :=
  store_of (parse_regex "(a|b)+" initial_state).

(** [ab_star_store] after one more [Or::create] on the two [Char]
    objects, and that store after a derivation step from the root. *)
Definition interned_store : State :=
  store_of (Or_create (Some 0) (Some 1) ab_star_store).

Definition derived_store : State :=
  store_of (derive LeftToRight (Some 3) "a" interned_store).

(** ** The language of a node

    What an object of each class stands for: [Emp] for no word, [Eps] for
    the empty word, [Char c] for the one-letter word [c], [Or] for the
    words of either child, [Concat] for a word of the first child followed
    by a word of the second, [Star] for any number of words of the child
    in a row.  [lang h p w]: the word [w] belongs to the language of the
    object [p] points to in the heap [h].  A null pointer has no words. *)
Inductive lang (h : list Regex) : RegexPtr -> list ascii -> Prop :=
  | lang_Eps a :
      h !! a = Some Eps -> lang h (Some a) []
  | lang_Char a c :
      h !! a = Some (Char c) -> lang h (Some a) [c]
  | lang_Or_l a r1 r2 w :
      h !! a = Some (Or r1 r2) -> lang h r1 w -> lang h (Some a) w
  | lang_Or_r a r1 r2 w :
      h !! a = Some (Or r1 r2) -> lang h r2 w -> lang h (Some a) w
  | lang_Concat a r1 r2 w1 w2 :
      h !! a = Some (Concat r1 r2) -> lang h r1 w1 -> lang h r2 w2 ->
      lang h (Some a) (w1 ++ w2)
  | lang_Star_nil a r1 :
      h !! a = Some (Star r1) -> lang h (Some a) []
  | lang_Star_app a r1 w1 w2 :
      h !! a = Some (Star r1) -> lang h r1 w1 -> lang h (Some a) w2 ->
      lang h (Some a) (w1 ++ w2).

(** [Q] keeps holding when the store grows into a well-formed one. *)
Definition stable_wf {A} (Q : A -> State -> Prop) : Prop :=
  forall a s s', wf s' -> Q a s -> State_le s s' -> Q a s'.

(** [derives s p c q s']: in [s'] the object at [q] stands for the words
    [w] such that [c :: w] is a word of the object at [p] in [s]. *)
Definition derives (s : State) (p : RegexPtr) (c : ascii)
    (q : RegexPtr) (s' : State) : Prop :=
  valid s' q /\ forall w, lang (heap s') q w <-> lang (heap s) p (c :: w).

(** ** Parentheses of a pattern

    [dispatched s]: the characters of the pattern that reach the chain of
    [if]s of [parse_regex], in order: every character except a backslash
    that introduces an escape. *)
Fixpoint dispatched (s : string) : list ascii :=
  match s with
  | EmptyString => []
  | String c rest =>
      if Ascii.eqb c "\" then
        match rest with
        | EmptyString => []
        | String c' rest' => c' :: dispatched rest'
        end
      else c :: dispatched rest
  end.

(** [paren_depth cs d]: the nesting depth after the characters [cs],
    starting at depth [d]; [None] when a [')'] comes at depth 0. *)
Fixpoint paren_depth (cs : list ascii) (d : nat) : option nat :=
  match cs with
  | [] => Some d
  | c :: cs' =>
      if Ascii.eqb c "(" then paren_depth cs' (S d)
      else if Ascii.eqb c ")" then
        match d with
        | 0 => None
        | S d' => paren_depth cs' d'
        end
      else paren_depth cs' d
  end.

(** The number of ['('] markers on the operator stack. *)
Fixpoint open_parens (ops : list ascii) : nat :=
  match ops with
  | [] => 0
  | c :: ops' =>
      if Ascii.eqb c "(" then S (open_parens ops') else open_parens ops'
  end.

(** ** Plain patterns

    The characters [parse_regex] gives a meaning of their own, and the
    patterns free of them. *)
Definition metacharacters : list ascii :=
  ["\"; "("; ")"; "*"; "+"; "?"; "|"]%char.

Definition plain (c : ascii) : bool :=
  forallb (fun m => negb (Ascii.eqb c m)) metacharacters.

Fixpoint all_plain (s : string) : bool :=
  match s with
  | EmptyString => true
  | String c rest => plain c && all_plain rest
  end.

(** The scan of a pattern followed by the final loop over the operator
    stack: [parse_regex] up to its last check. *)
Definition scan_and_flush (pattern : string) (l : Locals)
  : M (list RegexPtr) :=
  let* l' := parse_loop pattern l in
  flush_loop (ops l') (operands l').

(** ** Interning is complete

    [registered s]: every [Or], [Concat] and [Star] object of the heap is
    the one its cache holds for its operands (their constructors are
    private, so [create] is the only way to build them). *)
Definition registered (s : State) : Prop :=
  forall a obj,
    heap s !! a = Some obj ->
    match obj with
    | Or r1 r2 => Or_cache s !! mkRegexKey "Or" r1 r2 = Some (Some a)
    | Concat r1 r2 => Concat_cache s !! mkRegexKey "Concat" r1 r2 = Some (Some a)
    | Star r1 => Star_cache s !! r1 = Some (Some a)
    | _ => True
    end.

Definition keeps_registered {A} (m : M A) : Prop :=
  forall s a s', registered s -> m s = Ok a s' -> registered s'.

(** The stores a process can be in: the initial one, and the one any
    returning call of [parse_regex], [derive] or [is_match] leaves. *)
Inductive reachable : State -> Prop :=
  | reachable_initial : reachable initial_state
  | reachable_parse s pattern root s' :
      reachable s -> parse_regex pattern s = Ok root s' -> reachable s'
  | reachable_derive s order p c q s' :
      reachable s -> valid s p -> derive order p c s = Ok q s' -> reachable s'
  | reachable_is_match s order root text v s' :
      reachable s -> valid s root -> is_match order root text s = Ok v s' ->
      reachable s'.

(** [dot_stops ops]: [process_stack('.')] pops nothing from [ops]: the
    stack is empty or its top binds weaker than ['.'] (it is ['|'] or
    ['(']). *)
Definition dot_stops (ops : list ascii) : Prop :=
  match ops with
  | [] => True
  | top_op :: _ => (precedence top_op >=? precedence ".")%Z = false
  end.

(** [only w u]: [u] is the one word of the language [w]. *)
Definition only (w : list ascii -> Prop) (u : list ascii) : Prop :=
  forall v, w v <-> v = u.

(** What the locals look like after a plain word [u ++ [k]] was scanned
    above the stacks [below] and [ops_below]: either the [Char] of a
    one-letter word lies on top, or the [Char] of the last letter [k] lies
    on an operand for the letters [u] before it, with a ['.'] pending. *)
Inductive word_shape (s : State) (below : list RegexPtr)
    (ops_below : list ascii) (u : list ascii) (k : ascii) (l : Locals) : Prop :=
  | shape_single x :
      u = [] ->
      l = mkLocals (Some x :: below) ops_below (Some x) ->
      valid s (Some x) -> only (lang (heap s) (Some x)) [k] ->
      word_shape s below ops_below u k l
  | shape_pending x acc :
      l = mkLocals (Some x :: acc :: below) ("."%char :: ops_below) (Some x) ->
      valid s (Some x) -> only (lang (heap s) (Some x)) [k] ->
      valid s acc -> only (lang (heap s) acc) u ->
      word_shape s below ops_below u k l.

(** The words a postfix operator makes of the one-letter word [k]. *)
Definition postfix_lang (op k : ascii) (w : list ascii) : Prop :=
  if Ascii.eqb op "*" then exists n, w = repeat k n
  else if Ascii.eqb op "+" then exists n, w = repeat k (S n)
  else w = [] \/ w = [k].

(** The words a postfix operator makes of the language [L]: any number
    of words of [L] in a row for [*], at least one for [+], one or none
    for [?]. *)
Definition postfix_closure (op : ascii) (L : list ascii -> Prop)
    (w : list ascii) : Prop :=
  if Ascii.eqb op "*" then exists ws, w = concat ws /\ Forall L ws
  else if Ascii.eqb op "+" then
    exists w1 ws, w = (w1 ++ concat ws)%list /\ L w1 /\ Forall L ws
  else w = [] \/ L w.

(** ** The patterns [parse_regex] understands

    The characters that select a branch of the chain of [if]s; every
    other character, the backslash included, takes the last branch and
    becomes a [Char]. *)
Definition operators : list ascii := ["("; ")"; "*"; "+"; "?"; "|"]%char.

Definition literal (c : ascii) : bool :=
  forallb (fun m => negb (Ascii.eqb c m)) operators.

(** The loop of [parse_regex] over characters whose escapes are already
    resolved. *)
Fixpoint scan (ts : list ascii) (l : Locals) : M Locals :=
  match ts with
  | [] => ret l
  | c :: ts' =>
      let* l' := dispatch c l in
      scan ts' l'
  end.

(** No backslash is the last character of the pattern without being
    escaped itself. *)
Fixpoint escapes_closed (s : string) : bool :=
  match s with
  | EmptyString => true
  | String c rest =>
      if Ascii.eqb c "\" then
        match rest with
        | EmptyString => false
        | String _ rest' => escapes_closed rest'
        end
      else escapes_closed rest
  end.

(** Regular expressions as trees, to say what a pattern means. *)
Inductive re : Type :=
  | Lit (c : ascii)
  | Alt (e1 e2 : re)
  | Cat (e1 e2 : re)
  | Post (op : ascii) (e : re).

(** The words of a tree. *)
Fixpoint den (e : re) : list ascii -> Prop :=
  match e with
  | Lit c => fun w => w = [c]
  | Alt e1 e2 => fun w => den e1 w \/ den e2 w
  | Cat e1 e2 =>
      fun w => exists w1 w2, w = (w1 ++ w2)%list /\ den e1 w1 /\ den e2 w2
  | Post op e => postfix_closure op (den e)
  end.

Definition is_postfix (op : ascii) : Prop :=
  op = "*"%char \/ op = "+"%char \/ op = "?"%char.

(** A literal followed by postfix operators: the only kind of operand
    the parser concatenates to what precedes it. *)
Inductive lfactor : list ascii -> re -> Prop :=
  | lf_lit c : literal c = true -> lfactor [c] (Lit c)
  | lf_post ts e op :
      lfactor ts e -> is_postfix op -> lfactor (ts ++ [op])%list (Post op e).

(** The grammar of the patterns, by level: an atom is a literal or a
    parenthesised expression; a factor is an atom followed by postfix
    operators; a term is a factor followed by literal factors; an
    expression is a sequence of terms separated by ['|']. *)
Inductive level : Type := Atom | Factor | Term | Expr.

Inductive parses : level -> list ascii -> re -> Prop :=
  | p_lit c : literal c = true -> parses Atom [c] (Lit c)
  | p_group ts e :
      parses Expr ts e -> parses Atom ("("%char :: ts ++ [")"%char])%list e
  | p_atom ts e : parses Atom ts e -> parses Factor ts e
  | p_post ts e op :
      parses Factor ts e -> is_postfix op ->
      parses Factor (ts ++ [op])%list (Post op e)
  | p_factor ts e : parses Factor ts e -> parses Term ts e
  | p_cat ts1 e1 ts2 e2 :
      parses Term ts1 e1 -> lfactor ts2 e2 ->
      parses Term (ts1 ++ ts2)%list (Cat e1 e2)
  | p_term ts e : parses Term ts e -> parses Expr ts e
  | p_alt ts1 e1 ts2 e2 :
      parses Expr ts1 e1 -> parses Term ts2 e2 ->
      parses Expr (ts1 ++ "|"%char :: ts2)%list (Alt e1 e2).

(** [bar_stops ops]: [process_stack('|')] pops nothing from [ops]. *)
Definition bar_stops (ops : list ascii) : Prop :=
  match ops with
  | [] => True
  | top_op :: _ => (precedence top_op >=? precedence "|")%Z = false
  end.

(** The shapes of the locals after an operand for the language [L] was
    scanned above [below] and [ops_below]: one operand; or two operands
    with a ['.'] pending between them; or one of these above an earlier
    alternative [v] with a ['|'] pending. *)
Definition single_shape (s : State) (below : list RegexPtr)
    (ops_below : list ascii) (L : list ascii -> Prop) (l : Locals) : Prop :=
  exists x,
    l = mkLocals (Some x :: below) ops_below (Some x)
    /\ valid s (Some x)
    /\ forall w, lang (heap s) (Some x) w <-> L w.

Definition pending_shape (s : State) (below : list RegexPtr)
    (ops_below : list ascii) (La Lx : list ascii -> Prop) (l : Locals) : Prop :=
  exists x acc,
    l = mkLocals (Some x :: acc :: below) ("."%char :: ops_below) (Some x)
    /\ valid s (Some x) /\ valid s acc
    /\ (forall w, lang (heap s) acc w <-> La w)
    /\ (forall w, lang (heap s) (Some x) w <-> Lx w).

Definition term_shape (s : State) (below : list RegexPtr)
    (ops_below : list ascii) (L : list ascii -> Prop) (l : Locals) : Prop :=
  single_shape s below ops_below L l
  \/ exists La Lx,
       pending_shape s below ops_below La Lx l
       /\ forall w, L w <-> exists w1 w2, w = (w1 ++ w2)%list /\ La w1 /\ Lx w2.

Definition expr_shape (s : State) (below : list RegexPtr)
    (ops_below : list ascii) (L : list ascii -> Prop) (l : Locals) : Prop :=
  term_shape s below ops_below L l
  \/ exists v L2,
       valid s v
       /\ term_shape s (v :: below) ("|"%char :: ops_below) L2 l
       /\ forall w, L w <-> lang (heap s) v w \/ L2 w.

Definition shape (lvl : level) : State -> list RegexPtr -> list ascii ->
    (list ascii -> Prop) -> Locals -> Prop :=
  match lvl with
  | Atom | Factor => single_shape
  | Term => term_shape
  | Expr => expr_shape
  end.

(** What the scan of a level needs of the operators below it: a term
    pushes ['.'] after [process_stack('.')], an expression also ['|'] after
    [process_stack('|')], and neither may pop what lies below. *)
Definition context_ok (lvl : level) (ops_below : list ascii) : Prop :=
  match lvl with
  | Atom | Factor => True
  | Term => dot_stops ops_below
  | Expr => dot_stops ops_below /\ bar_stops ops_below
  end.

(** * Properties *)

(** ** The store grows monotonically *)

Lemma heap_ok_lookup s :
  heap_ok s <-> forall n obj, heap s !! n = Some obj -> node_ok s n obj.
Proof.
  unfold heap_ok. rewrite Forall_lookup. split.
  - intros H n obj Hn. apply (H n (n, obj)).
    by rewrite list_lookup_imap, Hn.
  - intros H i [n obj]. rewrite list_lookup_imap.
    destruct (heap s !! i) as [obj'|] eqn:Hi; simpl; [|done].
    intros [= <- <-]. by apply H.
Qed.

Lemma cache_le_refl `{Countable K} (m : gmap K RegexPtr) : cache_le m m.
Proof. by intros k v Hk. Qed.

Lemma cache_le_trans `{Countable K} (m1 m2 m3 : gmap K RegexPtr) :
  cache_le m1 m2 -> cache_le m2 m3 -> cache_le m1 m3.
Proof. intros H12 H23 k v Hk. apply H23, H12, Hk. Qed.

Lemma cache_le_insert `{Countable K} (m : gmap K RegexPtr) k v :
  m !! k = None -> cache_le m (<[k := v]> m).
Proof.
  intros Hk k' v' Hk'. rewrite lookup_insert_ne; [done|].
  intros ->. congruence.
Qed.

Lemma inst_le_refl i : inst_le i i.
Proof. by destruct i. Qed.

Lemma inst_le_trans i1 i2 i3 : inst_le i1 i2 -> inst_le i2 i3 -> inst_le i1 i3.
Proof. destruct i1; simpl; [|done]. intros ->. simpl. done. Qed.

Lemma State_le_refl s : State_le s s.
Proof.
  constructor; auto using inst_le_refl, cache_le_refl.
Qed.

Lemma State_le_trans s1 s2 s3 : State_le s1 s2 -> State_le s2 s3 -> State_le s1 s3.
Proof.
  intros [] []. constructor; eauto using inst_le_trans, cache_le_trans.
  by etrans.
Qed.

#[global] Instance State_le_preorder : PreOrder State_le.
Proof. split; [exact State_le_refl | exact State_le_trans]. Qed.

Lemma State_le_lookup s s' n obj :
  State_le s s' -> heap s !! n = Some obj -> heap s' !! n = Some obj.
Proof. intros [Hp _ _ _ _ _] Hn. by eapply prefix_lookup_Some. Qed.

Lemma State_le_length s s' : State_le s s' -> length (heap s) <= length (heap s').
Proof. intros [Hp _ _ _ _ _]. by apply prefix_length. Qed.

Lemma below_mono p n m : below p n -> n <= m -> below p m.
Proof. destruct p; simpl; lia. Qed.

Lemma valid_le s s' p : State_le s s' -> valid s p -> valid s' p.
Proof. intros Hle Hp. eapply below_mono; [exact Hp|]. by apply State_le_length. Qed.

Lemma cached_ok_valid s obj v : cached_ok s obj v -> valid s v.
Proof. destruct v; simpl; [|done]. apply lookup_lt_Some. Qed.

(** ** Rules of the program logic *)

Lemma agree_eq {A} (m1 m2 : M A) s Q : agree m1 m2 s Q -> m1 s = m2 s.
Proof. intros (a & s' & -> & -> & _). done. Qed.

Lemma agree_ret {A} (a : A) s (Q : A -> State -> Prop) :
  wf s -> Q a s -> agree (ret a) (ret a) s Q.
Proof.
  intros Hwf HQ. exists a, s.
  split; [done|]. split; [done|]. split; [done|]. split; [apply State_le_refl|done].
Qed.

Lemma agree_conseq {A} (m1 m2 : M A) s (Q Q' : A -> State -> Prop) :
  agree m1 m2 s Q ->
  (forall a s', wf s' -> State_le s s' -> Q a s' -> Q' a s') ->
  agree m1 m2 s Q'.
Proof.
  intros (a & s' & H1 & H2 & Hwf & Hle & HQ) HQQ.
  exists a, s'. auto 10.
Qed.

Lemma agree_bind {A B} (m1 m2 : M A) (k1 k2 : A -> M B) s
    (Q : A -> State -> Prop) (R : B -> State -> Prop) :
  agree m1 m2 s Q ->
  (forall a s', wf s' -> State_le s s' -> Q a s' -> agree (k1 a) (k2 a) s' R) ->
  agree (bind m1 k1) (bind m2 k2) s R.
Proof.
  intros (a & s' & H1 & H2 & Hwf & Hle & HQ) Hk.
  destruct (Hk a s' Hwf Hle HQ) as (b & s'' & K1 & K2 & Hwf' & Hle' & HR).
  exists b, s''. unfold bind. rewrite H1, H2.
  split; [done|]. split; [done|]. split; [done|]. split; [by etrans|done].
Qed.

Section ArgsLogic.

Variable order : ArgOrder.

Lemma agree_args2 {A B} (f1 f2 : M A) (g1 g2 : M B) s
    (QA : A -> State -> Prop) (QB : B -> State -> Prop) :
  wf s -> stable QA -> stable QB ->
  (forall s', wf s' -> State_le s s' -> agree f1 f2 s' QA) ->
  (forall s', wf s' -> State_le s s' -> agree g1 g2 s' QB) ->
  agree (args2 order f1 g1) (args2 order f2 g2) s
        (fun ab s' => QA ab.1 s' /\ QB ab.2 s').
Proof.
  intros Hwf HsA HsB Hf Hg. unfold args2. destruct order.
  - eapply agree_bind; [apply Hf; [done|apply State_le_refl]|].
    intros a s1 Hwf1 Hle1 Ha.
    eapply agree_bind; [apply Hg; done|].
    intros b s2 Hwf2 Hle2 Hb.
    apply agree_ret; [done|]. simpl. split; [|done]. by eapply HsA.
  - eapply agree_bind; [apply Hg; [done|apply State_le_refl]|].
    intros b s1 Hwf1 Hle1 Hb.
    eapply agree_bind; [apply Hf; done|].
    intros a s2 Hwf2 Hle2 Ha.
    apply agree_ret; [done|]. simpl. split; [done|]. by eapply HsB.
Qed.

End ArgsLogic.

Lemma stable_valid : stable (fun p s => valid s p).
Proof. intros p s s' Hp Hle. by eapply valid_le. Qed.

(** ** Allocation and the caches keep the store well formed *)

Lemma node_ok_insts s s' n obj :
  inst_le (Emp_inst s) (Emp_inst s') -> inst_le (Eps_inst s) (Eps_inst s') ->
  node_ok s n obj -> node_ok s' n obj.
Proof.
  intros HE HP. destruct obj; simpl; try done.
  - intros H. rewrite H in HE. done.
  - intros H. rewrite H in HP. done.
Qed.

Lemma cached_ok_prefix s s' obj v :
  heap s `prefix_of` heap s' -> cached_ok s obj v -> cached_ok s' obj v.
Proof. destruct v; simpl; [|done]. intros Hp Hv. by eapply prefix_lookup_Some. Qed.

Lemma inst_ok_prefix s s' inst obj :
  heap s `prefix_of` heap s' -> inst_ok s inst obj -> inst_ok s' inst obj.
Proof. destruct inst; simpl; [|done]. intros Hp Hv. by eapply prefix_lookup_Some. Qed.

(** One object is appended to the heap and the singletons are possibly
    initialised: the shape of [alloc], [Emp::instance] and [Eps::instance]. *)
Lemma wf_extend s obj ei pi :
  let s' := mkState (heap s ++ [obj]) ei pi
                    (Or_cache s) (Concat_cache s) (Star_cache s) in
  wf s ->
  inst_le (Emp_inst s) ei -> inst_le (Eps_inst s) pi ->
  node_ok s' (length (heap s)) obj ->
  inst_ok s' ei Emp -> inst_ok s' pi Eps ->
  wf s' /\ State_le s s'.
Proof.
  intros s' [Hh HE HP HO HC HS] HleE HleP Hobj HiE HiP.
  assert (Hpre : heap s `prefix_of` heap s') by (by apply prefix_app_r).
  split.
  - constructor; try done.
    + apply heap_ok_lookup. intros n obj' Hn. simpl in Hn.
      destruct (decide (n < length (heap s))) as [Hlt|Hge].
      * rewrite lookup_app_l in Hn by done.
        eapply (node_ok_insts s); [done..|].
        by apply heap_ok_lookup.
      * destruct (decide (n = length (heap s))) as [->|Hne].
        -- rewrite list_lookup_middle in Hn by done. by injection Hn as <-.
        -- apply lookup_lt_Some in Hn. rewrite length_app in Hn. simpl in Hn. lia.
    + eapply map_Forall_impl; [exact HO|]. simpl.
      intros k v [? ?]. split; [done|]. by eapply cached_ok_prefix.
    + eapply map_Forall_impl; [exact HC|]. simpl.
      intros k v [? ?]. split; [done|]. by eapply cached_ok_prefix.
    + eapply map_Forall_impl; [exact HS|]. simpl.
      intros k v ?. by eapply cached_ok_prefix.
  - constructor; try done; apply cache_le_refl.
Qed.

Lemma agree_deref s a obj :
  wf s -> heap s !! a = Some obj ->
  agree (deref (Some a)) (deref (Some a)) s (fun o s' => o = obj /\ s' = s).
Proof.
  intros Hwf Ha. exists obj, s. unfold deref. rewrite Ha.
  split; [done|]. split; [done|]. split; [done|]. split; [apply State_le_refl|done].
Qed.

Lemma agree_alloc s obj :
  wf s -> node_ok s (length (heap s)) obj ->
  agree (alloc obj) (alloc obj) s
        (fun p s' => p = Some (length (heap s)) /\ cached_ok s' obj p).
Proof.
  intros Hwf Hobj.
  destruct (wf_extend s obj (Emp_inst s) (Eps_inst s)) as [Hwf' Hle]; try done.
  - apply inst_le_refl.
  - apply inst_le_refl.
  - eapply inst_ok_prefix; [|apply Hwf]. by apply prefix_app_r.
  - eapply inst_ok_prefix; [|apply Hwf]. by apply prefix_app_r.
  - eexists _, _. split; [done|]. split; [done|]. split; [done|]. split; [done|].
    split; [done|]. simpl. by apply list_lookup_middle.
Qed.

Lemma agree_Emp_instance s :
  wf s ->
  agree Emp_instance Emp_instance s
        (fun p s' => p = Emp_inst s' /\ cached_ok s' Emp p).
Proof.
  intros Hwf. unfold agree, Emp_instance.
  destruct (Emp_inst s) as [a|] eqn:HE.
  - exists (Some a), s.
    split; [done|]. split; [done|]. split; [done|]. split; [apply State_le_refl|].
    split; [done|]. simpl. pose proof (wf_Emp s Hwf) as H. by rewrite HE in H.
  - destruct (wf_extend s Emp (Some (length (heap s))) (Eps_inst s))
      as [Hwf' Hle]; try done.
    + by rewrite HE.
    + apply inst_le_refl.
    + simpl. by apply list_lookup_middle.
    + eapply inst_ok_prefix; [|apply Hwf]. by apply prefix_app_r.
    + eexists _, _. split; [done|]. split; [done|]. split; [done|]. split; [done|].
      split; [done|]. simpl. by apply list_lookup_middle.
Qed.

Lemma agree_Eps_instance s :
  wf s ->
  agree Eps_instance Eps_instance s
        (fun p s' => p = Eps_inst s' /\ cached_ok s' Eps p).
Proof.
  intros Hwf. unfold agree, Eps_instance.
  destruct (Eps_inst s) as [a|] eqn:HE.
  - exists (Some a), s.
    split; [done|]. split; [done|]. split; [done|]. split; [apply State_le_refl|].
    split; [done|]. simpl. pose proof (wf_Eps s Hwf) as H. by rewrite HE in H.
  - destruct (wf_extend s Eps (Emp_inst s) (Some (length (heap s))))
      as [Hwf' Hle]; try done.
    + apply inst_le_refl.
    + by rewrite HE.
    + eapply inst_ok_prefix; [|apply Hwf]. by apply prefix_app_r.
    + simpl. by apply list_lookup_middle.
    + eexists _, _. split; [done|]. split; [done|]. split; [done|]. split; [done|].
      split; [done|]. simpl. by apply list_lookup_middle.
Qed.

Lemma wf_Or_store s key ptr :
  let s' := mkState (heap s) (Emp_inst s) (Eps_inst s)
                    (<[key := ptr]> (Or_cache s)) (Concat_cache s) (Star_cache s) in
  wf s -> type key = "Or" ->
  cached_ok s (Or (key_r1 key) (key_r2 key)) ptr ->
  Or_cache s !! key = None ->
  wf s' /\ State_le s s'.
Proof.
  intros s' [Hh HE HP HO HC HS] Hty Hptr Hnone. split.
  - constructor; try done.
    apply map_Forall_insert_2; [|exact HO]. by split.
  - constructor; simpl; auto using inst_le_refl, cache_le_refl, cache_le_insert.
Qed.

Lemma wf_Concat_store s key ptr :
  let s' := mkState (heap s) (Emp_inst s) (Eps_inst s)
                    (Or_cache s) (<[key := ptr]> (Concat_cache s)) (Star_cache s) in
  wf s -> type key = "Concat" ->
  cached_ok s (Concat (key_r1 key) (key_r2 key)) ptr ->
  Concat_cache s !! key = None ->
  wf s' /\ State_le s s'.
Proof.
  intros s' [Hh HE HP HO HC HS] Hty Hptr Hnone. split.
  - constructor; try done.
    apply map_Forall_insert_2; [|exact HC]. by split.
  - constructor; simpl; auto using inst_le_refl, cache_le_refl, cache_le_insert.
Qed.

Lemma wf_Star_store s key ptr :
  let s' := mkState (heap s) (Emp_inst s) (Eps_inst s)
                    (Or_cache s) (Concat_cache s) (<[key := ptr]> (Star_cache s)) in
  wf s ->
  cached_ok s (Star key) ptr ->
  Star_cache s !! key = None ->
  wf s' /\ State_le s s'.
Proof.
  intros s' [Hh HE HP HO HC HS] Hptr Hnone. split.
  - constructor; try done.
    by apply map_Forall_insert_2.
  - constructor; simpl; auto using inst_le_refl, cache_le_refl, cache_le_insert.
Qed.

(** ** The smart constructors *)

(** What [Or::create] returns on two valid operands: the operand itself
    when both are the same instance, otherwise a pointer to an [Or] object
    over exactly these operands. *)
Lemma Or_create_spec s a b :
  wf s -> valid s a -> valid s b ->
  agree (Or_create a b) (Or_create a b) s
        (fun p s' => if decide (a = b) then p = a else cached_ok s' (Or a b) p).
Proof.
  intros Hwf Ha Hb.
  destruct a as [x|]; [|done]. destruct b as [y|]; [|done].
  unfold Or_create. destruct (decide (Some x = Some y)) as [Heq|Hne].
  { by apply agree_ret. }
  unfold agree, bind, Or_cache_find.
  destruct (Or_cache s !! mkRegexKey "Or" (Some x) (Some y)) as [second|] eqn:Hfind.
  - exists second, s. unfold ret.
    split; [done|]. split; [done|]. split; [done|]. split; [apply State_le_refl|].
    by destruct (map_Forall_lookup_1 _ _ _ _ (wf_Or s Hwf) Hfind) as [_ ?].
  - simpl.
    destruct (wf_extend s (Or (Some x) (Some y)) (Emp_inst s) (Eps_inst s))
      as [Hwf1 Hle1]; try done; try apply inst_le_refl.
    { eapply inst_ok_prefix; [|apply Hwf]. by apply prefix_app_r. }
    { eapply inst_ok_prefix; [|apply Hwf]. by apply prefix_app_r. }
    match type of Hwf1 with wf ?s1 =>
      destruct (wf_Or_store s1 (mkRegexKey "Or" (Some x) (Some y))
                            (Some (length (heap s)))) as [Hwf2 Hle2]; try done
    end.
    { simpl. by apply list_lookup_middle. }
    eexists _, _. split; [done|]. split; [done|]. split; [exact Hwf2|].
    split; [by etrans|].
    simpl. by apply list_lookup_middle.
Qed.

Lemma Concat_create_spec s a b :
  wf s -> valid s a -> valid s b ->
  agree (Concat_create a b) (Concat_create a b) s
        (fun p s' => cached_ok s' (Concat a b) p).
Proof.
  intros Hwf Ha Hb.
  destruct a as [x|]; [|done]. destruct b as [y|]; [|done].
  unfold Concat_create, agree, bind, Concat_cache_find.
  destruct (Concat_cache s !! mkRegexKey "Concat" (Some x) (Some y))
    as [second|] eqn:Hfind.
  - exists second, s. unfold ret.
    split; [done|]. split; [done|]. split; [done|]. split; [apply State_le_refl|].
    by destruct (map_Forall_lookup_1 _ _ _ _ (wf_Concat s Hwf) Hfind) as [_ ?].
  - simpl.
    destruct (wf_extend s (Concat (Some x) (Some y)) (Emp_inst s) (Eps_inst s))
      as [Hwf1 Hle1]; try done; try apply inst_le_refl.
    { eapply inst_ok_prefix; [|apply Hwf]. by apply prefix_app_r. }
    { eapply inst_ok_prefix; [|apply Hwf]. by apply prefix_app_r. }
    match type of Hwf1 with wf ?s1 =>
      destruct (wf_Concat_store s1 (mkRegexKey "Concat" (Some x) (Some y))
                                (Some (length (heap s)))) as [Hwf2 Hle2]; try done
    end.
    { simpl. by apply list_lookup_middle. }
    eexists _, _. split; [done|]. split; [done|]. split; [exact Hwf2|].
    split; [by etrans|].
    simpl. by apply list_lookup_middle.
Qed.

Lemma Star_create_spec s a :
  wf s -> valid s a ->
  agree (Star_create a) (Star_create a) s
        (fun p s' => cached_ok s' (Star a) p).
Proof.
  intros Hwf Ha.
  destruct a as [x|]; [|done].
  unfold Star_create, agree, bind, Star_cache_find.
  destruct (Star_cache s !! Some x) as [second|] eqn:Hfind.
  - exists second, s. unfold ret.
    split; [done|]. split; [done|]. split; [done|]. split; [apply State_le_refl|].
    exact (map_Forall_lookup_1 _ _ _ _ (wf_Star s Hwf) Hfind).
  - simpl.
    destruct (wf_extend s (Star (Some x)) (Emp_inst s) (Eps_inst s))
      as [Hwf1 Hle1]; try done; try apply inst_le_refl.
    { eapply inst_ok_prefix; [|apply Hwf]. by apply prefix_app_r. }
    { eapply inst_ok_prefix; [|apply Hwf]. by apply prefix_app_r. }
    match type of Hwf1 with wf ?s1 =>
      destruct (wf_Star_store s1 (Some x) (Some (length (heap s))))
        as [Hwf2 Hle2]; try done
    end.
    { simpl. by apply list_lookup_middle. }
    eexists _, _. split; [done|]. split; [done|]. split; [exact Hwf2|].
    split; [by etrans|].
    simpl. by apply list_lookup_middle.
Qed.

Lemma Emp_instance_valid s :
  wf s -> agree Emp_instance Emp_instance s (fun p s' => valid s' p).
Proof.
  intros Hwf. eapply agree_conseq; [by apply agree_Emp_instance|].
  intros p s' _ _ [_ Hp]. by eapply cached_ok_valid.
Qed.

Lemma Eps_instance_valid s :
  wf s -> agree Eps_instance Eps_instance s (fun p s' => valid s' p).
Proof.
  intros Hwf. eapply agree_conseq; [by apply agree_Eps_instance|].
  intros p s' _ _ [_ Hp]. by eapply cached_ok_valid.
Qed.

Lemma Or_create_valid s a b :
  wf s -> valid s a -> valid s b ->
  agree (Or_create a b) (Or_create a b) s (fun p s' => valid s' p).
Proof.
  intros Hwf Ha Hb. eapply agree_conseq; [by apply Or_create_spec|].
  intros p s' _ Hle Hp. cbv beta in Hp. case_decide.
  - subst. by eapply valid_le.
  - by eapply cached_ok_valid.
Qed.

Lemma Concat_create_valid s a b :
  wf s -> valid s a -> valid s b ->
  agree (Concat_create a b) (Concat_create a b) s (fun p s' => valid s' p).
Proof.
  intros Hwf Ha Hb. eapply agree_conseq; [by apply Concat_create_spec|].
  intros p s' _ _ Hp. exact (cached_ok_valid _ _ _ Hp).
Qed.

Lemma Star_create_valid s a :
  wf s -> valid s a ->
  agree (Star_create a) (Star_create a) s (fun p s' => valid s' p).
Proof.
  intros Hwf Ha. eapply agree_conseq; [by apply Star_create_spec|].
  intros p s' _ _ Hp. exact (cached_ok_valid _ _ _ Hp).
Qed.

(** ** Nullability *)

(** On a well-formed store [is_contain_eps] returns, leaves the store as
    it is, and does not depend on the fuel once the fuel exceeds the
    address. *)
Lemma is_contain_eps_fuel_ok s :
  wf s ->
  forall n a, a < n -> a < length (heap s) ->
  exists v, forall fuel, a < fuel -> is_contain_eps_fuel fuel (Some a) s = Ok v s.
Proof.
  intros Hwf. induction n as [|n IH]; intros a Hn Hlen; [lia|].
  destruct (lookup_lt_is_Some_2 (heap s) a Hlen) as [obj Hobj].
  pose proof (proj1 (heap_ok_lookup s) (wf_heap s Hwf) a obj Hobj) as Hok.
  destruct obj as [| |c_|r1 r2|r1 r2|r1]; simpl in Hok.
  - exists false. intros [|fuel] Hf; [lia|].
    cbn [is_contain_eps_fuel]. unfold bind, deref. by rewrite Hobj.
  - exists true. intros [|fuel] Hf; [lia|].
    cbn [is_contain_eps_fuel]. unfold bind, deref. by rewrite Hobj.
  - exists false. intros [|fuel] Hf; [lia|].
    cbn [is_contain_eps_fuel]. unfold bind, deref. by rewrite Hobj.
  - destruct Hok as [H1 H2].
    destruct r1 as [x|]; [|done]. destruct r2 as [y|]; [|done]. simpl in H1, H2.
    destruct (IH x) as [vx Hx]; [lia..|]. destruct (IH y) as [vy Hy]; [lia..|].
    exists (vx || vy). intros [|fuel] Hf; [lia|].
    cbn [is_contain_eps_fuel]. unfold bind, deref. rewrite Hobj.
    rewrite Hx by lia. destruct vx; [done|]. by rewrite Hy by lia.
  - destruct Hok as [H1 H2].
    destruct r1 as [x|]; [|done]. destruct r2 as [y|]; [|done]. simpl in H1, H2.
    destruct (IH x) as [vx Hx]; [lia..|]. destruct (IH y) as [vy Hy]; [lia..|].
    exists (vx && vy). intros [|fuel] Hf; [lia|].
    cbn [is_contain_eps_fuel]. unfold bind, deref. rewrite Hobj.
    rewrite Hx by lia. destruct vx; [|done]. by rewrite Hy by lia.
  - exists true. intros [|fuel] Hf; [lia|].
    cbn [is_contain_eps_fuel]. unfold bind, deref. by rewrite Hobj.
Qed.

Lemma is_contain_eps_total s p :
  wf s -> valid s p ->
  exists v, is_contain_eps p s = Ok v s
            /\ forall fuel, ptr_fuel p <= fuel -> is_contain_eps_fuel fuel p s = Ok v s.
Proof.
  intros Hwf Hp. destruct p as [a|]; [|done]. simpl in Hp.
  destruct (is_contain_eps_fuel_ok s Hwf (S a) a) as [v Hv]; [lia..|].
  exists v. split.
  - apply Hv. simpl. lia.
  - intros fuel Hf. apply Hv. simpl in Hf. lia.
Qed.

Lemma agree_is_contain_eps s p :
  wf s -> valid s p ->
  agree (is_contain_eps p) (is_contain_eps p) s (fun _ s' => s' = s).
Proof.
  intros Hwf Hp. destruct (is_contain_eps_total s p Hwf Hp) as (v & Hv & _).
  exists v, s. split; [done|]. split; [done|]. split; [done|].
  split; [apply State_le_refl|done].
Qed.

(** [is_contain_eps] is [const]: whenever it returns, the store is the
    one it started in. *)
Lemma is_contain_eps_fuel_pure fuel :
  forall p s v s', is_contain_eps_fuel fuel p s = Ok v s' -> s' = s.
Proof.
  induction fuel as [|fuel IH]; intros p s v s'; [done|].
  cbn [is_contain_eps_fuel]. unfold bind, deref.
  destruct p as [a|]; [|done]. destruct (heap s !! a) as [obj|]; [|done].
  destruct obj as [| |c_|r1 r2|r1 r2|r1]; unfold ret; try congruence.
  - destruct (is_contain_eps_fuel fuel r1 s) as [b1 s1| | |] eqn:H1; try done.
    apply IH in H1 as ->. destruct b1; [congruence|apply IH].
  - destruct (is_contain_eps_fuel fuel r1 s) as [b1 s1| | |] eqn:H1; try done.
    apply IH in H1 as ->. destruct b1; [apply IH|congruence].
Qed.

(** ** Derivative *)

Section DerivativeProperties.

Variable order : ArgOrder.

(** The method bodies agree on two ways of calling the children when
    these agree on every child of the object, in every later store. *)
Lemma derive_body_agree (call1 call2 : RegexPtr -> ascii -> M RegexPtr)
    s a obj c :
  wf s -> node_ok s a obj -> a <= length (heap s) ->
  (forall x s', x < a -> wf s' -> State_le s s' ->
     agree (call1 (Some x) c) (call2 (Some x) c) s' (fun q s' => valid s' q)) ->
  agree (derive_body order call1 obj c) (derive_body order call2 obj c)
        s (fun q s' => valid s' q).
Proof.
  intros Hwf Hok Hlen Hrec.
  destruct obj as [| |c_|r1 r2|r1 r2|r1]; simpl in Hok; cbn [derive_body].
  - by apply Emp_instance_valid.
  - by apply Emp_instance_valid.
  - destruct (Ascii.eqb c_ c);
      [by apply Eps_instance_valid | by apply Emp_instance_valid].
  - destruct Hok as [H1 H2].
    destruct r1 as [x|]; [|done]. destruct r2 as [y|]; [|done]. simpl in H1, H2.
    eapply agree_bind.
    { apply (agree_args2 order _ _ _ _ s
               (fun q s' => valid s' q) (fun q s' => valid s' q));
        [done|apply stable_valid|apply stable_valid|..];
        intros s' Hwf' Hle; by apply Hrec. }
    intros [d1 d2] s' Hwf' Hle [Hd1 Hd2]. by apply Or_create_valid.
  - destruct Hok as [H1 H2].
    destruct r1 as [x|]; [|done]. destruct r2 as [y|]; [|done]. simpl in H1, H2.
    assert (Hleft : forall s', wf s' -> State_le s s' ->
              agree (let* d1 := call1 (Some x) c in Concat_create d1 (Some y))
                    (let* d1 := call2 (Some x) c in Concat_create d1 (Some y))
                    s' (fun q s' => valid s' q)).
    { intros s' Hwf' Hle. eapply agree_bind; [by apply Hrec|].
      intros d1 s'' Hwf'' Hle' Hd1. apply Concat_create_valid; [done..|].
      apply (valid_le s); [by etrans|]. simpl. lia. }
    eapply agree_bind.
    { apply agree_is_contain_eps; [done|]. simpl. lia. }
    intros nullable s0 _ _ ->. destruct nullable.
    + eapply agree_bind.
      { apply (agree_args2 order _ _ _ _ s
                 (fun q s' => valid s' q) (fun q s' => valid s' q));
          [done|apply stable_valid|apply stable_valid|exact Hleft|].
        intros s' Hwf' Hle; by apply Hrec. }
      intros [l d2] s' Hwf' Hle [Hl Hd2]. by apply Or_create_valid.
    + apply Hleft; [done|apply State_le_refl].
  - destruct r1 as [x|]; [|done]. simpl in Hok.
    eapply agree_bind.
    { apply (agree_args2 order _ _ _ _ s
               (fun q s' => valid s' q) (fun q s' => valid s' q));
        [done|apply stable_valid|apply stable_valid|..];
        intros s' Hwf' Hle; [by apply Hrec|].
      apply Star_create_valid; [done|]. apply State_le_length in Hle. simpl. lia. }
    intros [d1 st] s' Hwf' Hle [Hd1 Hst]. by apply Concat_create_valid.
Qed.

(** On a well-formed store [derive] returns a valid pointer, keeps the
    store well formed, and does not depend on the fuel once the fuel
    exceeds the address. *)
Lemma derive_fuel_agree c :
  forall n s a fuel1 fuel2,
    wf s -> a < length (heap s) -> a < n -> a < fuel1 -> a < fuel2 ->
    agree (derive_fuel order fuel1 (Some a) c) (derive_fuel order fuel2 (Some a) c)
          s (fun q s' => valid s' q).
Proof.
  induction n as [|n IH]; intros s a fuel1 fuel2 Hwf Hlen Hn Hf1 Hf2; [lia|].
  destruct fuel1 as [|fuel1]; [lia|]. destruct fuel2 as [|fuel2]; [lia|].
  destruct (lookup_lt_is_Some_2 (heap s) a Hlen) as [obj Hobj].
  pose proof (proj1 (heap_ok_lookup s) (wf_heap s Hwf) a obj Hobj) as Hok.
  cbn [derive_fuel].
  eapply agree_bind; [by apply agree_deref|].
  intros o s0 _ _ [-> ->].
  apply (derive_body_agree _ _ s a); [done|done|lia|].
  intros x s' Hx Hwf' Hle. apply State_le_length in Hle.
  apply IH; [done|lia..].
Qed.

Lemma derive_ok s p c :
  wf s -> valid s p ->
  agree (derive order p c) (derive order p c) s (fun q s' => valid s' q).
Proof.
  intros Hwf Hp. destruct p as [a|]; [|done]. simpl in Hp.
  unfold derive, ptr_fuel. apply (derive_fuel_agree c (S a)); [done|lia..].
Qed.

Lemma derive_fuel_enough s a c fuel :
  wf s -> a < length (heap s) -> a < fuel ->
  derive_fuel order fuel (Some a) c s = derive order (Some a) c s.
Proof.
  intros Hwf Ha Hf. unfold derive, ptr_fuel.
  eapply agree_eq. apply (derive_fuel_agree c (S a)); [done|lia..].
Qed.

End DerivativeProperties.

(** ** Whatever returns, returns a later store *)

Lemma extends_ret {A} (a : A) : extends (ret a).
Proof. intros s a' s' [= _ <-]. apply State_le_refl. Qed.

Lemma extends_bind {A B} (m : M A) (k : A -> M B) :
  extends m -> (forall a, extends (k a)) -> extends (bind m k).
Proof.
  intros Hm Hk s b s'. unfold bind.
  destruct (m s) as [a s1| | |] eqn:H1; try done.
  intros H2. etrans; [by eapply Hm|by eapply Hk].
Qed.

Lemma extends_deref p : extends (deref p).
Proof.
  intros s a s'. unfold deref. destruct p as [x|]; [|done].
  destruct (heap s !! x); [|done]. intros [= _ <-]. apply State_le_refl.
Qed.

Lemma extends_Emp_instance : extends Emp_instance.
Proof.
  intros s a s'. unfold Emp_instance.
  destruct (Emp_inst s) eqn:HE; intros [= _ <-]; [apply State_le_refl|].
  constructor; simpl; auto using inst_le_refl, cache_le_refl.
  - by apply prefix_app_r.
  - by rewrite HE.
Qed.

Lemma extends_Eps_instance : extends Eps_instance.
Proof.
  intros s a s'. unfold Eps_instance.
  destruct (Eps_inst s) eqn:HE; intros [= _ <-]; [apply State_le_refl|].
  constructor; simpl; auto using inst_le_refl, cache_le_refl.
  - by apply prefix_app_r.
  - by rewrite HE.
Qed.

Lemma extends_Or_create a b : extends (Or_create a b).
Proof.
  unfold Or_create. destruct a as [x|]; [|apply extends_ret].
  destruct b as [y|]; [|apply extends_ret].
  case_decide; [apply extends_ret|].
  intros s p s'. unfold bind, Or_cache_find, alloc, Or_cache_store, ret.
  destruct (Or_cache s !! _) eqn:Hfind; intros [= _ <-]; [apply State_le_refl|].
  constructor; simpl; auto using inst_le_refl, cache_le_refl, cache_le_insert.
  by apply prefix_app_r.
Qed.

Lemma extends_Concat_create a b : extends (Concat_create a b).
Proof.
  unfold Concat_create. destruct a as [x|]; [|apply extends_ret].
  destruct b as [y|]; [|apply extends_ret].
  intros s p s'. unfold bind, Concat_cache_find, alloc, Concat_cache_store, ret.
  destruct (Concat_cache s !! _) eqn:Hfind; intros [= _ <-]; [apply State_le_refl|].
  constructor; simpl; auto using inst_le_refl, cache_le_refl, cache_le_insert.
  by apply prefix_app_r.
Qed.

Lemma extends_Star_create a : extends (Star_create a).
Proof.
  unfold Star_create. destruct a as [x|]; [|apply extends_Eps_instance].
  intros s p s'. unfold bind, Star_cache_find, alloc, Star_cache_store, ret.
  destruct (Star_cache s !! _) eqn:Hfind; intros [= _ <-]; [apply State_le_refl|].
  constructor; simpl; auto using inst_le_refl, cache_le_refl, cache_le_insert.
  by apply prefix_app_r.
Qed.

Lemma extends_is_contain_eps p : extends (is_contain_eps p).
Proof.
  intros s v s' H. apply is_contain_eps_fuel_pure in H as ->. apply State_le_refl.
Qed.

Section DerivativeExtends.

Variable order : ArgOrder.

Lemma extends_args2 {A B} (f : M A) (g : M B) :
  extends f -> extends g -> extends (args2 order f g).
Proof.
  intros Hf Hg. unfold args2. destruct order.
  - apply extends_bind; [done|]. intros a.
    apply extends_bind; [done|]. intros b. apply extends_ret.
  - apply extends_bind; [done|]. intros b.
    apply extends_bind; [done|]. intros a. apply extends_ret.
Qed.

Lemma extends_derive_body call obj c :
  (forall p, extends (call p c)) -> extends (derive_body order call obj c).
Proof.
  intros Hcall. destruct obj as [| |c_|r1 r2|r1 r2|r1]; cbn [derive_body].
  - apply extends_Emp_instance.
  - apply extends_Emp_instance.
  - destruct (Ascii.eqb c_ c);
      [apply extends_Eps_instance | apply extends_Emp_instance].
  - apply extends_bind; [by apply extends_args2|].
    intros [d1 d2]. apply extends_Or_create.
  - apply extends_bind; [apply extends_is_contain_eps|]. intros [|].
    + apply extends_bind.
      * apply extends_args2; [|done].
        apply extends_bind; [done|]. intros d1. apply extends_Concat_create.
      * intros [l d2]. apply extends_Or_create.
    + apply extends_bind; [done|]. intros d1. apply extends_Concat_create.
  - apply extends_bind.
    + apply extends_args2; [done|apply extends_Star_create].
    + intros [d1 st]. apply extends_Concat_create.
Qed.

Lemma extends_derive_fuel fuel : forall p c, extends (derive_fuel order fuel p c).
Proof.
  induction fuel as [|fuel IH]; intros p c; [done|].
  cbn [derive_fuel]. apply extends_bind; [apply extends_deref|].
  intros obj. apply extends_derive_body. intros q. apply IH.
Qed.

Lemma extends_derive p c : extends (derive order p c).
Proof. apply extends_derive_fuel. Qed.

End DerivativeExtends.

(** ** The parser keeps the store well formed *)

Lemma wf_initial_state : wf initial_state.
Proof.
  constructor; try done.
  - apply heap_ok_lookup. intros n obj Hn. done.
Qed.

Lemma partial_agree {A} (m : M A) s Q : agree m m s Q -> partial m s Q.
Proof.
  intros (a & s' & H1 & _ & Hwf & Hle & HQ) a' s'' H. rewrite H1 in H.
  by injection H as <- <-.
Qed.

Lemma partial_ret {A} (a : A) s (Q : A -> State -> Prop) :
  wf s -> Q a s -> partial (ret a) s Q.
Proof.
  intros Hwf HQ a' s' [= <- <-]. split; [done|]. split; [apply State_le_refl|done].
Qed.

Lemma partial_throw {A} what s (Q : A -> State -> Prop) : partial (throw what) s Q.
Proof. intros a s' H. done. Qed.

Lemma partial_undefined {A} s (Q : A -> State -> Prop) : partial undefined s Q.
Proof. intros a s' H. done. Qed.

Lemma partial_bind {A B} (m : M A) (k : A -> M B) s
    (Q : A -> State -> Prop) (R : B -> State -> Prop) :
  partial m s Q ->
  (forall a s', wf s' -> State_le s s' -> Q a s' -> partial (k a) s' R) ->
  partial (bind m k) s R.
Proof.
  intros Hm Hk b s''. unfold bind.
  destruct (m s) as [a s'| | |] eqn:H1; try done.
  destruct (Hm a s' H1) as (Hwf & Hle & HQ). intros H2.
  destruct (Hk a s' Hwf Hle HQ b s'' H2) as (Hwf' & Hle' & HR).
  split; [done|]. split; [by etrans|done].
Qed.

Lemma operands_ok_le s s' operands :
  State_le s s' -> operands_ok s operands -> operands_ok s' operands.
Proof.
  intros Hle Hops. eapply Forall_impl; [exact Hops|].
  intros p. by apply valid_le.
Qed.

Lemma apply_op_ok op s operands :
  wf s -> operands_ok s operands ->
  partial (apply_op op operands) s (fun r s' => operands_ok s' r).
Proof.
  intros Hwf Hops. unfold apply_op.
  destruct (Ascii.eqb op "|").
  { destruct operands as [|b [|a rest]]; try apply partial_undefined.
    apply Forall_cons in Hops as [Hb Hops]. apply Forall_cons in Hops as [Ha Hops].
    change (partial (let* r := Or_create a b in ret (r :: rest)) s
                    (fun r s' => operands_ok s' r)).
    eapply partial_bind; [apply partial_agree; by apply Or_create_valid|].
    intros r s' Hwf' Hle Hr. apply partial_ret; [done|].
    apply Forall_cons. split; [done|]. by eapply operands_ok_le. }
  destruct (Ascii.eqb op ".").
  { destruct operands as [|b [|a rest]]; try apply partial_undefined.
    apply Forall_cons in Hops as [Hb Hops]. apply Forall_cons in Hops as [Ha Hops].
    change (partial (let* r := Concat_create a b in ret (r :: rest)) s
                    (fun r s' => operands_ok s' r)).
    eapply partial_bind; [apply partial_agree; by apply Concat_create_valid|].
    intros r s' Hwf' Hle Hr. apply partial_ret; [done|].
    apply Forall_cons. split; [done|]. by eapply operands_ok_le. }
  by apply partial_ret.
Qed.

Lemma process_stack_ok op ops0 :
  forall s operands,
    wf s -> operands_ok s operands ->
    partial (process_stack op ops0 operands) s (fun r s' => operands_ok s' r.2).
Proof.
  induction ops0 as [|top_op ops0 IH]; intros s operands Hwf Hops;
    cbn [process_stack].
  - by apply partial_ret.
  - destruct (precedence top_op >=? precedence op)%Z; [|by apply partial_ret].
    eapply partial_bind; [by apply apply_op_ok|].
    intros r s' Hwf' _ Hr. by apply IH.
Qed.

Lemma close_paren_loop_ok ops0 :
  forall s operands,
    wf s -> operands_ok s operands ->
    partial (close_paren_loop ops0 operands) s (fun r s' => operands_ok s' r.2).
Proof.
  induction ops0 as [|top_op ops0 IH]; intros s operands Hwf Hops;
    cbn [close_paren_loop].
  - by apply partial_ret.
  - destruct (Ascii.eqb top_op "("); [by apply partial_ret|].
    eapply partial_bind; [by apply apply_op_ok|].
    intros r s' Hwf' _ Hr. by apply IH.
Qed.

Lemma flush_loop_ok ops0 :
  forall s operands,
    wf s -> operands_ok s operands ->
    partial (flush_loop ops0 operands) s (fun r s' => operands_ok s' r).
Proof.
  induction ops0 as [|top_op ops0 IH]; intros s operands Hwf Hops;
    cbn [flush_loop].
  - by apply partial_ret.
  - destruct (Ascii.eqb top_op "(" || Ascii.eqb top_op ")");
      [apply partial_throw|].
    eapply partial_bind; [by apply apply_op_ok|].
    intros r s' Hwf' _ Hr. by apply IH.
Qed.

Lemma top_ok s (stack : list RegexPtr) :
  wf s -> operands_ok s stack ->
  partial (top stack) s (fun p s' => valid s' p /\ operands_ok s' stack).
Proof.
  intros Hwf Hops. destruct stack as [|x rest]; [apply partial_undefined|].
  apply partial_ret; [done|]. split; [|done]. by apply Forall_cons in Hops as [? _].
Qed.

Lemma locals_ok_intro s operands0 ops0 p :
  operands_ok s operands0 -> valid s p ->
  locals_ok s (mkLocals operands0 ops0 p).
Proof. intros Hops Hp. split; [done|]. simpl. by destruct p. Qed.

Lemma partial_bind_ret {A B} (a : A) (k : A -> M B) s (R : B -> State -> Prop) :
  partial (k a) s R -> partial (bind (ret a) k) s R.
Proof. done. Qed.

Lemma dispatch_ok c s l :
  wf s -> locals_ok s l ->
  partial (dispatch c l) s (fun l' s' => locals_ok s' l').
Proof.
  intros Hwf [Hops Hprev]. unfold dispatch.
  destruct (Ascii.eqb c "(").
  { by apply partial_ret. }
  destruct (Ascii.eqb c ")").
  { eapply partial_bind; [by apply close_paren_loop_ok|].
    intros [ops1 operands1] s1 Hwf1 _ Hops1. simpl in Hops1.
    destruct ops1 as [|? ops2]; [apply partial_throw|].
    eapply partial_bind; [by apply top_ok|].
    intros prev1 s2 Hwf2 _ [Hp Hops2]. apply partial_ret; [done|].
    by apply locals_ok_intro. }
  destruct (Ascii.eqb c "*" || Ascii.eqb c "+" || Ascii.eqb c "?").
  { destruct (prev l) as [a|] eqn:Hpl; [|apply partial_throw].
    destruct (operands l) as [|x operands1]; [apply partial_undefined|].
    apply Forall_cons in Hops as [_ Hops].
    change (pop (x :: operands1)) with (ret (A:=list RegexPtr) operands1).
    apply partial_bind_ret.
    eapply partial_bind with (Q := fun r s' => operands_ok s' r).
    2: { intros operands2 s2 Hwf2 _ Hops2.
         eapply partial_bind; [by apply top_ok|].
         intros prev1 s3 Hwf3 _ [Hp Hops3]. apply partial_ret; [done|].
         by apply locals_ok_intro. }
    destruct (Ascii.eqb c "*").
    { eapply partial_bind; [apply partial_agree; by apply Star_create_valid|].
      intros r s1 Hwf1 Hle1 Hr. apply partial_ret; [done|].
      apply Forall_cons. split; [done|]. by eapply operands_ok_le. }
    destruct (Ascii.eqb c "+").
    { eapply partial_bind; [apply partial_agree; by apply Star_create_valid|].
      intros st s1 Hwf1 Hle1 Hst.
      eapply partial_bind.
      { apply partial_agree. apply Concat_create_valid; [done| |done].
        by apply (valid_le s). }
      intros r s2 Hwf2 Hle2 Hr. apply partial_ret; [done|].
      apply Forall_cons. split; [done|].
      apply (operands_ok_le s); [by etrans|done]. }
    destruct (Ascii.eqb c "?"); [|by apply partial_ret].
    eapply partial_bind; [apply partial_agree; by apply Eps_instance_valid|].
    intros e s1 Hwf1 Hle1 He.
    eapply partial_bind.
    { apply partial_agree. apply Or_create_valid; [done|done|].
      by apply (valid_le s). }
    intros r s2 Hwf2 Hle2 Hr. apply partial_ret; [done|].
    apply Forall_cons. split; [done|].
    apply (operands_ok_le s); [by etrans|done]. }
  destruct (Ascii.eqb c "|").
  { eapply partial_bind; [by apply process_stack_ok|].
    intros [ops1 operands1] s1 Hwf1 _ Hops1. by apply partial_ret. }
  eapply partial_bind.
  { apply partial_agree. by apply (agree_alloc s (Char c)). }
  intros r s1 Hwf1 Hle1 [-> Hr]. apply cached_ok_valid in Hr.
  eapply partial_bind with (Q := fun r s' => operands_ok s' r.2).
  { destruct (prev l) as [a|].
    - eapply partial_bind.
      + apply process_stack_ok; [done|]. by eapply operands_ok_le.
      + intros [ops1 operands1] s2 Hwf2 _ Hops2. by apply partial_ret.
    - apply partial_ret; [done|]. by eapply operands_ok_le. }
  intros [ops1 operands1] s2 Hwf2 Hle2 Hops2. apply partial_ret; [done|].
  apply locals_ok_intro.
  - apply Forall_cons. split; [|done]. by apply (valid_le s1).
  - by apply (valid_le s1).
Qed.

Lemma parse_loop_ok pattern :
  forall s l,
    wf s -> locals_ok s l ->
    partial (parse_loop pattern l) s (fun l' s' => locals_ok s' l').
Proof.
  assert (H : forall n pattern, String.length pattern <= n ->
            forall s l, wf s -> locals_ok s l ->
              partial (parse_loop pattern l) s (fun l' s' => locals_ok s' l')).
  { clear pattern. induction n as [|n IH]; intros pattern Hn s l Hwf Hl.
    - destruct pattern; [|simpl in Hn; lia]. by apply partial_ret.
    - destruct pattern as [|c rest]; [by apply partial_ret|].
      simpl in Hn. cbn [parse_loop]. destruct (Ascii.eqb c "\").
      + destruct rest as [|c' rest']; [apply partial_throw|].
        simpl in Hn.
        eapply partial_bind; [by apply dispatch_ok|].
        intros l' s' Hwf' _ Hl'. apply IH; [lia|done..].
      + eapply partial_bind; [by apply dispatch_ok|].
        intros l' s' Hwf' _ Hl'. apply IH; [lia|done..]. }
  by apply (H (String.length pattern)).
Qed.

(** Every store the parser returns is well formed, and the root it
    returns is a valid pointer: the hypotheses of the theorems on [derive],
    [is_contain_eps] and [is_match] hold of everything [parse_regex]
    produces. *)
Lemma parse_regex_ok pattern s :
  wf s ->
  partial (parse_regex pattern) s (fun root s' => valid s' root).
Proof.
  intros Hwf. unfold parse_regex.
  eapply partial_bind.
  { apply parse_loop_ok; [done|]. split; [by apply Forall_nil|done]. }
  intros l s1 Hwf1 _ [Hops _].
  eapply partial_bind; [by apply flush_loop_ok|].
  intros operands1 s2 Hwf2 _ Hops2.
  case_decide; [|apply partial_throw].
  destruct operands1 as [|root rest]; [apply partial_undefined|].
  apply partial_ret; [done|]. by apply Forall_cons in Hops2 as [? _].
Qed.

(** ** The matcher returns *)

Lemma bind_assoc {A B C} (m : M A) (f : A -> M B) (g : B -> M C) s :
  bind (bind m f) g s = bind m (fun a => bind (f a) g) s.
Proof. unfold bind. by destruct (m s). Qed.

Lemma bind_ret_l {A B} (a : A) (k : A -> M B) s : bind (ret a) k s = k a s.
Proof. done. Qed.

(** The loop of [is_match] is the left fold of the specification. *)
Lemma is_match_loop_fold order text :
  forall (working : M RegexPtr) s,
    fold_left (fun working c => let* node := working in derive order node c)
              (list_ascii_of_string text) working s
    = (let* node := working in is_match_loop order node text) s.
Proof.
  induction text as [|c text IH]; intros working s; simpl.
  - unfold bind, ret. by destruct (working s).
  - rewrite IH. apply bind_assoc.
Qed.

Lemma derive_all_is_match_loop order root text s :
  derive_all order root text s = is_match_loop order root text s.
Proof. unfold derive_all. by rewrite is_match_loop_fold, bind_ret_l. Qed.

Lemma is_match_loop_ok order text :
  forall s root,
    wf s -> valid s root ->
    agree (is_match_loop order root text) (is_match_loop order root text) s
          (fun q s' => valid s' q).
Proof.
  induction text as [|c text IH]; intros s root Hwf Hroot; cbn [is_match_loop].
  - by apply agree_ret.
  - eapply agree_bind; [by apply derive_ok|].
    intros q s' Hwf' _ Hq. by apply IH.
Qed.

(** Matching after a successful parse always returns: no null pointer is
    dereferenced and the recursion bound of the embedding is never hit. *)
Lemma is_match_after_parse order pattern text root s :
  parse_regex pattern initial_state = Ok root s ->
  exists v s', is_match order root text s = Ok v s' /\ wf s'.
Proof.
  intros Hparse.
  destruct (parse_regex_ok pattern initial_state wf_initial_state root s Hparse)
    as (Hwf & _ & Hroot).
  destruct (is_match_loop_ok order text s root Hwf Hroot)
    as (final & s' & H1 & _ & Hwf' & _ & Hfinal).
  destruct (is_contain_eps_total s' final Hwf' Hfinal) as (v & Hv & _).
  exists v, s'. split; [|done]. unfold is_match, bind. by rewrite H1.
Qed.

(** * The claims *)

(** C5: on a well-formed store, nullability of the object at [a] is
    computed from its class alone: [Emp] gives false, [Eps] true, a [Char]
    false, [Or] the disjunction and [Concat] the conjunction of the
    nullability of the two children, [Star] true; the call returns and
    leaves the store as it is. *)
Theorem is_contain_eps_structural s a obj :
  wf s -> heap s !! a = Some obj ->
  match obj with
  | Emp => is_contain_eps (Some a) s = Ok false s
  | Eps => is_contain_eps (Some a) s = Ok true s
  | Char _ => is_contain_eps (Some a) s = Ok false s
  | Or r1 r2 =>
      exists v1 v2,
        is_contain_eps r1 s = Ok v1 s /\ is_contain_eps r2 s = Ok v2 s
        /\ is_contain_eps (Some a) s = Ok (v1 || v2) s
  | Concat r1 r2 =>
      exists v1 v2,
        is_contain_eps r1 s = Ok v1 s /\ is_contain_eps r2 s = Ok v2 s
        /\ is_contain_eps (Some a) s = Ok (v1 && v2) s
  | Star _ => is_contain_eps (Some a) s = Ok true s
  end.
Proof.
  intros Hwf Hobj.
  pose proof (proj1 (heap_ok_lookup s) (wf_heap s Hwf) a obj Hobj) as Hok.
  assert (Hunfold : forall k : Regex -> M bool,
            (let* o := deref (Some a) in k o) s = k obj s).
  { intros k. unfold bind, deref. by rewrite Hobj. }
  unfold is_contain_eps at 1. cbn [ptr_fuel is_contain_eps_fuel].
  destruct obj as [| |c_|r1 r2|r1 r2|r1]; simpl in Hok;
    try (unfold is_contain_eps; cbn [ptr_fuel is_contain_eps_fuel];
         by rewrite Hunfold).
  - destruct Hok as [H1 H2].
    assert (Hv1 : valid s r1) by (eapply below_mono; [done|]; apply lookup_lt_Some in Hobj; lia).
    assert (Hv2 : valid s r2) by (eapply below_mono; [done|]; apply lookup_lt_Some in Hobj; lia).
    destruct (is_contain_eps_total s r1 Hwf Hv1) as (v1 & E1 & F1).
    destruct (is_contain_eps_total s r2 Hwf Hv2) as (v2 & E2 & F2).
    exists v1, v2. split; [done|]. split; [done|].
    unfold is_contain_eps. cbn [ptr_fuel is_contain_eps_fuel]. rewrite Hunfold.
    unfold bind. rewrite F1 by (destruct r1; simpl in *; lia).
    destruct v1; [done|]. simpl. apply F2. destruct r2; simpl in *; lia.
  - destruct Hok as [H1 H2].
    assert (Hv1 : valid s r1) by (eapply below_mono; [done|]; apply lookup_lt_Some in Hobj; lia).
    assert (Hv2 : valid s r2) by (eapply below_mono; [done|]; apply lookup_lt_Some in Hobj; lia).
    destruct (is_contain_eps_total s r1 Hwf Hv1) as (v1 & E1 & F1).
    destruct (is_contain_eps_total s r2 Hwf Hv2) as (v2 & E2 & F2).
    exists v1, v2. split; [done|]. split; [done|].
    unfold is_contain_eps. cbn [ptr_fuel is_contain_eps_fuel]. rewrite Hunfold.
    unfold bind. rewrite F1 by (destruct r1; simpl in *; lia).
    destruct v1; [|done]. simpl. apply F2. destruct r2; simpl in *; lia.
Qed.

Lemma is_contain_eps_structural_witness :
  wf ab_star_store
  /\ ab_star_store.(heap) !! 3 = Some (Concat (Some 0) (Some 2))
  /\ exists v1 v2,
       is_contain_eps (Some 0) ab_star_store = Ok v1 ab_star_store
       /\ is_contain_eps (Some 2) ab_star_store = Ok v2 ab_star_store
       /\ is_contain_eps (Some 3) ab_star_store = Ok (v1 && v2) ab_star_store.
Proof.
  assert (Hwf : wf ab_star_store)
    by (apply (bool_decide_unpack _); vm_compute; exact I).
  assert (Hobj : ab_star_store.(heap) !! 3 = Some (Concat (Some 0) (Some 2)))
    by reflexivity.
  split; [exact Hwf|]. split; [exact Hobj|].
  exact (is_contain_eps_structural ab_star_store 3 _ Hwf Hobj).
Defined.

(** C3: on a well-formed store, the derivative of the object at [a]
    follows the Brzozowski rule of its class, with every result built by
    the smart constructors and every child derived by a virtual call:
    [Emp] and [Eps] give the [Emp] singleton; [Char x] gives the [Eps]
    singleton when [x] is the symbol and the [Emp] singleton otherwise;
    [Or r1 r2] gives [Or::create] of the two derivatives; [Concat r1 r2]
    gives [Or::create(Concat::create(r1', r2), r2')] when [r1] is nullable
    and [Concat::create(r1', r2)] otherwise; [Star r1] gives
    [Concat::create(r1', Star::create(r1))].  The call returns a valid
    pointer in a well-formed later store. *)
Theorem derive_rules order s a obj c :
  wf s -> heap s !! a = Some obj ->
  derive order (Some a) c s =
    match obj with
    | Emp => Emp_instance s
    | Eps => Emp_instance s
    | Char x => if Ascii.eqb x c then Eps_instance s else Emp_instance s
    | Or r1 r2 =>
        (let* '(d1, d2) := args2 order (derive order r1 c) (derive order r2 c) in
         Or_create d1 d2) s
    | Concat r1 r2 =>
        (let* nullable := is_contain_eps r1 in
         if nullable then
           let* '(l, d2) :=
             args2 order (let* d1 := derive order r1 c in Concat_create d1 r2)
                         (derive order r2 c) in
           Or_create l d2
         else
           let* d1 := derive order r1 c in
           Concat_create d1 r2) s
    | Star r1 =>
        (let* '(d1, st) := args2 order (derive order r1 c) (Star_create r1) in
         Concat_create d1 st) s
    end
  /\ exists q s',
       derive order (Some a) c s = Ok q s' /\ valid s' q /\ wf s' /\ State_le s s'.
Proof.
  intros Hwf Hobj.
  pose proof (proj1 (heap_ok_lookup s) (wf_heap s Hwf) a obj Hobj) as Hok.
  pose proof (lookup_lt_Some _ _ _ Hobj) as Hlen.
  split.
  - transitivity (derive_body order (derive order) obj c s).
    2: { destruct obj as [| |x|r1 r2|r1 r2|r1]; cbn [derive_body]; try done.
         by destruct (Ascii.eqb x c). }
    unfold derive at 1. cbn [ptr_fuel derive_fuel].
    unfold bind at 1, deref. rewrite Hobj. cbv beta iota.
    eapply agree_eq. apply (derive_body_agree order _ _ s a); [done|done|lia|].
    intros x s' Hx Hwf' Hle. apply State_le_length in Hle.
    unfold derive, ptr_fuel. apply (derive_fuel_agree order c (S x)); [done|lia..].
  - destruct (derive_ok order s (Some a) c Hwf) as (q & s' & H1 & _ & Hwf' & Hle & Hq).
    { simpl. lia. }
    exists q, s'. auto.
Qed.

Lemma derive_rules_witness :
  wf ab_star_store
  /\ ab_star_store.(heap) !! 2 = Some (Star (Some 1))
  /\ derive LeftToRight (Some 2) "b" ab_star_store =
       (let* '(d1, st) := args2 LeftToRight (derive LeftToRight (Some 1) "b")
                                      (Star_create (Some 1)) in
        Concat_create d1 st) ab_star_store
  /\ exists q s',
       derive LeftToRight (Some 2) "b" ab_star_store = Ok q s'
       /\ valid s' q /\ wf s' /\ State_le ab_star_store s'.
Proof.
  assert (Hwf : wf ab_star_store)
    by (apply (bool_decide_unpack _); vm_compute; exact I).
  assert (Hobj : ab_star_store.(heap) !! 2 = Some (Star (Some 1)))
    by reflexivity.
  split; [exact Hwf|]. split; [exact Hobj|].
  exact (derive_rules LeftToRight ab_star_store 2 _ "b"%char Hwf Hobj).
Defined.

(** ** Matcher *)

(** C4: [is_match] derives the working node by each symbol of the text
    from left to right and returns the nullability of the last node; on a
    well-formed store and a valid root it returns; on the empty text it is
    the nullability of the root, with the store untouched. *)
Theorem is_match_spec order s root text :
  wf s -> valid s root ->
  is_match order root text s
    = (let* final := derive_all order root text in is_contain_eps final) s
  /\ (exists final s' v,
        derive_all order root text s = Ok final s'
        /\ is_contain_eps final s' = Ok v s'
        /\ is_match order root text s = Ok v s'
        /\ wf s' /\ State_le s s')
  /\ is_match order root "" s = is_contain_eps root s
  /\ exists v, is_match order root "" s = Ok v s.
Proof.
  intros Hwf Hroot.
  assert (Heq : is_match order root text s
                = (let* final := derive_all order root text in
                   is_contain_eps final) s).
  { unfold is_match, bind. by rewrite derive_all_is_match_loop. }
  split; [exact Heq|]. split; [|split; [done|]].
  - destruct (is_match_loop_ok order text s root Hwf Hroot)
      as (final & s' & H1 & _ & Hwf' & Hle & Hfinal).
    destruct (is_contain_eps_total s' final Hwf' Hfinal) as (v & Hv & _).
    exists final, s', v. rewrite derive_all_is_match_loop.
    split; [done|]. split; [done|]. split; [|done].
    unfold is_match, bind. by rewrite H1.
  - destruct (is_contain_eps_total s root Hwf Hroot) as (v & Hv & _).
    by exists v.
Qed.

Lemma is_match_spec_witness :
  wf ab_star_store /\ valid ab_star_store (Some 3)
  /\ is_match LeftToRight (Some 3) "abbb" ab_star_store
     = (let* final := derive_all LeftToRight (Some 3) "abbb" in
        is_contain_eps final) ab_star_store
  /\ (exists final s' v,
        derive_all LeftToRight (Some 3) "abbb" ab_star_store = Ok final s'
        /\ is_contain_eps final s' = Ok v s'
        /\ is_match LeftToRight (Some 3) "abbb" ab_star_store = Ok v s'
        /\ wf s' /\ State_le ab_star_store s')
  /\ is_match LeftToRight (Some 3) "" ab_star_store
     = is_contain_eps (Some 3) ab_star_store
  /\ exists v, is_match LeftToRight (Some 3) "" ab_star_store = Ok v ab_star_store.
Proof.
  assert (Hwf : wf ab_star_store)
    by (apply (bool_decide_unpack _); vm_compute; exact I).
  assert (Hroot : valid ab_star_store (Some 3))
    by (apply (bool_decide_unpack _); vm_compute; exact I).
  split; [exact Hwf|]. split; [exact Hroot|].
  exact (is_match_spec LeftToRight ab_star_store (Some 3) "abbb" Hwf Hroot).
Defined.

(** ** Smart constructors *)

(** C8: [Or::create(a, a)] on one and the same instance returns [a];
    [Concat::create(nullptr, b)] returns [b] and [Concat::create(a, nullptr)]
    returns [a]; none of the three touches the store.
    [Star::create(nullptr)] is [Eps::instance()]: it returns the singleton,
    which on a well-formed store is an [Eps] object. *)
Theorem create_identity_laws s a b :
  Or_create a a s = Ok a s
  /\ Concat_create None b s = Ok b s
  /\ Concat_create a None s = Ok a s
  /\ Star_create None s = Eps_instance s
  /\ (exists e s', Star_create None s = Ok (Some e) s' /\ Eps_inst s' = Some e)
  /\ (wf s ->
      exists e s', Star_create None s = Ok (Some e) s'
                   /\ heap s' !! e = Some Eps /\ wf s').
Proof.
  split; [|split; [|split; [|split; [|split]]]].
  - unfold Or_create. destruct a as [x|]; [|done]. by rewrite decide_True.
  - done.
  - by destruct a.
  - done.
  - cbn [Star_create]. unfold Eps_instance.
    destruct (Eps_inst s) as [e|] eqn:HE; eauto.
  - intros Hwf. cbn [Star_create].
    destruct (agree_Eps_instance s Hwf) as (p & s' & H1 & _ & Hwf' & _ & _ & Hp).
    destruct p as [e|]; [|done]. by exists e, s'.
Qed.

Lemma create_identity_laws_witness :
  Or_create (Some 0) (Some 0) ab_star_store = Ok (Some 0) ab_star_store
  /\ Concat_create None (Some 1) ab_star_store = Ok (Some 1) ab_star_store
  /\ Concat_create (Some 0) None ab_star_store = Ok (Some 0) ab_star_store
  /\ exists e s', Star_create None ab_star_store = Ok (Some e) s'
                  /\ heap s' !! e = Some Eps /\ wf s'.
Proof.
  destruct (create_identity_laws ab_star_store (Some 0) (Some 1))
    as (H1 & H2 & H3 & _ & _ & H6).
  split; [exact H1|]. split; [exact H2|]. split; [exact H3|].
  apply H6. apply (bool_decide_unpack _). vm_compute. exact I.
Defined.

(** A cache that holds an entry for the key answers with it. *)
Lemma Or_create_hit x y p s :
  x <> y -> Or_cache s !! mkRegexKey "Or" (Some x) (Some y) = Some p ->
  Or_create (Some x) (Some y) s = Ok p s.
Proof.
  intros Hne Hfind. unfold Or_create. rewrite decide_False by congruence.
  unfold bind, Or_cache_find. by rewrite Hfind.
Qed.

Lemma Concat_create_hit x y p s :
  Concat_cache s !! mkRegexKey "Concat" (Some x) (Some y) = Some p ->
  Concat_create (Some x) (Some y) s = Ok p s.
Proof.
  intros Hfind. unfold Concat_create, bind, Concat_cache_find. by rewrite Hfind.
Qed.

Lemma Star_create_hit x p s :
  Star_cache s !! Some x = Some p -> Star_create (Some x) s = Ok p s.
Proof.
  intros Hfind. unfold Star_create, bind, Star_cache_find. by rewrite Hfind.
Qed.

(** After a call on two distinct operands the cache holds the result. *)
Lemma Or_create_caches x y p s s1 :
  x <> y -> Or_create (Some x) (Some y) s = Ok p s1 ->
  Or_cache s1 !! mkRegexKey "Or" (Some x) (Some y) = Some p.
Proof.
  intros Hne. unfold Or_create. rewrite decide_False by congruence.
  unfold bind, Or_cache_find, alloc, Or_cache_store, ret.
  destruct (Or_cache s !! _) eqn:Hfind; intros [= <- <-]; [done|].
  simpl. apply lookup_insert_eq.
Qed.

Lemma Concat_create_caches x y p s s1 :
  Concat_create (Some x) (Some y) s = Ok p s1 ->
  Concat_cache s1 !! mkRegexKey "Concat" (Some x) (Some y) = Some p.
Proof.
  unfold Concat_create, bind, Concat_cache_find, alloc, Concat_cache_store, ret.
  destruct (Concat_cache s !! _) eqn:Hfind; intros [= <- <-]; [done|].
  simpl. apply lookup_insert_eq.
Qed.

Lemma Star_create_caches x p s s1 :
  Star_create (Some x) s = Ok p s1 -> Star_cache s1 !! Some x = Some p.
Proof.
  unfold Star_create, bind, Star_cache_find, alloc, Star_cache_store, ret.
  destruct (Star_cache s !! _) eqn:Hfind; intros [= <- <-]; [done|].
  simpl. apply lookup_insert_eq.
Qed.

Lemma Or_create_again a b s p s1 s2 :
  State_le s1 s2 -> Or_create a b s = Ok p s1 -> Or_create a b s2 = Ok p s2.
Proof.
  intros Hle. destruct a as [x|]; [|by intros [= <- <-]].
  destruct b as [y|]; [|by intros [= <- <-]].
  destruct (decide (x = y)) as [->|Hne].
  - unfold Or_create. rewrite decide_True by done. by intros [= <- <-].
  - intros H. apply Or_create_hit; [done|].
    apply (le_Or _ _ Hle). by eapply Or_create_caches.
Qed.

Lemma Concat_create_again a b s p s1 s2 :
  State_le s1 s2 -> Concat_create a b s = Ok p s1 -> Concat_create a b s2 = Ok p s2.
Proof.
  intros Hle. destruct a as [x|]; [|by intros [= <- <-]].
  destruct b as [y|]; [|by intros [= <- <-]].
  intros H. apply Concat_create_hit.
  apply (le_Concat _ _ Hle). by eapply Concat_create_caches.
Qed.

Lemma Star_create_again a s p s1 s2 :
  State_le s1 s2 -> Star_create a s = Ok p s1 -> Star_create a s2 = Ok p s2.
Proof.
  intros Hle. destruct a as [x|].
  - intros H. apply Star_create_hit.
    apply (le_Star _ _ Hle). by eapply Star_create_caches.
  - cbn [Star_create]. unfold Eps_instance. intros H.
    assert (HE : Eps_inst s1 = p /\ is_Some p).
    { destruct (Eps_inst s) eqn:HE; injection H as <- <-; eauto. }
    destruct HE as [HE [e ->]]. pose proof (le_Eps _ _ Hle) as Hi.
    rewrite HE in Hi. simpl in Hi. by rewrite Hi.
Qed.

(** C9: the smart constructors are interned by the identity of their
    operands: once [Or::create(a, b)] has returned [p], the same call in
    any later store returns [p] again and leaves that store as it is;
    likewise [Concat::create(a, b)] and [Star::create(a)]; in particular
    [Star::create(a)] after a derivation step returns the same node. *)
Theorem create_interned a b s p s1 s2 :
  State_le s1 s2 ->
  (Or_create a b s = Ok p s1 -> Or_create a b s2 = Ok p s2)
  /\ (Concat_create a b s = Ok p s1 -> Concat_create a b s2 = Ok p s2)
  /\ (Star_create a s = Ok p s1 -> Star_create a s2 = Ok p s2)
  /\ (forall order r c q s3,
        Star_create a s = Ok p s1 -> derive order r c s2 = Ok q s3 ->
        Star_create a s3 = Ok p s3).
Proof.
  intros Hle. split; [|split; [|split]].
  - by apply Or_create_again.
  - by apply Concat_create_again.
  - by apply Star_create_again.
  - intros order r c q s3 H Hd. eapply Star_create_again; [|exact H].
    etrans; [exact Hle|]. by eapply extends_derive.
Qed.

Lemma create_interned_witness :
  State_le interned_store derived_store
  /\ Or_create (Some 0) (Some 1) ab_star_store = Ok (Some 4) interned_store
  /\ Or_create (Some 0) (Some 1) derived_store = Ok (Some 4) derived_store.
Proof.
  assert (Hle : State_le interned_store derived_store)
    by (apply (bool_decide_unpack _); vm_compute; exact I).
  assert (H1 : Or_create (Some 0) (Some 1) ab_star_store
               = Ok (Some 4) interned_store)
    by (vm_compute; reflexivity).
  split; [exact Hle|]. split; [exact H1|].
  exact (proj1 (create_interned (Some 0) (Some 1) ab_star_store (Some 4)
                                interned_store derived_store Hle) H1).
Defined.

(** ** End to end *)

(** C10: in a fresh process, whatever the order of argument evaluation:
    [ab*] matches [a] and [abbb] and does not match [b]; [(a|b)+] does not
    match the empty text and matches [aabba]. *)
Theorem concrete_scenarios order :
  result_of (run order "ab*" "a") = Some true
  /\ result_of (run order "ab*" "abbb") = Some true
  /\ result_of (run order "ab*" "b") = Some false
  /\ result_of (run order "(a|b)+" "") = Some false
  /\ result_of (run order "(a|b)+" "aabba") = Some true.
Proof. destruct order; vm_compute; auto. Qed.

(** ** Where the parser departs from its specification *)

(** A backslash only skips itself: the character after it goes through
    the same chain of [if]s as an unescaped one. *)
Lemma escape_is_transparent c rest l s :
  c <> "\"%char ->
  parse_loop (String "\" (String c rest)) l s = parse_loop (String c rest) l s.
Proof.
  intros Hc. cbn [parse_loop]. rewrite Ascii.eqb_refl.
  destruct (Ascii.eqb_spec c "\"%char) as [->|_]; done.
Qed.

(** C1 (the code departs from the claim): an escaped parenthesis is parsed
    as a grouping parenthesis, not as a literal.  [\(a\)] parses to the
    very result of [(a)], a single [Char 'a']; it does not match the text
    [(a)] and it matches [a]. *)
Theorem escaped_paren_is_grouping order :
  parse_regex "\(a\)" initial_state = parse_regex "(a)" initial_state
  /\ parse_regex "\(a\)" initial_state
     = Ok (Some 0) (mkState [Char "a"] None None ∅ ∅ ∅)
  /\ result_of (run order "\(a\)" "(a)") = Some false
  /\ result_of (run order "\(a\)" "a") = Some true.
Proof. destruct order; vm_compute; auto. Qed.

(** C2 (the code departs from the claim): an operand directly followed by
    an opening parenthesis is not concatenated with the group: no ['.'] is
    pushed at ['('], two operands are left at the end and [a(b)] is
    rejected as "Invalid regex".  The literal branch does insert the
    operator, so [(a)b] parses and matches [ab]. *)
Theorem operand_then_paren_rejected order :
  parse_regex "a(b)" initial_state
    = Throw "Invalid regex" (mkState [Char "a"; Char "b"] None None ∅ ∅ ∅)
  /\ result_of (run order "a(b)" "ab") = None
  /\ result_of (run order "(a)b" "ab") = Some true.
Proof. destruct order; vm_compute; auto. Qed.

(** C6 (the code departs from the claim): on [a|] and on [|a] the final
    loop applies ['|'] with a single operand on the stack; the second
    [operands.top()] is undefined behaviour, no exception is thrown.  The
    empty pattern does throw "Invalid regex". *)
Theorem dangling_alternation_not_an_error :
  parse_regex "a|" initial_state = Undefined
  /\ parse_regex "|a" initial_state = Undefined
  /\ parse_regex "" initial_state = Throw "Invalid regex" initial_state.
Proof. vm_compute; auto. Qed.

(** C7 (the code departs from the claim): the operand stack is read while
    empty.  [apply_op] takes its two operands without checking that they
    are there, and the [')'] branch reads [operands.top()] right after the
    ['('] was popped; [()], [a|] and [|a] all reach such an access. *)
Theorem operand_stack_underflow s a ops0 :
  apply_op "|" [] s = Undefined
  /\ apply_op "|" [a] s = Undefined
  /\ apply_op "." [a] s = Undefined
  /\ dispatch ")" (mkLocals [] ("("%char :: ops0) None) s = Undefined
  /\ parse_regex "()" initial_state = Undefined
  /\ parse_regex "a|" initial_state = Undefined
  /\ parse_regex "|a" initial_state = Undefined.
Proof. repeat split; reflexivity. Qed.

(** * Further properties *)

Local Open Scope list_scope.

(** ** Languages and the growing store *)

Lemma lang_prefix h h' p w :
  h `prefix_of` h' -> lang h p w -> lang h' p w.
Proof.
  intros Hpre H. induction H;
    eauto using lang, prefix_lookup_Some.
Qed.

Lemma lang_restrict s s' p w :
  wf s' -> State_le s s' -> valid s p ->
  lang (heap s') p w -> lang (heap s) p w.
Proof.
  intros Hwf Hle Hp H. revert Hp.
  assert (Hlook : forall a obj, a < length (heap s) ->
            heap s' !! a = Some obj ->
            heap s !! a = Some obj /\ node_ok s' a obj).
  { intros a obj Ha Hobj. split; [|by apply heap_ok_lookup; [apply Hwf|]].
    destruct (lookup_lt_is_Some_2 _ _ Ha) as [obj' Hobj'].
    rewrite (prefix_lookup_Some _ _ _ _ Hobj' (le_heap _ _ Hle)) in Hobj.
    congruence. }
  induction H as [a Ha|a c Ha|a r1 r2 w Ha H IH|a r1 r2 w Ha H IH
                 |a r1 r2 w1 w2 Ha H1 IH1 H2 IH2|a r1 Ha
                 |a r1 w1 w2 Ha H1 IH1 H2 IH2];
    intros Hp; simpl in Hp; destruct (Hlook _ _ Hp Ha) as [Hobj Hok];
    simpl in Hok.
  - by apply lang_Eps.
  - by apply lang_Char.
  - eapply lang_Or_l; [done|]. apply IH. eapply below_mono; [apply Hok|lia].
  - eapply lang_Or_r; [done|]. apply IH. eapply below_mono; [apply Hok|lia].
  - eapply lang_Concat; [done|..].
    + apply IH1. eapply below_mono; [apply Hok|lia].
    + apply IH2. eapply below_mono; [apply Hok|lia].
  - by eapply lang_Star_nil.
  - eapply lang_Star_app; [done|..].
    + apply IH1. eapply below_mono; [apply Hok|lia].
    + by apply IH2.
Qed.

Lemma lang_le_iff s s' p w :
  wf s' -> State_le s s' -> valid s p ->
  lang (heap s') p w <-> lang (heap s) p w.
Proof.
  intros Hwf Hle Hp. split.
  - by apply lang_restrict.
  - apply lang_prefix, Hle.
Qed.

(** ** The language of an object, class by class *)

Lemma lang_Emp_iff h a w : h !! a = Some Emp -> lang h (Some a) w <-> False.
Proof. intros Ha. split; [|done]. inversion 1; congruence. Qed.

Lemma lang_Eps_iff h a w : h !! a = Some Eps -> lang h (Some a) w <-> w = [].
Proof.
  intros Ha. split.
  - inversion 1; congruence.
  - intros ->. by apply lang_Eps.
Qed.

Lemma lang_Char_iff h a c w :
  h !! a = Some (Char c) -> lang h (Some a) w <-> w = [c].
Proof.
  intros Ha. split.
  - inversion 1; congruence.
  - intros ->. by apply lang_Char.
Qed.

Lemma lang_Or_iff h a r1 r2 w :
  h !! a = Some (Or r1 r2) ->
  lang h (Some a) w <-> lang h r1 w \/ lang h r2 w.
Proof.
  intros Ha. split.
  - inversion 1; simplify_eq; auto.
  - intros [H|H]; [by eapply lang_Or_l|by eapply lang_Or_r].
Qed.

Lemma lang_Concat_iff h a r1 r2 w :
  h !! a = Some (Concat r1 r2) ->
  lang h (Some a) w <-> exists w1 w2, w = w1 ++ w2 /\ lang h r1 w1 /\ lang h r2 w2.
Proof.
  intros Ha. split.
  - inversion 1; simplify_eq; eauto.
  - intros (w1 & w2 & -> & H1 & H2). by eapply lang_Concat.
Qed.

(** A non-empty word of a [Star] starts with a non-empty word of the
    child. *)
Lemma lang_Star_cons h a r1 c w :
  h !! a = Some (Star r1) ->
  lang h (Some a) (c :: w)
  <-> exists w1 w2, w = w1 ++ w2 /\ lang h r1 (c :: w1) /\ lang h (Some a) w2.
Proof.
  intros Ha. split.
  - intros H. remember (Some a) as p eqn:Hp. remember (c :: w) as u eqn:Hu.
    revert Hp Hu.
    induction H as [| | | | | |a' r1' w1 w2 Ha' H1 _ H2 IH2];
      intros Hp Hu; simplify_eq.
    destruct w1 as [|c' w1]; simpl in Hu.
    + by apply IH2.
    + simplify_eq. eauto.
  - intros (w1 & w2 & -> & H1 & H2).
    change (c :: w1 ++ w2) with ((c :: w1) ++ w2). by eapply lang_Star_app.
Qed.

(** The language is that of the object, wherever it is stored. *)
Lemma lang_same_object h a b obj w :
  h !! a = Some obj -> h !! b = Some obj ->
  lang h (Some a) w -> lang h (Some b) w.
Proof.
  intros Ha Hb H. remember (Some a) as p eqn:Hp. revert Hp.
  induction H; intros Hp; simplify_eq; eauto using lang.
Qed.

Lemma lang_null h w : lang h None w <-> False.
Proof. split; [inversion 1|done]. Qed.

(** ** Nullability decides membership of the empty word *)

Lemma nullable_lang_fuel s :
  wf s ->
  forall n a, a < n -> a < length (heap s) ->
  exists v,
    (forall fuel, a < fuel -> is_contain_eps_fuel fuel (Some a) s = Ok v s)
    /\ (v = true <-> lang (heap s) (Some a) []).
Proof.
  intros Hwf. induction n as [|n IH]; intros a Hn Hlen; [lia|].
  destruct (lookup_lt_is_Some_2 (heap s) a Hlen) as [obj Hobj].
  pose proof (proj1 (heap_ok_lookup s) (wf_heap s Hwf) a obj Hobj) as Hok.
  assert (Hstep : forall k : Regex -> M bool,
            (let* o := deref (Some a) in k o) s = k obj s).
  { intros k. unfold bind, deref. by rewrite Hobj. }
  destruct obj as [| |c_|r1 r2|r1 r2|r1]; simpl in Hok.
  - exists false. split.
    + intros [|fuel] Hf; [lia|]. cbn [is_contain_eps_fuel]. by rewrite Hstep.
    + rewrite lang_Emp_iff by done. done.
  - exists true. split.
    + intros [|fuel] Hf; [lia|]. cbn [is_contain_eps_fuel]. by rewrite Hstep.
    + rewrite lang_Eps_iff by done. done.
  - exists false. split.
    + intros [|fuel] Hf; [lia|]. cbn [is_contain_eps_fuel]. by rewrite Hstep.
    + rewrite lang_Char_iff by done. done.
  - destruct Hok as [H1 H2].
    destruct r1 as [x|]; [|done]. destruct r2 as [y|]; [|done]. simpl in H1, H2.
    destruct (IH x) as (vx & Hx & Lx); [lia..|].
    destruct (IH y) as (vy & Hy & Ly); [lia..|].
    exists (vx || vy). split.
    + intros [|fuel] Hf; [lia|]. cbn [is_contain_eps_fuel]. rewrite Hstep.
      unfold bind. rewrite Hx by lia. destruct vx; [done|]. by rewrite Hy by lia.
    + rewrite lang_Or_iff by done. by rewrite orb_true_iff, Lx, Ly.
  - destruct Hok as [H1 H2].
    destruct r1 as [x|]; [|done]. destruct r2 as [y|]; [|done]. simpl in H1, H2.
    destruct (IH x) as (vx & Hx & Lx); [lia..|].
    destruct (IH y) as (vy & Hy & Ly); [lia..|].
    exists (vx && vy). split.
    + intros [|fuel] Hf; [lia|]. cbn [is_contain_eps_fuel]. rewrite Hstep.
      unfold bind. rewrite Hx by lia. destruct vx; [|done]. by rewrite Hy by lia.
    + rewrite lang_Concat_iff by done. split.
      * intros Hv. apply andb_true_iff in Hv as [-> ->].
        exists [], []. split; [done|]. split; [by apply Lx|by apply Ly].
      * intros (w1 & w2 & Hw & L1 & L2). symmetry in Hw.
        apply app_eq_nil in Hw as [-> ->].
        apply andb_true_iff. split; [by apply Lx|by apply Ly].
  - exists true. split.
    + intros [|fuel] Hf; [lia|]. cbn [is_contain_eps_fuel]. by rewrite Hstep.
    + split; [|done]. intros _. by eapply lang_Star_nil.
Qed.

Lemma is_contain_eps_lang s p v s' :
  wf s -> valid s p -> is_contain_eps p s = Ok v s' ->
  s' = s /\ (v = true <-> lang (heap s) p []).
Proof.
  intros Hwf Hp H. destruct p as [a|]; [|done]. simpl in Hp.
  destruct (nullable_lang_fuel s Hwf (S a) a) as (v' & Hv & Hl); [lia..|].
  unfold is_contain_eps in H. rewrite Hv in H by (simpl; lia).
  by injection H as <- <-.
Qed.

Lemma is_contain_eps_partial s p :
  wf s -> valid s p ->
  partial (is_contain_eps p) s
          (fun v s' => s' = s /\ (v = true <-> lang (heap s) p [])).
Proof.
  intros Hwf Hp v s' H.
  destruct (is_contain_eps_lang s p v s' Hwf Hp H) as [-> Hl].
  split; [done|]. split; [apply State_le_refl|done].
Qed.

(** ** The smart constructors build the union, the concatenation and
    the iteration *)

Lemma partial_conseq {A} (m : M A) s (Q Q' : A -> State -> Prop) :
  partial m s Q ->
  (forall a s', wf s' -> State_le s s' -> Q a s' -> Q' a s') ->
  partial m s Q'.
Proof.
  intros Hm HQ a s' H. destruct (Hm a s' H) as (Hwf & Hle & Ha). auto.
Qed.

Lemma Or_create_lang s a b :
  wf s -> valid s a -> valid s b ->
  partial (Or_create a b) s
    (fun p s' => valid s' p
       /\ forall w, lang (heap s') p w <-> lang (heap s') a w \/ lang (heap s') b w).
Proof.
  intros Hwf Ha Hb.
  eapply partial_conseq; [apply partial_agree; by apply Or_create_spec|].
  intros p s' Hwf' Hle Hp. cbv beta in Hp. case_decide.
  - subst. split; [by eapply valid_le|]. tauto.
  - split; [by eapply cached_ok_valid|].
    destruct p as [q|]; [|done]. simpl in Hp. intros w. by apply lang_Or_iff.
Qed.

Lemma Concat_create_lang s a b :
  wf s -> valid s a -> valid s b ->
  partial (Concat_create a b) s
    (fun p s' => valid s' p
       /\ forall w, lang (heap s') p w
                    <-> exists w1 w2, w = w1 ++ w2 /\ lang (heap s') a w1
                                      /\ lang (heap s') b w2).
Proof.
  intros Hwf Ha Hb.
  eapply partial_conseq; [apply partial_agree; by apply Concat_create_spec|].
  intros p s' Hwf' Hle Hp. cbv beta in Hp.
  split; [by eapply cached_ok_valid|].
  destruct p as [q|]; [|done]. simpl in Hp. intros w. by apply lang_Concat_iff.
Qed.

Lemma Star_create_lang s a :
  wf s -> valid s a ->
  partial (Star_create a) s
    (fun p s' => valid s' p
       /\ exists q, p = Some q /\ heap s' !! q = Some (Star a)).
Proof.
  intros Hwf Ha.
  eapply partial_conseq; [apply partial_agree; by apply Star_create_spec|].
  intros p s' Hwf' Hle Hp. cbv beta in Hp.
  split; [by eapply cached_ok_valid|].
  destruct p as [q|]; [|done]. by exists q.
Qed.

(** ** The derivative is the Brzozowski derivative of the language *)

Lemma stable_wf_derives s p c : valid s p -> stable_wf (derives s p c).
Proof.
  intros _ q s1 s2 Hwf2 [Hq Hl] Hle. split; [by eapply valid_le|].
  intros w. rewrite <- Hl. by apply lang_le_iff.
Qed.

Section DerivativeLanguage.

Variable order : ArgOrder.

Lemma partial_args2 {A B} (f : M A) (g : M B) s
    (QA : A -> State -> Prop) (QB : B -> State -> Prop) :
  wf s -> stable_wf QA -> stable_wf QB ->
  (forall s', wf s' -> State_le s s' -> partial f s' QA) ->
  (forall s', wf s' -> State_le s s' -> partial g s' QB) ->
  partial (args2 order f g) s (fun ab s' => QA ab.1 s' /\ QB ab.2 s').
Proof.
  intros Hwf HsA HsB Hf Hg. unfold args2. destruct order.
  - eapply partial_bind; [apply Hf; [done|apply State_le_refl]|].
    intros a s1 Hwf1 Hle1 Ha.
    eapply partial_bind; [apply Hg; done|].
    intros b s2 Hwf2 Hle2 Hb.
    apply partial_ret; [done|]. simpl. split; [|done]. by eapply HsA.
  - eapply partial_bind; [apply Hg; [done|apply State_le_refl]|].
    intros b s1 Hwf1 Hle1 Hb.
    eapply partial_bind; [apply Hf; done|].
    intros a s2 Hwf2 Hle2 Ha.
    apply partial_ret; [done|]. simpl. split; [done|]. by eapply HsB.
Qed.

(** The method bodies compute the derivative when the calls on the
    children do, in every later store. *)
Lemma derive_body_lang (call : RegexPtr -> ascii -> M RegexPtr) s a obj c :
  wf s -> heap s !! a = Some obj ->
  (forall x s1, x < a -> wf s1 -> State_le s s1 ->
     partial (call (Some x) c) s1 (derives s (Some x) c)) ->
  partial (derive_body order call obj c) s (derives s (Some a) c).
Proof.
  intros Hwf Hobj Hcall.
  pose proof (proj1 (heap_ok_lookup s) (wf_heap s Hwf) a obj Hobj) as Hok.
  pose proof (lookup_lt_Some _ _ _ Hobj) as Hlen.
  assert (Hchild : forall x, x < a -> valid s (Some x)) by (simpl; lia).
  destruct obj as [| |c_|r1 r2|r1 r2|r1]; simpl in Hok; cbn [derive_body].
  - eapply partial_conseq; [apply partial_agree; by apply agree_Emp_instance|].
    intros p s' Hwf' Hle [_ Hp]. split; [by eapply cached_ok_valid|].
    destruct p as [q|]; [|done]. intros w.
    rewrite (lang_Emp_iff _ q) by done. by rewrite lang_Emp_iff.
  - eapply partial_conseq; [apply partial_agree; by apply agree_Emp_instance|].
    intros p s' Hwf' Hle [_ Hp]. split; [by eapply cached_ok_valid|].
    destruct p as [q|]; [|done]. intros w.
    rewrite (lang_Emp_iff _ q) by done. by rewrite lang_Eps_iff.
  - destruct (Ascii.eqb_spec c_ c) as [->|Hne].
    + eapply partial_conseq; [apply partial_agree; by apply agree_Eps_instance|].
      intros p s' Hwf' Hle [_ Hp]. split; [by eapply cached_ok_valid|].
      destruct p as [q|]; [|done]. intros w.
      rewrite (lang_Eps_iff _ q) by done. rewrite lang_Char_iff by done.
      split; [by intros ->|by intros [= ->]].
    + eapply partial_conseq; [apply partial_agree; by apply agree_Emp_instance|].
      intros p s' Hwf' Hle [_ Hp]. split; [by eapply cached_ok_valid|].
      destruct p as [q|]; [|done]. intros w.
      rewrite (lang_Emp_iff _ q) by done. rewrite lang_Char_iff by done.
      split; [done|]. intros [= ? ?]. congruence.
  - destruct Hok as [H1 H2].
    destruct r1 as [x|]; [|done]. destruct r2 as [y|]; [|done]. simpl in H1, H2.
    eapply partial_bind.
    { apply (partial_args2 _ _ s (derives s (Some x) c) (derives s (Some y) c));
        [done|apply stable_wf_derives; auto|apply stable_wf_derives; auto|..];
        intros s' Hwf' Hle; by apply Hcall. }
    intros [d1 d2] s1 Hwf1 Hle1 [[Hv1 Hd1] [Hv2 Hd2]]. simpl in *.
    eapply partial_conseq; [by apply Or_create_lang|].
    intros p s2 Hwf2 Hle2 [Hp Hl]. split; [done|]. intros w.
    rewrite Hl, (lang_Or_iff _ a) by done.
    rewrite <- Hd1, <- Hd2. by rewrite !(lang_le_iff s1 s2).
  - destruct Hok as [H1 H2].
    destruct r1 as [x|]; [|done]. destruct r2 as [y|]; [|done]. simpl in H1, H2.
    set (QL := fun (l : RegexPtr) (s' : State) =>
           valid s' l
           /\ forall w, lang (heap s') l w
                <-> exists w1 w2, w = w1 ++ w2
                      /\ lang (heap s) (Some x) (c :: w1)
                      /\ lang (heap s) (Some y) w2).
    assert (HQL : stable_wf QL).
    { intros l s1 s2 Hwf2 [Hl HL] Hle. split; [by eapply valid_le|].
      intros w. rewrite <- HL. by apply lang_le_iff. }
    assert (Hleft : forall s', wf s' -> State_le s s' ->
              partial (let* d1 := call (Some x) c in Concat_create d1 (Some y))
                      s' QL).
    { intros s1 Hwf1 Hle1. eapply partial_bind; [by apply Hcall|].
      intros d1 s2 Hwf2 Hle2 [Hv1 Hd1].
      assert (Hy2 : valid s2 (Some y)).
      { apply (valid_le s); [by etrans|]. by apply Hchild. }
      eapply partial_conseq; [by apply Concat_create_lang|].
      intros l s3 Hwf3 Hle3 [Hl HL]. split; [done|]. intros w. rewrite HL.
      split; intros (w1 & w2 & -> & L1 & L2); exists w1, w2; (split; [done|]).
      - split.
        + apply Hd1. by apply (lang_le_iff s2 s3).
        + apply (lang_le_iff s s3); [done| |by apply Hchild|done].
          etrans; [exact Hle1|]. by etrans.
      - split.
        + apply (lang_le_iff s2 s3); [done..|]. by apply Hd1.
        + apply (lang_le_iff s s3); [done| |by apply Hchild|done].
          etrans; [exact Hle1|]. by etrans. }
    assert (Hcat : forall w,
              lang (heap s) (Some a) (c :: w)
              <-> (exists w1 w2, w = w1 ++ w2
                     /\ lang (heap s) (Some x) (c :: w1)
                     /\ lang (heap s) (Some y) w2)
                  \/ (lang (heap s) (Some x) [] /\ lang (heap s) (Some y) (c :: w))).
    { intros w. rewrite lang_Concat_iff by done. split.
      - intros (u1 & u2 & Hu & L1 & L2). destruct u1 as [|c' u1]; simpl in Hu.
        + right. by subst.
        + left. injection Hu as <- ->. eauto.
      - intros [(w1 & w2 & -> & L1 & L2)|[L1 L2]].
        + exists (c :: w1), w2. auto.
        + exists [], (c :: w). auto. }
    eapply partial_bind; [apply is_contain_eps_partial; [done|by apply Hchild]|].
    intros nullable s0 _ _ [-> Hnull]. destruct nullable.
    + eapply partial_bind.
      { apply (partial_args2 _ _ s QL (derives s (Some y) c));
          [done|exact HQL|apply stable_wf_derives; auto|exact Hleft|].
        intros s' Hwf' Hle; by apply Hcall. }
      intros [l d2] s1 Hwf1 Hle1 [[Hvl HL] [Hv2 Hd2]]. simpl in *.
      eapply partial_conseq; [by apply Or_create_lang|].
      intros p s2 Hwf2 Hle2 [Hp Hl]. split; [done|]. intros w.
      rewrite Hl, Hcat. rewrite !(lang_le_iff s1 s2) by done.
      rewrite HL, Hd2. split; [|tauto].
      intros [?|?]; [by left|]. right. split; [by apply Hnull|done].
    + eapply partial_conseq; [apply Hleft; [done|apply State_le_refl]|].
      intros l s1 Hwf1 Hle1 [Hvl HL]. split; [done|]. intros w.
      rewrite HL, Hcat. split; [by left|].
      intros [?|[Hx _]]; [done|]. apply Hnull in Hx. done.
  - destruct r1 as [x|]; [|done]. simpl in Hok.
    set (QS := fun (st : RegexPtr) (s' : State) =>
           valid s' st
           /\ exists q, st = Some q /\ heap s' !! q = Some (Star (Some x))).
    assert (HQS : stable_wf QS).
    { intros st s1 s2 Hwf2 [Hst (q & -> & Hq)] Hle. split; [by eapply valid_le|].
      exists q. split; [done|]. by eapply State_le_lookup. }
    eapply partial_bind.
    { apply (partial_args2 _ _ s (derives s (Some x) c) QS);
        [done|apply stable_wf_derives; auto|exact HQS|..];
        intros s' Hwf' Hle; [by apply Hcall|].
      apply Star_create_lang; [done|]. apply (valid_le s); [done|by apply Hchild]. }
    intros [d1 st] s1 Hwf1 Hle1 [[Hv1 Hd1] [Hvst (q & Hst & Hq)]].
    simpl in *. subst st.
    eapply partial_conseq; [by apply Concat_create_lang|].
    intros p s2 Hwf2 Hle2 [Hp Hl]. split; [done|]. intros w.
    rewrite Hl, lang_Star_cons by done.
    assert (Ha2 : heap s2 !! a = Some (Star (Some x))).
    { eapply State_le_lookup; [|exact Hobj]. by etrans. }
    assert (Hq2 : heap s2 !! q = Some (Star (Some x))).
    { by eapply State_le_lookup. }
    assert (Hstar : forall w2, lang (heap s2) (Some q) w2
                               <-> lang (heap s) (Some a) w2).
    { intros w2. rewrite <- (lang_le_iff s s2 (Some a)); [|done|by etrans|done].
      split; by apply lang_same_object with (obj := Star (Some x)). }
    split; intros (w1 & w2 & -> & L1 & L2); exists w1, w2; (split; [done|]).
    + split; [|by apply Hstar]. apply Hd1. by apply (lang_le_iff s1 s2).
    + split; [|by apply Hstar]. apply (lang_le_iff s1 s2); [done..|]. by apply Hd1.
Qed.

(** [derive] with any sufficient fuel computes the derivative. *)
Lemma derive_fuel_lang c :
  forall n s a fuel,
    wf s -> a < length (heap s) -> a < n -> a < fuel ->
    partial (derive_fuel order fuel (Some a) c) s (derives s (Some a) c).
Proof.
  induction n as [|n IH]; intros s a fuel Hwf Hlen Hn Hf; [lia|].
  destruct fuel as [|fuel]; [lia|].
  destruct (lookup_lt_is_Some_2 (heap s) a Hlen) as [obj Hobj].
  cbn [derive_fuel].
  eapply partial_bind; [apply partial_agree; by apply agree_deref|].
  intros o s0 _ _ [-> ->].
  apply derive_body_lang; [done..|].
  intros x s1 Hx Hwf1 Hle1.
  eapply partial_conseq.
  { apply IH; [done| |lia..]. apply State_le_length in Hle1. lia. }
  intros q s2 Hwf2 Hle2 [Hq Hl]. split; [done|]. intros w.
  rewrite Hl. apply lang_le_iff; [done..|]. simpl. lia.
Qed.

Lemma derive_lang s p c :
  wf s -> valid s p -> partial (derive order p c) s (derives s p c).
Proof.
  intros Hwf Hp. destruct p as [a|]; [|done]. simpl in Hp.
  unfold derive, ptr_fuel. apply (derive_fuel_lang c (S a)); [done|lia..].
Qed.

End DerivativeLanguage.

(** ** The matcher decides membership *)

Lemma is_match_loop_lang order text :
  forall s root,
    wf s -> valid s root ->
    partial (is_match_loop order root text) s
      (fun final s' =>
         valid s' final
         /\ forall w, lang (heap s') final w
                      <-> lang (heap s) root (list_ascii_of_string text ++ w)).
Proof.
  induction text as [|c text IH]; intros s root Hwf Hroot; cbn [is_match_loop].
  - by apply partial_ret.
  - eapply partial_bind; [by apply derive_lang|].
    intros q s1 Hwf1 Hle1 [Hq Hd].
    eapply partial_conseq; [by apply IH|].
    intros final s2 Hwf2 Hle2 [Hfinal Hl]. split; [done|]. intros w.
    rewrite Hl, Hd. done.
Qed.

(** X1: on a well-formed store [is_contain_eps] returns true exactly when
    the empty word is in the language of the node. *)
Theorem is_contain_eps_decides_empty_word s p :
  wf s -> valid s p ->
  exists v, is_contain_eps p s = Ok v s /\ (v = true <-> lang (heap s) p []).
Proof.
  intros Hwf Hp. destruct (is_contain_eps_total s p Hwf Hp) as (v & Hv & _).
  exists v. split; [done|]. by destruct (is_contain_eps_lang s p v s Hwf Hp Hv).
Qed.

Lemma is_contain_eps_decides_empty_word_witness :
  wf ab_star_store /\ valid ab_star_store (Some 2)
  /\ exists v, is_contain_eps (Some 2) ab_star_store = Ok v ab_star_store
               /\ (v = true <-> lang (heap ab_star_store) (Some 2) []).
Proof.
  assert (Hwf : wf ab_star_store)
    by (apply (bool_decide_unpack _); vm_compute; exact I).
  assert (Hp : valid ab_star_store (Some 2))
    by (apply (bool_decide_unpack _); vm_compute; exact I).
  split; [exact Hwf|]. split; [exact Hp|].
  exact (is_contain_eps_decides_empty_word ab_star_store (Some 2) Hwf Hp).
Defined.

(** X2: on a well-formed store [derive] returns a node whose language is
    the Brzozowski derivative of the language of the node it was called
    on: [w] is a word of the result exactly when [c :: w] is a word of the
    argument. *)
Theorem derive_is_language_derivative order s p c :
  wf s -> valid s p ->
  exists q s',
    derive order p c s = Ok q s' /\ wf s' /\ valid s' q
    /\ forall w, lang (heap s') q w <-> lang (heap s) p (c :: w).
Proof.
  intros Hwf Hp.
  destruct (derive_ok order s p c Hwf Hp) as (q & s' & H1 & _ & Hwf' & _ & _).
  destruct (derive_lang order s p c Hwf Hp q s' H1) as (_ & _ & Hq & Hl).
  by exists q, s'.
Qed.

Lemma derive_is_language_derivative_witness :
  wf ab_star_store /\ valid ab_star_store (Some 3)
  /\ exists q s',
       derive LeftToRight (Some 3) "a" ab_star_store = Ok q s'
       /\ wf s' /\ valid s' q
       /\ forall w, lang (heap s') q w
                    <-> lang (heap ab_star_store) (Some 3) ("a"%char :: w).
Proof.
  assert (Hwf : wf ab_star_store)
    by (apply (bool_decide_unpack _); vm_compute; exact I).
  assert (Hp : valid ab_star_store (Some 3))
    by (apply (bool_decide_unpack _); vm_compute; exact I).
  split; [exact Hwf|]. split; [exact Hp|].
  exact (derive_is_language_derivative LeftToRight ab_star_store (Some 3)
                                       "a"%char Hwf Hp).
Defined.

Lemma bind_Ok {A B} (m : M A) (k : A -> M B) s a s1 :
  m s = Ok a s1 -> bind m k s = k a s1.
Proof. intros H. unfold bind. by rewrite H. Qed.

Lemma is_match_total_lang order s root text :
  wf s -> valid s root ->
  exists v s',
    is_match order root text s = Ok v s'
    /\ (v = true <-> lang (heap s) root (list_ascii_of_string text)).
Proof.
  intros Hwf Hroot.
  destruct (is_match_loop_ok order text s root Hwf Hroot)
    as (final & s' & H1 & _ & Hwf' & _ & _).
  destruct (is_match_loop_lang order text s root Hwf Hroot final s' H1)
    as (_ & _ & Hfinal & Hl).
  destruct (is_contain_eps_total s' final Hwf' Hfinal) as (v & Hv & _).
  destruct (is_contain_eps_lang s' final v s' Hwf' Hfinal Hv) as [_ Hnull].
  exists v, s'. split.
  - unfold is_match, bind. by rewrite H1.
  - rewrite Hnull, Hl. by rewrite app_nil_r.
Qed.

(** X3: on a well-formed store [is_match] returns, and returns true
    exactly when the whole text is a word of the language of the root. *)
Theorem is_match_decides_membership order s root text :
  wf s -> valid s root ->
  exists v s',
    is_match order root text s = Ok v s'
    /\ (v = true <-> lang (heap s) root (list_ascii_of_string text)).
Proof.
  intros Hwf Hroot.
  destruct (is_match_loop_ok order text s root Hwf Hroot)
    as (final & s' & Hloop & _ & Hwf' & _ & _).
  destruct (is_match_loop_lang order text s root Hwf Hroot final s' Hloop)
    as (_ & _ & Hfinal & Hwords).
  destruct (is_contain_eps_total s' final Hwf' Hfinal) as (v & Hv & _).
  destruct (is_contain_eps_lang s' final v s' Hwf' Hfinal Hv) as [_ Hempty].
  exists v, s'. split.
  - unfold is_match. by rewrite (bind_Ok _ _ _ _ _ Hloop).
  - rewrite Hempty, Hwords. by rewrite app_nil_r.
Qed.

Lemma is_match_decides_membership_witness :
  wf ab_star_store /\ valid ab_star_store (Some 3)
  /\ exists v s',
       is_match LeftToRight (Some 3) "abb" ab_star_store = Ok v s'
       /\ (v = true
           <-> lang (heap ab_star_store) (Some 3) (list_ascii_of_string "abb")).
Proof.
  assert (Hwf : wf ab_star_store)
    by (apply (bool_decide_unpack _); vm_compute; exact I).
  assert (Hp : valid ab_star_store (Some 3))
    by (apply (bool_decide_unpack _); vm_compute; exact I).
  split; [exact Hwf|]. split; [exact Hp|].
  exact (is_match_decides_membership LeftToRight ab_star_store (Some 3) "abb"
                                     Hwf Hp).
Defined.

(** ** What the smart constructors build *)

(** The words of a [Star] object are the concatenations of words of its
    child. *)
Lemma lang_Star_iff h q r1 w :
  h !! q = Some (Star r1) ->
  lang h (Some q) w <-> exists ws, w = concat ws /\ Forall (lang h r1) ws.
Proof.
  intros Hq. split.
  - intros H. remember (Some q) as p eqn:Hp. revert Hp.
    induction H as [| | | | |a r1' Ha|a r1' w1 w2 Ha H1 _ H2 IH2];
      intros Hp; simplify_eq.
    + by exists [].
    + destruct IH2 as (ws & -> & Hws); [done|].
      exists (w1 :: ws). split; [done|]. by constructor.
  - intros (ws & -> & Hws). induction Hws as [|w1 ws H1 _ IH]; simpl.
    + by eapply lang_Star_nil.
    + by eapply lang_Star_app.
Qed.

(** X4: on valid operands of a well-formed store the smart constructors
    return, and the node they return stands for the union
    ([Or::create]), the concatenation ([Concat::create]) and the iteration
    ([Star::create]) of the languages of the operands. *)
Theorem create_builds_languages s a b :
  wf s -> valid s a -> valid s b ->
  (exists p s',
      Or_create a b s = Ok p s' /\ wf s'
      /\ forall w, lang (heap s') p w <-> lang (heap s) a w \/ lang (heap s) b w)
  /\ (exists p s',
        Concat_create a b s = Ok p s' /\ wf s'
        /\ forall w, lang (heap s') p w
                     <-> exists w1 w2, w = w1 ++ w2 /\ lang (heap s) a w1
                                       /\ lang (heap s) b w2)
  /\ (exists p s',
        Star_create a s = Ok p s' /\ wf s'
        /\ forall w, lang (heap s') p w
                     <-> exists ws, w = concat ws /\ Forall (lang (heap s) a) ws).
Proof.
  intros Hwf Ha Hb. split; [|split].
  - destruct (Or_create_valid s a b Hwf Ha Hb) as (p & s' & H1 & _ & Hwf' & Hle & _).
    destruct (Or_create_lang s a b Hwf Ha Hb p s' H1) as (_ & _ & _ & Hl).
    exists p, s'. split; [done|]. split; [done|]. intros w.
    by rewrite Hl, !(lang_le_iff s s').
  - destruct (Concat_create_valid s a b Hwf Ha Hb)
      as (p & s' & H1 & _ & Hwf' & Hle & _).
    destruct (Concat_create_lang s a b Hwf Ha Hb p s' H1) as (_ & _ & _ & Hl).
    exists p, s'. split; [done|]. split; [done|]. intros w. rewrite Hl.
    split; intros (w1 & w2 & -> & L1 & L2); exists w1, w2;
      (split; [done|]); split; by apply (lang_le_iff s s').
  - destruct (Star_create_valid s a Hwf Ha) as (p & s' & H1 & _ & Hwf' & Hle & _).
    destruct (Star_create_lang s a Hwf Ha p s' H1) as (_ & _ & _ & q & -> & Hq).
    exists (Some q), s'. split; [done|]. split; [done|]. intros w.
    rewrite lang_Star_iff by done.
    split; intros (ws & -> & Hws); exists ws; (split; [done|]);
      (eapply Forall_impl; [exact Hws|]); intros u; by apply (lang_le_iff s s').
Qed.

Lemma create_builds_languages_witness :
  wf ab_star_store /\ valid ab_star_store (Some 0) /\ valid ab_star_store (Some 1)
  /\ exists p s',
       Or_create (Some 0) (Some 1) ab_star_store = Ok p s' /\ wf s'
       /\ forall w, lang (heap s') p w
                    <-> lang (heap ab_star_store) (Some 0) w
                        \/ lang (heap ab_star_store) (Some 1) w.
Proof.
  assert (Hwf : wf ab_star_store)
    by (apply (bool_decide_unpack _); vm_compute; exact I).
  assert (Ha : valid ab_star_store (Some 0))
    by (apply (bool_decide_unpack _); vm_compute; exact I).
  assert (Hb : valid ab_star_store (Some 1))
    by (apply (bool_decide_unpack _); vm_compute; exact I).
  split; [exact Hwf|]. split; [exact Ha|]. split; [exact Hb|].
  exact (proj1 (create_builds_languages ab_star_store (Some 0) (Some 1)
                                        Hwf Ha Hb)).
Defined.

(** X5: the cache key of [Or::create] is the ordered pair of operands:
    on two different operands, [Or::create(a, b)] followed by
    [Or::create(b, a)] returns two different nodes, although both stand
    for the same language. *)
Theorem Or_create_keeps_operand_order s a b p s1 q s2 :
  wf s -> valid s a -> valid s b -> a <> b ->
  Or_create a b s = Ok p s1 -> Or_create b a s1 = Ok q s2 ->
  p <> q /\ forall w, lang (heap s2) p w <-> lang (heap s2) q w.
Proof.
  intros Hwf Ha Hb Hne H1 H2.
  destruct (partial_agree _ _ _ (Or_create_spec s a b Hwf Ha Hb) p s1 H1)
    as (Hwf1 & Hle1 & Hp).
  cbv beta in Hp. rewrite decide_False in Hp by done.
  assert (Ha1 : valid s1 a) by (by eapply valid_le).
  assert (Hb1 : valid s1 b) by (by eapply valid_le).
  destruct (partial_agree _ _ _ (Or_create_spec s1 b a Hwf1 Hb1 Ha1) q s2 H2)
    as (Hwf2 & Hle2 & Hq).
  cbv beta in Hq. rewrite decide_False in Hq by done.
  destruct p as [x|]; [|done]. destruct q as [y|]; [|done]. simpl in Hp, Hq.
  pose proof (State_le_lookup _ _ _ _ Hle2 Hp) as Hp2.
  split.
  - intros [= ->]. congruence.
  - intros w. rewrite !lang_Or_iff by done. tauto.
Qed.

Lemma Or_create_keeps_operand_order_witness :
  (Some 4 : RegexPtr) <> Some 5
  /\ forall w, lang (heap (store_of (Or_create (Some 1) (Some 0) interned_store)))
                    (Some 4) w
               <-> lang (heap (store_of (Or_create (Some 1) (Some 0) interned_store)))
                        (Some 5) w.
Proof.
  apply (Or_create_keeps_operand_order ab_star_store (Some 0) (Some 1)
           (Some 4) interned_store (Some 5)).
  - apply (bool_decide_unpack _); vm_compute; exact I.
  - apply (bool_decide_unpack _); vm_compute; exact I.
  - apply (bool_decide_unpack _); vm_compute; exact I.
  - discriminate.
  - vm_compute; reflexivity.
  - vm_compute; reflexivity.
Defined.

(** ** Nodes are immutable *)

(** X6: no call changes an object that already exists: after [derive],
    [is_match] or [parse_regex] on a well-formed store every pointer that
    was valid before still stands for the same language. *)
Theorem existing_nodes_keep_language order s p w :
  wf s -> valid s p ->
  (forall r c q s', valid s r -> derive order r c s = Ok q s' ->
     lang (heap s') p w <-> lang (heap s) p w)
  /\ (forall root text v s', valid s root ->
        is_match order root text s = Ok v s' ->
        lang (heap s') p w <-> lang (heap s) p w)
  /\ (forall pattern root s', parse_regex pattern s = Ok root s' ->
        lang (heap s') p w <-> lang (heap s) p w).
Proof.
  intros Hwf Hp. split; [|split].
  - intros r c q s' Hr H.
    destruct (derive_lang order s r c Hwf Hr q s' H) as (Hwf' & Hle & _).
    by apply lang_le_iff.
  - intros root text v s' Hroot H. unfold is_match, bind in H.
    destruct (is_match_loop order root text s) as [final s1| | |] eqn:H1; try done.
    destruct (is_match_loop_lang order text s root Hwf Hroot final s1 H1)
      as (Hwf1 & Hle1 & _).
    apply is_contain_eps_fuel_pure in H as ->. by apply lang_le_iff.
  - intros pattern root s' H.
    destruct (parse_regex_ok pattern s Hwf root s' H) as (Hwf' & Hle & _).
    by apply lang_le_iff.
Qed.

Lemma existing_nodes_keep_language_witness :
  wf interned_store /\ valid interned_store (Some 3)
  /\ derive LeftToRight (Some 3) "a" interned_store = Ok (Some 6) derived_store
  /\ (lang (heap derived_store) (Some 3) (list_ascii_of_string "abb")
      <-> lang (heap interned_store) (Some 3) (list_ascii_of_string "abb")).
Proof.
  assert (Hwf : wf interned_store)
    by (apply (bool_decide_unpack _); vm_compute; exact I).
  assert (Hp : valid interned_store (Some 3))
    by (apply (bool_decide_unpack _); vm_compute; exact I).
  assert (Hd : derive LeftToRight (Some 3) "a" interned_store
               = Ok (Some 6) derived_store)
    by (vm_compute; reflexivity).
  split; [exact Hwf|]. split; [exact Hp|]. split; [exact Hd|].
  exact (proj1 (existing_nodes_keep_language LeftToRight interned_store (Some 3)
                  (list_ascii_of_string "abb") Hwf Hp)
               (Some 3) "a"%char (Some 6) derived_store Hp Hd).
Defined.

(** ** The parser *)

(** The loop of the parser over a pattern in two pieces: when the first
    piece is scanned to its end, the scan of the whole continues with the
    second piece from the locals and the store the first one left. *)
Lemma parse_loop_app_fuel n :
  forall p q l s l' s',
    String.length p <= n ->
    parse_loop p l s = Ok l' s' ->
    parse_loop (p +:+ q) l s = parse_loop q l' s'.
Proof.
  induction n as [|n IH]; intros p q l s l' s' Hn H.
  - destruct p; [|simpl in Hn; lia]. by injection H as <- <-.
  - destruct p as [|c rest]; [by injection H as <- <-|].
    simpl in Hn. cbn [parse_loop] in H.
    change (String c rest +:+ q) with (String c (rest +:+ q)).
    cbn [parse_loop]. destruct (Ascii.eqb c "\").
    + destruct rest as [|c' rest']; [done|]. simpl in Hn.
      change (String c' rest' +:+ q) with (String c' (rest' +:+ q)).
      unfold bind in *.
      destruct (dispatch c' l s) as [l1 s1| | |]; try done.
      apply IH; [lia|done].
    + unfold bind in *.
      destruct (dispatch c l s) as [l1 s1| | |]; try done.
      apply IH; [lia|done].
Qed.

Lemma parse_loop_app p q l s l' s' :
  parse_loop p l s = Ok l' s' ->
  parse_loop (p +:+ q) l s = parse_loop q l' s'.
Proof. by apply (parse_loop_app_fuel (String.length p)). Qed.

(** X7: a backslash as the last character, after a part of the pattern
    that was scanned without an error, makes [parse_regex] throw
    "Invalid escape"; the store is the one the scan had built. *)
Theorem trailing_backslash_throws p l s s' :
  parse_loop p (mkLocals [] [] None) s = Ok l s' ->
  parse_regex (p +:+ "\") s = Throw "Invalid escape" s'.
Proof.
  intros H. unfold parse_regex, bind.
  by rewrite (parse_loop_app _ "\" _ _ _ _ H).
Qed.

Lemma trailing_backslash_throws_witness :
  parse_regex "ab\" initial_state
  = Throw "Invalid escape" (mkState [Char "a"; Char "b"] None None ∅ ∅ ∅).
Proof.
  refine (trailing_backslash_throws "ab"
            (mkLocals [Some 1; Some 0] ["."%char] (Some 1)) initial_state _ _).
  vm_compute; reflexivity.
Defined.

(** X8: a postfix operator [*], [+] or [?] met while [prev] is null makes
    [parse_regex] throw "<operator> cannot appear at start", whatever
    follows it; [prev] is null at the start of the pattern and after every
    ['('] and ['|']. *)
Theorem postfix_operator_needs_operand p l s s' c rest :
  parse_loop p (mkLocals [] [] None) s = Ok l s' ->
  prev l = None ->
  c = "*"%char \/ c = "+"%char \/ c = "?"%char ->
  parse_regex (p +:+ String c rest) s
    = Throw (String c " cannot appear at start") s'
  /\ forall d l1 s1 l2 s2,
       d = "("%char \/ d = "|"%char ->
       dispatch d l1 s1 = Ok l2 s2 -> prev l2 = None.
Proof.
  intros H Hprev Hc. split.
  - unfold parse_regex, bind.
    rewrite (parse_loop_app _ (String c rest) _ _ _ _ H).
    destruct Hc as [-> | [-> | ->]]; cbn [parse_loop]; unfold bind, dispatch;
      simpl; by rewrite Hprev.
  - intros d l1 s1 l2 s2 [-> | ->]; unfold dispatch; simpl.
    + by intros [= <- _].
    + unfold bind. destruct (process_stack _ _ _ _) as [[ops1 operands1] s3| | |];
        try done. by intros [= <- _].
Qed.

Lemma postfix_operator_needs_operand_witness :
  parse_regex "(a|*b)" initial_state
  = Throw "* cannot appear at start" (mkState [Char "a"] None None ∅ ∅ ∅).
Proof.
  refine (proj1 (postfix_operator_needs_operand "(a|"
                   (mkLocals [Some 0] ["|"; "("]%char None) initial_state _
                   "*"%char "b)" _ _ _)).
  - vm_compute; reflexivity.
  - reflexivity.
  - by left.
Defined.

(** *** Only patterns with balanced parentheses are accepted *)

Lemma bind_Ok_inv {A B} (m : M A) (k : A -> M B) s b s' :
  bind m k s = Ok b s' -> exists a s1, m s = Ok a s1 /\ k a s1 = Ok b s'.
Proof. unfold bind. destruct (m s) as [a s1| | |]; try done. eauto. Qed.

Lemma process_stack_parens op :
  (0 < precedence op)%Z ->
  forall ops0 operands0 s r s',
    process_stack op ops0 operands0 s = Ok r s' ->
    open_parens r.1 = open_parens ops0.
Proof.
  intros Hop. induction ops0 as [|top_op ops0 IH]; intros operands0 s r s';
    cbn [process_stack].
  - by intros [= <- _].
  - destruct (precedence top_op >=? precedence op)%Z eqn:Hge;
      [|by intros [= <- _]].
    intros H. apply bind_Ok_inv in H as (operands1 & s1 & _ & H).
    apply IH in H as ->. cbn [open_parens].
    destruct (Ascii.eqb_spec top_op "(") as [->|_]; [|done].
    apply Z.geb_le in Hge. change (precedence "(") with 0%Z in Hge. lia.
Qed.

Lemma close_paren_loop_parens :
  forall ops0 operands0 s r s',
    close_paren_loop ops0 operands0 s = Ok r s' ->
    open_parens r.1 = open_parens ops0
    /\ (r.1 = [] \/ exists ops2, r.1 = "("%char :: ops2).
Proof.
  induction ops0 as [|top_op ops0 IH]; intros operands0 s r s';
    cbn [close_paren_loop].
  - intros [= <- _]. auto.
  - destruct (Ascii.eqb_spec top_op "(") as [->|Hne].
    + intros [= <- _]. eauto.
    + intros H. apply bind_Ok_inv in H as (operands1 & s1 & _ & H).
      apply IH in H as [-> Hshape]. split; [|done]. cbn [open_parens].
      by destruct (Ascii.eqb_spec top_op "(").
Qed.

Lemma flush_loop_parens :
  forall ops0 operands0 s r s',
    flush_loop ops0 operands0 s = Ok r s' -> open_parens ops0 = 0.
Proof.
  induction ops0 as [|top_op ops0 IH]; intros operands0 s r s';
    cbn [flush_loop open_parens]; [done|].
  destruct (Ascii.eqb top_op "("); [done|]. simpl.
  destruct (Ascii.eqb top_op ")"); [done|].
  intros H. apply bind_Ok_inv in H as (operands1 & s1 & _ & H). by eapply IH.
Qed.

Lemma dispatch_parens c l s l' s' :
  dispatch c l s = Ok l' s' ->
  if Ascii.eqb c "(" then open_parens (ops l') = S (open_parens (ops l))
  else if Ascii.eqb c ")" then open_parens (ops l) = S (open_parens (ops l'))
  else open_parens (ops l') = open_parens (ops l).
Proof.
  unfold dispatch.
  destruct (Ascii.eqb c "(") eqn:E1.
  { intros [= <- _]. simpl. by rewrite E1. }
  destruct (Ascii.eqb c ")") eqn:E2.
  { intros H. apply bind_Ok_inv in H as ([ops1 operands1] & s1 & Hloop & H).
    apply close_paren_loop_parens in Hloop as [Hcount Hshape]. simpl in *.
    destruct ops1 as [|top_op ops2]; [done|].
    destruct Hshape as [?|[ops3 [= -> ->]]]; [done|].
    apply bind_Ok_inv in H as (prev1 & s2 & _ & H). injection H as <- _.
    by rewrite <- Hcount. }
  destruct (Ascii.eqb c "*" || Ascii.eqb c "+" || Ascii.eqb c "?").
  { destruct (prev l); [|done]. intros H.
    apply bind_Ok_inv in H as (operands1 & s1 & _ & H).
    apply bind_Ok_inv in H as (operands2 & s2 & _ & H).
    apply bind_Ok_inv in H as (prev1 & s3 & _ & H). by injection H as <- _. }
  destruct (Ascii.eqb c "|").
  { intros H. apply bind_Ok_inv in H as ([ops1 operands1] & s1 & Hps & H).
    apply process_stack_parens in Hps; [|done]. injection H as <- _.
    simpl in *. done. }
  intros H. apply bind_Ok_inv in H as (r & s1 & _ & H).
  apply bind_Ok_inv in H as ([ops1 operands1] & s2 & Hps & H).
  injection H as <- _. simpl.
  destruct (prev l).
  - apply bind_Ok_inv in Hps as ([ops2 operands2] & s3 & Hps & H).
    apply process_stack_parens in Hps; [|done]. injection H as <- _ _.
    simpl in *. done.
  - by injection Hps as <- _ _.
Qed.

Lemma parse_loop_parens n :
  forall pattern l s l' s',
    String.length pattern <= n ->
    parse_loop pattern l s = Ok l' s' ->
    paren_depth (dispatched pattern) (open_parens (ops l))
    = Some (open_parens (ops l')).
Proof.
  assert (Hstep : forall c l s l1 s1 cs d,
            dispatch c l s = Ok l1 s1 ->
            paren_depth cs (open_parens (ops l1)) = Some d ->
            paren_depth (c :: cs) (open_parens (ops l)) = Some d).
  { intros c l s l1 s1 cs d Hd Hcs. apply dispatch_parens in Hd.
    cbn [paren_depth]. destruct (Ascii.eqb c "("); [by rewrite <- Hd|].
    destruct (Ascii.eqb c ")"); [by rewrite Hd|]. by rewrite <- Hd. }
  induction n as [|n IH]; intros pattern l s l' s' Hn H.
  - destruct pattern; [|simpl in Hn; lia]. by injection H as <- _.
  - destruct pattern as [|c rest]; [by injection H as <- _|].
    simpl in Hn. cbn [parse_loop dispatched] in *.
    destruct (Ascii.eqb c "\").
    + destruct rest as [|c' rest']; [done|]. simpl in Hn.
      apply bind_Ok_inv in H as (l1 & s1 & Hd & H).
      eapply Hstep; [exact Hd|]. eapply IH; [|exact H]. lia.
    + apply bind_Ok_inv in H as (l1 & s1 & Hd & H).
      eapply Hstep; [exact Hd|]. eapply IH; [|exact H]. lia.
Qed.

(** X9: [parse_regex] returns a node only for a pattern whose parentheses
    are balanced: read from left to right, no [')'] comes without an open
    ['('] and none is left open at the end.  (An escaped parenthesis
    counts like an unescaped one.) *)
Theorem parse_regex_needs_balanced_parens pattern s root s' :
  parse_regex pattern s = Ok root s' ->
  paren_depth (dispatched pattern) 0 = Some 0.
Proof.
  unfold parse_regex. intros H.
  apply bind_Ok_inv in H as (l & s1 & Hloop & H).
  apply bind_Ok_inv in H as (operands1 & s2 & Hflush & _).
  apply flush_loop_parens in Hflush.
  apply (parse_loop_parens (String.length pattern)) in Hloop; [|done].
  simpl in Hloop. by rewrite Hflush in Hloop.
Qed.

Lemma parse_regex_needs_balanced_parens_witness :
  paren_depth (dispatched "(a|b)+") 0 = Some 0.
Proof.
  refine (parse_regex_needs_balanced_parens "(a|b)+" initial_state (Some 4)
            a_or_b_plus_store _).
  vm_compute; reflexivity.
Defined.

(** *** Plain patterns match themselves *)

Lemma plain_spec c :
  plain c = true ->
  Ascii.eqb c "\" = false /\ Ascii.eqb c "(" = false /\ Ascii.eqb c ")" = false
  /\ Ascii.eqb c "*" = false /\ Ascii.eqb c "+" = false
  /\ Ascii.eqb c "?" = false /\ Ascii.eqb c "|" = false.
Proof.
  unfold plain, metacharacters. cbn [forallb].
  rewrite !andb_true_iff, !negb_true_iff. tauto.
Qed.

(** A plain character on an empty operand stack: its [Char] is pushed. *)
Lemma dispatch_plain_first c s :
  plain c = true ->
  dispatch c (mkLocals [] [] None) s
  = (let* r := alloc (Char c) in ret (mkLocals [r] [] r)) s.
Proof.
  intros Hc. destruct (plain_spec c Hc) as (_ & E1 & E2 & E3 & E4 & E5 & E6).
  unfold dispatch. rewrite E1, E2, E3, E4, E5, E6. reflexivity.
Qed.

(** A plain character after a single operand: ['.'] is pushed. *)
Lemma dispatch_plain_second c p0 x s :
  plain c = true ->
  dispatch c (mkLocals [p0] [] (Some x)) s
  = (let* r := alloc (Char c) in ret (mkLocals [r; p0] ["."%char] r)) s.
Proof.
  intros Hc. destruct (plain_spec c Hc) as (_ & E1 & E2 & E3 & E4 & E5 & E6).
  unfold dispatch. rewrite E1, E2, E3, E4, E5, E6. reflexivity.
Qed.

(** A plain character with a ['.'] pending: the pending concatenation is
    applied first. *)
Lemma dispatch_plain_next c pk acc x s :
  plain c = true ->
  dispatch c (mkLocals [pk; acc] ["."%char] (Some x)) s
  = (let* r := alloc (Char c) in
     let* acc' := Concat_create acc pk in
     ret (mkLocals [r; acc'] ["."%char] r)) s.
Proof.
  intros Hc. destruct (plain_spec c Hc) as (_ & E1 & E2 & E3 & E4 & E5 & E6).
  unfold dispatch. rewrite E1, E2, E3, E4, E5, E6.
  unfold bind, ret, alloc. cbn. unfold bind, ret, top, pop. cbn.
  match goal with |- context [Concat_create acc pk ?s1] =>
    destruct (Concat_create acc pk s1) end; reflexivity.
Qed.

Lemma alloc_Char_total c s :
  wf s ->
  exists s1,
    alloc (Char c) s = Ok (Some (length (heap s))) s1
    /\ wf s1 /\ State_le s s1 /\ valid s1 (Some (length (heap s)))
    /\ forall w, lang (heap s1) (Some (length (heap s))) w <-> w = [c].
Proof.
  intros Hwf.
  destruct (agree_alloc s (Char c) Hwf I) as (p & s1 & H1 & _ & Hwf1 & Hle & -> & Hp).
  exists s1. split; [done|]. split; [done|]. split; [done|].
  split; [by eapply cached_ok_valid|]. intros w. by apply lang_Char_iff.
Qed.

Lemma Concat_create_total s a b :
  wf s -> valid s a -> valid s b ->
  exists p s',
    Concat_create a b s = Ok p s' /\ wf s' /\ State_le s s' /\ valid s' p
    /\ forall w, lang (heap s') p w
                 <-> exists w1 w2, w = w1 ++ w2 /\ lang (heap s) a w1
                                   /\ lang (heap s) b w2.
Proof.
  intros Hwf Ha Hb.
  destruct (Concat_create_valid s a b Hwf Ha Hb)
    as (p & s' & H1 & _ & Hwf' & Hle & Hp).
  destruct (Concat_create_lang s a b Hwf Ha Hb p s' H1) as (_ & _ & _ & Hl).
  exists p, s'. split; [done|]. split; [done|]. split; [done|]. split; [done|].
  intros w. rewrite Hl.
  split; intros (w1 & w2 & -> & L1 & L2); exists w1, w2;
    (split; [done|]); split; by apply (lang_le_iff s s').
Qed.

Lemma scan_and_flush_cons c rest l s :
  Ascii.eqb c "\" = false ->
  scan_and_flush (String c rest) l s
  = (let* l' := dispatch c l in scan_and_flush rest l') s.
Proof.
  intros Hc. unfold scan_and_flush. cbn [parse_loop]. rewrite Hc.
  apply bind_assoc.
Qed.

(** With a ['.'] pending between an operand for the word [u] and a
    [Char k], the rest of a plain pattern is appended letter by letter. *)
Lemma scan_plain_tail rest :
  all_plain rest = true ->
  forall s acc x u k,
    wf s -> valid s acc -> valid s (Some x) ->
    (forall w, lang (heap s) acc w <-> w = u) ->
    (forall w, lang (heap s) (Some x) w <-> w = [k]) ->
    exists root s',
      scan_and_flush rest (mkLocals [Some x; acc] ["."%char] (Some x)) s
      = Ok [root] s'
      /\ wf s' /\ State_le s s' /\ valid s' root
      /\ forall w, lang (heap s') root w
                   <-> w = u ++ k :: list_ascii_of_string rest.
Proof.
  induction rest as [|c rest IH]; intros Hplain s acc x u k Hwf Hacc Hx Lacc Lx.
  - destruct (Concat_create_total s acc (Some x) Hwf Hacc Hx)
      as (root & s' & H1 & Hwf' & Hle & Hroot & Hl).
    exists root, s'. split; [|split; [done|split; [done|split; [done|]]]].
    + unfold scan_and_flush. cbn [parse_loop]. rewrite bind_ret_l.
      cbn [ops operands flush_loop]. simpl.
      change (apply_op "." [Some x; acc])
        with (let* r := Concat_create acc (Some x) in ret [r]).
      rewrite bind_assoc. by rewrite (bind_Ok _ _ _ _ _ H1).
    + intros w. rewrite Hl. split.
      * intros (w1 & w2 & -> & L1 & L2). apply Lacc in L1. apply Lx in L2.
        by subst.
      * intros ->. exists u, [k]. split; [done|]. split; [by apply Lacc|by apply Lx].
  - simpl in Hplain. apply andb_true_iff in Hplain as [Hc Hrest].
    destruct (plain_spec c Hc) as (Hesc & _).
    destruct (alloc_Char_total c s Hwf) as (s1 & Halloc & Hwf1 & Hle1 & Hr & Lr).
    assert (Hacc1 : valid s1 acc) by (by eapply valid_le).
    assert (Hx1 : valid s1 (Some x)) by (by eapply valid_le).
    destruct (Concat_create_total s1 acc (Some x) Hwf1 Hacc1 Hx1)
      as (acc' & s2 & Hcat & Hwf2 & Hle2 & Hacc' & Lacc').
    destruct (IH Hrest s2 acc' (length (heap s)) (u ++ [k]) c)
      as (root & s3 & Hscan & Hwf3 & Hle3 & Hroot & Lroot).
    + done.
    + done.
    + by eapply valid_le.
    + intros w. rewrite Lacc'. split.
      * intros (w1 & w2 & -> & L1 & L2).
        apply (lang_le_iff s s1) in L1; [|done..].
        apply (lang_le_iff s s1) in L2; [|done..].
        apply Lacc in L1. apply Lx in L2. by subst.
      * intros ->. exists u, [k]. split; [done|].
        split; apply (lang_le_iff s s1); try done; [by apply Lacc|by apply Lx].
    + intros w. rewrite (lang_le_iff s1 s2) by done. apply Lr.
    + exists root, s3. split; [|split; [done|split; [|split; [done|]]]].
      * rewrite scan_and_flush_cons by done.
        rewrite (bind_Ok _ _ _
                   (mkLocals [Some (length (heap s)); acc'] ["."%char]
                             (Some (length (heap s)))) s2); [done|].
        rewrite dispatch_plain_next by done.
        rewrite (bind_Ok _ _ _ _ _ Halloc). by rewrite (bind_Ok _ _ _ _ _ Hcat).
      * etrans; [exact Hle1|]. by etrans.
      * intros w. rewrite Lroot. by rewrite <- app_assoc.
Qed.

Lemma parse_regex_scan pattern s operands0 s' :
  scan_and_flush pattern (mkLocals [] [] None) s = Ok operands0 s' ->
  parse_regex pattern s
  = (if decide (length operands0 = 1) then top operands0
     else throw "Invalid regex") s'.
Proof.
  intros H. unfold parse_regex. rewrite <- bind_assoc.
  by rewrite (bind_Ok _ _ _ _ _ H).
Qed.

Lemma scan_plain pattern s :
  all_plain pattern = true -> pattern <> "" -> wf s ->
  exists root s',
    scan_and_flush pattern (mkLocals [] [] None) s = Ok [root] s'
    /\ wf s' /\ State_le s s' /\ valid s' root
    /\ forall w, lang (heap s') root w <-> w = list_ascii_of_string pattern.
Proof.
  intros Hplain Hne Hwf. destruct pattern as [|c0 rest]; [done|].
  simpl in Hplain. apply andb_true_iff in Hplain as [Hc0 Hrest].
  destruct (plain_spec c0 Hc0) as (Hesc0 & _).
  destruct (alloc_Char_total c0 s Hwf) as (s1 & Halloc0 & Hwf1 & Hle1 & Hr0 & L0).
  destruct rest as [|c1 rest].
  - exists (Some (length (heap s))), s1.
    split; [|done]. rewrite scan_and_flush_cons by done.
    rewrite (bind_Ok _ _ _ (mkLocals [Some (length (heap s))] []
                                     (Some (length (heap s)))) s1); [done|].
    rewrite dispatch_plain_first by done. by rewrite (bind_Ok _ _ _ _ _ Halloc0).
  - simpl in Hrest. apply andb_true_iff in Hrest as [Hc1 Hrest].
    destruct (plain_spec c1 Hc1) as (Hesc1 & _).
    destruct (alloc_Char_total c1 s1 Hwf1) as (s2 & Halloc1 & Hwf2 & Hle2 & Hr1 & L1).
    destruct (scan_plain_tail rest Hrest s2 (Some (length (heap s)))
                (length (heap s1)) [c0] c1)
      as (root & s3 & Hscan & Hwf3 & Hle3 & Hroot & Lroot); [done| |done| |done|].
    { by eapply valid_le. }
    { intros w. rewrite (lang_le_iff s1 s2) by done. apply L0. }
    exists root, s3. split; [|split; [done|split; [|split; [done|]]]].
    + rewrite scan_and_flush_cons by done.
      rewrite (bind_Ok _ _ _ (mkLocals [Some (length (heap s))] []
                                       (Some (length (heap s)))) s1).
      2: { rewrite dispatch_plain_first by done.
           by rewrite (bind_Ok _ _ _ _ _ Halloc0). }
      rewrite scan_and_flush_cons by done.
      rewrite (bind_Ok _ _ _
                 (mkLocals [Some (length (heap s1)); Some (length (heap s))]
                           ["."%char] (Some (length (heap s1)))) s2); [done|].
      rewrite dispatch_plain_second by done.
      by rewrite (bind_Ok _ _ _ _ _ Halloc1).
    + etrans; [exact Hle1|]. by etrans.
    + intros w. by rewrite Lroot.
Qed.

Lemma list_ascii_of_string_inj s1 s2 :
  list_ascii_of_string s1 = list_ascii_of_string s2 -> s1 = s2.
Proof.
  intros H. rewrite <- (string_of_list_ascii_of_string s1).
  rewrite <- (string_of_list_ascii_of_string s2). by rewrite H.
Qed.

(** X10: a non-empty pattern without metacharacters is accepted from
    every well-formed store; its node stands for the pattern itself as the
    only word, and [is_match] on that node returns true for the pattern
    and false for every other text. *)
Theorem plain_pattern_matches_itself order pattern s :
  all_plain pattern = true -> pattern <> "" -> wf s ->
  exists root s',
    parse_regex pattern s = Ok root s' /\ wf s' /\ valid s' root
    /\ (forall w, lang (heap s') root w <-> w = list_ascii_of_string pattern)
    /\ forall text, exists v s'',
         is_match order root text s' = Ok v s'' /\ (v = true <-> text = pattern).
Proof.
  intros Hplain Hne Hwf.
  destruct (scan_plain pattern s Hplain Hne Hwf)
    as (root & s' & Hscan & Hwf' & Hle & Hroot & Hl).
  exists root, s'. split; [by rewrite (parse_regex_scan _ _ _ _ Hscan)|].
  split; [done|]. split; [done|]. split; [done|].
  intros text.
  destruct (is_match_total_lang order s' root text Hwf' Hroot) as (v & s'' & Hm & Hv).
  exists v, s''. split; [done|]. rewrite Hv, Hl. split.
  - apply list_ascii_of_string_inj.
  - by intros ->.
Qed.

Lemma plain_pattern_matches_itself_witness :
  all_plain "abc" = true /\ "abc" <> "" /\ wf initial_state
  /\ exists root s',
       parse_regex "abc" initial_state = Ok root s' /\ wf s' /\ valid s' root
       /\ (forall w, lang (heap s') root w <-> w = list_ascii_of_string "abc")
       /\ forall text, exists v s'',
            is_match LeftToRight root text s' = Ok v s''
            /\ (v = true <-> text = "abc").
Proof.
  assert (H1 : all_plain "abc" = true) by reflexivity.
  assert (H2 : "abc" <> "") by discriminate.
  assert (H3 : wf initial_state)
    by (apply (bool_decide_unpack _); vm_compute; exact I).
  split; [exact H1|]. split; [exact H2|]. split; [exact H3|].
  exact (plain_pattern_matches_itself LeftToRight "abc" initial_state H1 H2 H3).
Defined.

(** ** Interning is complete *)

Lemma kr_ret {A} (a : A) : keeps_registered (ret a).
Proof. by intros s a' s' Hs [= _ <-]. Qed.

Lemma kr_throw {A} what : keeps_registered (throw (A:=A) what).
Proof. by intros s a s' Hs H. Qed.

Lemma kr_undefined {A} : keeps_registered (undefined (A:=A)).
Proof. by intros s a s' Hs H. Qed.

Lemma kr_bind {A B} (m : M A) (k : A -> M B) :
  keeps_registered m -> (forall a, keeps_registered (k a)) ->
  keeps_registered (bind m k).
Proof.
  intros Hm Hk s b s' Hs H. apply bind_Ok_inv in H as (a & s1 & H1 & H2).
  eapply Hk; [|exact H2]. by eapply Hm.
Qed.

Lemma kr_deref p : keeps_registered (deref p).
Proof.
  intros s a s' Hs. unfold deref. destruct p as [x|]; [|done].
  destruct (heap s !! x); [|done]. by intros [= _ <-].
Qed.

Lemma kr_is_contain_eps p : keeps_registered (is_contain_eps p).
Proof. intros s v s' Hs H. by apply is_contain_eps_fuel_pure in H as ->. Qed.

(** Appending an object that needs no cache entry. *)
Lemma registered_snoc s obj ei pi :
  registered s ->
  match obj with Emp | Eps | Char _ => True | _ => False end ->
  registered (mkState (heap s ++ [obj]) ei pi
                      (Or_cache s) (Concat_cache s) (Star_cache s)).
Proof.
  intros Hs Hobj a obj' Ha. simpl in Ha.
  apply lookup_snoc_Some in Ha as [[_ Ha]|[_ <-]].
  - by apply Hs in Ha.
  - by destruct obj.
Qed.

Lemma kr_alloc_Char c : keeps_registered (alloc (Char c)).
Proof. intros s a s' Hs [= _ <-]. by apply registered_snoc. Qed.

Lemma kr_Emp_instance : keeps_registered Emp_instance.
Proof.
  intros s a s' Hs. unfold Emp_instance.
  destruct (Emp_inst s); intros [= _ <-]; [done|]. by apply registered_snoc.
Qed.

Lemma kr_Eps_instance : keeps_registered Eps_instance.
Proof.
  intros s a s' Hs. unfold Eps_instance.
  destruct (Eps_inst s); intros [= _ <-]; [done|]. by apply registered_snoc.
Qed.

Lemma kr_Or_create a b : keeps_registered (Or_create a b).
Proof.
  unfold Or_create. destruct a as [x|]; [|apply kr_ret].
  destruct b as [y|]; [|apply kr_ret].
  case_decide; [apply kr_ret|].
  intros s p s' Hs. unfold bind, Or_cache_find, alloc, Or_cache_store, ret.
  destruct (Or_cache s !! _) eqn:Hfind; intros [= _ <-]; [done|].
  intros a obj Ha. simpl in Ha. apply lookup_snoc_Some in Ha as [[_ Ha]|[-> <-]].
  - apply Hs in Ha. destruct obj as [| | |r1 r2| |]; try done. simpl.
    rewrite lookup_insert_ne; [done|]. intros Heq. rewrite <- Heq in Ha. congruence.
  - simpl. apply lookup_insert_eq.
Qed.

Lemma kr_Concat_create a b : keeps_registered (Concat_create a b).
Proof.
  unfold Concat_create. destruct a as [x|]; [|apply kr_ret].
  destruct b as [y|]; [|apply kr_ret].
  intros s p s' Hs. unfold bind, Concat_cache_find, alloc, Concat_cache_store, ret.
  destruct (Concat_cache s !! _) eqn:Hfind; intros [= _ <-]; [done|].
  intros a obj Ha. simpl in Ha. apply lookup_snoc_Some in Ha as [[_ Ha]|[-> <-]].
  - apply Hs in Ha. destruct obj as [| | | |r1 r2|]; try done. simpl.
    rewrite lookup_insert_ne; [done|]. intros Heq. rewrite <- Heq in Ha. congruence.
  - simpl. apply lookup_insert_eq.
Qed.

Lemma kr_Star_create a : keeps_registered (Star_create a).
Proof.
  unfold Star_create. destruct a as [x|]; [|apply kr_Eps_instance].
  intros s p s' Hs. unfold bind, Star_cache_find, alloc, Star_cache_store, ret.
  destruct (Star_cache s !! _) eqn:Hfind; intros [= _ <-]; [done|].
  intros a obj Ha. simpl in Ha. apply lookup_snoc_Some in Ha as [[_ Ha]|[-> <-]].
  - apply Hs in Ha. destruct obj as [| | | | |r1]; try done. simpl.
    rewrite lookup_insert_ne; [done|]. intros Heq. rewrite <- Heq in Ha. congruence.
  - simpl. apply lookup_insert_eq.
Qed.

Lemma kr_args2 order {A B} (f : M A) (g : M B) :
  keeps_registered f -> keeps_registered g -> keeps_registered (args2 order f g).
Proof.
  intros Hf Hg. unfold args2. destruct order.
  - apply kr_bind; [done|]. intros a.
    apply kr_bind; [done|]. intros b. apply kr_ret.
  - apply kr_bind; [done|]. intros b.
    apply kr_bind; [done|]. intros a. apply kr_ret.
Qed.

Lemma kr_derive_body order call obj c :
  (forall p, keeps_registered (call p c)) ->
  keeps_registered (derive_body order call obj c).
Proof.
  intros Hcall. destruct obj as [| |c_|r1 r2|r1 r2|r1]; cbn [derive_body].
  - apply kr_Emp_instance.
  - apply kr_Emp_instance.
  - destruct (Ascii.eqb c_ c); [apply kr_Eps_instance | apply kr_Emp_instance].
  - apply kr_bind; [by apply kr_args2|]. intros [d1 d2]. apply kr_Or_create.
  - apply kr_bind; [apply kr_is_contain_eps|]. intros [|].
    + apply kr_bind.
      * apply kr_args2; [|done].
        apply kr_bind; [done|]. intros d1. apply kr_Concat_create.
      * intros [l d2]. apply kr_Or_create.
    + apply kr_bind; [done|]. intros d1. apply kr_Concat_create.
  - apply kr_bind.
    + apply kr_args2; [done|apply kr_Star_create].
    + intros [d1 st]. apply kr_Concat_create.
Qed.

Lemma kr_derive_fuel order fuel :
  forall p c, keeps_registered (derive_fuel order fuel p c).
Proof.
  induction fuel as [|fuel IH]; intros p c; [by intros s a s' Hs H|].
  cbn [derive_fuel]. apply kr_bind; [apply kr_deref|].
  intros obj. apply kr_derive_body. intros q. apply IH.
Qed.

Lemma kr_is_match order root text : keeps_registered (is_match order root text).
Proof.
  unfold is_match. apply kr_bind; [|intros final; apply kr_is_contain_eps].
  revert root. induction text as [|c text IH]; intros root; cbn [is_match_loop].
  - apply kr_ret.
  - apply kr_bind; [apply kr_derive_fuel|]. intros q. apply IH.
Qed.

Lemma kr_top {A} (stack : list A) : keeps_registered (top stack).
Proof. destruct stack; [apply kr_undefined|apply kr_ret]. Qed.

Lemma kr_pop {A} (stack : list A) : keeps_registered (pop stack).
Proof. destruct stack; [apply kr_undefined|apply kr_ret]. Qed.

Lemma kr_apply_op op operands0 : keeps_registered (apply_op op operands0).
Proof.
  unfold apply_op. destruct (Ascii.eqb op "|"); [|destruct (Ascii.eqb op ".")].
  - repeat (apply kr_bind; [first [apply kr_top|apply kr_pop|apply kr_Or_create]|];
            intros ?).
    apply kr_ret.
  - repeat (apply kr_bind;
            [first [apply kr_top|apply kr_pop|apply kr_Concat_create]|];
            intros ?).
    apply kr_ret.
  - apply kr_ret.
Qed.

Lemma kr_process_stack op ops0 :
  forall operands0, keeps_registered (process_stack op ops0 operands0).
Proof.
  induction ops0 as [|top_op ops0 IH]; intros operands0; cbn [process_stack].
  - apply kr_ret.
  - destruct (precedence top_op >=? precedence op)%Z; [|apply kr_ret].
    apply kr_bind; [apply kr_apply_op|]. intros ?. apply IH.
Qed.

Lemma kr_close_paren_loop ops0 :
  forall operands0, keeps_registered (close_paren_loop ops0 operands0).
Proof.
  induction ops0 as [|top_op ops0 IH]; intros operands0; cbn [close_paren_loop].
  - apply kr_ret.
  - destruct (Ascii.eqb top_op "("); [apply kr_ret|].
    apply kr_bind; [apply kr_apply_op|]. intros ?. apply IH.
Qed.

Lemma kr_flush_loop ops0 :
  forall operands0, keeps_registered (flush_loop ops0 operands0).
Proof.
  induction ops0 as [|top_op ops0 IH]; intros operands0; cbn [flush_loop].
  - apply kr_ret.
  - destruct (Ascii.eqb top_op "(" || Ascii.eqb top_op ")"); [apply kr_throw|].
    apply kr_bind; [apply kr_apply_op|]. intros ?. apply IH.
Qed.

Lemma kr_dispatch c l : keeps_registered (dispatch c l).
Proof.
  unfold dispatch.
  destruct (Ascii.eqb c "("); [apply kr_ret|].
  destruct (Ascii.eqb c ")").
  { apply kr_bind; [apply kr_close_paren_loop|]. intros [ops1 operands1].
    destruct ops1; [apply kr_throw|].
    apply kr_bind; [apply kr_top|]. intros ?. apply kr_ret. }
  destruct (Ascii.eqb c "*" || Ascii.eqb c "+" || Ascii.eqb c "?").
  { destruct (prev l); [|apply kr_throw].
    apply kr_bind; [apply kr_pop|]. intros operands1.
    apply kr_bind.
    - destruct (Ascii.eqb c "*").
      { apply kr_bind; [apply kr_Star_create|]. intros ?. apply kr_ret. }
      destruct (Ascii.eqb c "+").
      { apply kr_bind; [apply kr_Star_create|]. intros ?.
        apply kr_bind; [apply kr_Concat_create|]. intros ?. apply kr_ret. }
      destruct (Ascii.eqb c "?"); [|apply kr_ret].
      apply kr_bind; [apply kr_Eps_instance|]. intros ?.
      apply kr_bind; [apply kr_Or_create|]. intros ?. apply kr_ret.
    - intros ?. apply kr_bind; [apply kr_top|]. intros ?. apply kr_ret. }
  destruct (Ascii.eqb c "|").
  { apply kr_bind; [apply kr_process_stack|]. intros [? ?]. apply kr_ret. }
  apply kr_bind; [apply kr_alloc_Char|]. intros r.
  apply kr_bind.
  - destruct (prev l); [|apply kr_ret].
    apply kr_bind; [apply kr_process_stack|]. intros [? ?]. apply kr_ret.
  - intros [? ?]. apply kr_ret.
Qed.

Lemma kr_parse_loop pattern : forall l, keeps_registered (parse_loop pattern l).
Proof.
  assert (H : forall n pattern, String.length pattern <= n ->
            forall l, keeps_registered (parse_loop pattern l)).
  { clear pattern. induction n as [|n IH]; intros pattern Hn l.
    - destruct pattern; [apply kr_ret|simpl in Hn; lia].
    - destruct pattern as [|c rest]; [apply kr_ret|].
      simpl in Hn. cbn [parse_loop]. destruct (Ascii.eqb c "\").
      + destruct rest as [|c' rest']; [apply kr_throw|]. simpl in Hn.
        apply kr_bind; [apply kr_dispatch|]. intros l'. apply IH. lia.
      + apply kr_bind; [apply kr_dispatch|]. intros l'. apply IH. lia. }
  by apply (H (String.length pattern)).
Qed.

Lemma kr_parse_regex pattern : keeps_registered (parse_regex pattern).
Proof.
  unfold parse_regex. apply kr_bind; [apply kr_parse_loop|]. intros l.
  apply kr_bind; [apply kr_flush_loop|]. intros operands1.
  case_decide; [apply kr_top|apply kr_throw].
Qed.

Lemma reachable_wf_registered s : reachable s -> wf s /\ registered s.
Proof.
  induction 1 as [|s pattern root s' _ [Hwf Hreg] H
                  |s order p c q s' _ [Hwf Hreg] Hp H
                  |s order root text v s' _ [Hwf Hreg] Hroot H].
  - split; [apply wf_initial_state|]. by intros a obj Ha.
  - split; [by destruct (parse_regex_ok pattern s Hwf root s' H)|].
    by eapply kr_parse_regex.
  - split; [by destruct (derive_lang order s p c Hwf Hp q s' H)|].
    by eapply kr_derive_fuel.
  - split; [|by eapply kr_is_match].
    unfold is_match in H. apply bind_Ok_inv in H as (final & s1 & H1 & H2).
    apply is_contain_eps_fuel_pure in H2 as ->.
    by destruct (is_match_loop_lang order text s root Hwf Hroot final s1 H1).
Qed.

(** X11: interning is complete.  In every store a process can reach,
    two pointers to objects of the same class with the same operands are
    the same pointer, unless the objects are [Char]s: there is one [Emp],
    one [Eps], and one [Or], [Concat] or [Star] per operands. *)
Theorem no_duplicate_nodes s a b obj :
  reachable s ->
  heap s !! a = Some obj -> heap s !! b = Some obj ->
  (forall c, obj <> Char c) ->
  a = b.
Proof.
  intros Hs Ha Hb Hobj. destruct (reachable_wf_registered s Hs) as [Hwf Hreg].
  pose proof (Hreg a obj Ha) as Ra. pose proof (Hreg b obj Hb) as Rb.
  pose proof (proj1 (heap_ok_lookup s) (wf_heap s Hwf) a obj Ha) as Oa.
  pose proof (proj1 (heap_ok_lookup s) (wf_heap s Hwf) b obj Hb) as Ob.
  destruct obj as [| |c|r1 r2|r1 r2|r1]; simpl in *; congruence.
Qed.

Lemma no_duplicate_nodes_witness :
  reachable ab_star_store
  /\ heap ab_star_store !! 2 = Some (Star (Some 1))
  /\ 2 = 2.
Proof.
  assert (Hs : reachable ab_star_store).
  { apply (reachable_parse initial_state "ab*" (Some 3));
      [apply reachable_initial|vm_compute; reflexivity]. }
  split; [exact Hs|]. split; [reflexivity|].
  apply (no_duplicate_nodes ab_star_store 2 2 (Star (Some 1)) Hs);
    [reflexivity|reflexivity|discriminate].
Defined.

(** ** Reachable stores *)

(** X12: every store a process can reach is well formed, and from such
    a store [parse_regex], when it returns, returns a valid pointer in a
    well-formed store that extends the one it started in. *)
Theorem reachable_stores_are_well_formed s :
  reachable s ->
  wf s
  /\ forall pattern root s',
       parse_regex pattern s = Ok root s' ->
       wf s' /\ valid s' root /\ State_le s s'.
Proof.
  intros Hs. destruct (reachable_wf_registered s Hs) as [Hwf _].
  split; [done|]. intros pattern root s' H.
  destruct (parse_regex_ok pattern s Hwf root s' H) as (? & ? & ?). auto.
Qed.

Lemma reachable_stores_are_well_formed_witness :
  reachable ab_star_store
  /\ wf ab_star_store
  /\ forall pattern root s',
       parse_regex pattern ab_star_store = Ok root s' ->
       wf s' /\ valid s' root /\ State_le ab_star_store s'.
Proof.
  assert (Hs : reachable ab_star_store).
  { apply (reachable_parse initial_state "ab*" (Some 3));
      [apply reachable_initial|vm_compute; reflexivity]. }
  split; [exact Hs|]. exact (reachable_stores_are_well_formed ab_star_store Hs).
Defined.

(** ** The program as a whole *)

(** No parser function runs out of fuel: none uses any. *)
Lemma parse_regex_not_OutOfFuel pattern s : parse_regex pattern s <> OutOfFuel.
Proof.
  assert (Hbind : forall A B (m : M A) (k : A -> M B) s0,
            m s0 <> OutOfFuel -> (forall a s1, k a s1 <> OutOfFuel) ->
            bind m k s0 <> OutOfFuel).
  { intros A B m k s0 Hm Hk. unfold bind. destruct (m s0); done. }
  assert (Hcreate : forall a b s0,
            Or_create a b s0 <> OutOfFuel /\ Concat_create a b s0 <> OutOfFuel
            /\ Star_create a s0 <> OutOfFuel /\ Eps_instance s0 <> OutOfFuel).
  { intros a b s0. unfold Or_create, Concat_create, Star_create, Eps_instance,
      bind, Or_cache_find, Concat_cache_find, Star_cache_find, alloc, ret.
    repeat split; destruct a, b; try done; try case_decide; try done;
      repeat (match goal with |- context [match ?x with _ => _ end] =>
                destruct x end; try done). }
  assert (Htop : forall A (st : list A) s0, top st s0 <> OutOfFuel).
  { intros A [|? ?] s0; done. }
  assert (Hpop : forall A (st : list A) s0, pop st s0 <> OutOfFuel).
  { intros A [|? ?] s0; done. }
  assert (Happly : forall op operands0 s0, apply_op op operands0 s0 <> OutOfFuel).
  { intros op operands0 s0. unfold apply_op.
    destruct (Ascii.eqb op "|"); [|destruct (Ascii.eqb op "."); [|done]].
    - apply Hbind; [apply Htop|]. intros b s1.
      apply Hbind; [apply Hpop|]. intros o1 s2.
      apply Hbind; [apply Htop|]. intros a s3.
      apply Hbind; [apply Hpop|]. intros o2 s4.
      apply Hbind; [apply Hcreate|]. done.
    - apply Hbind; [apply Htop|]. intros b s1.
      apply Hbind; [apply Hpop|]. intros o1 s2.
      apply Hbind; [apply Htop|]. intros a s3.
      apply Hbind; [apply Hpop|]. intros o2 s4.
      apply Hbind; [apply (Hcreate a b)|]. done. }
  assert (Hps : forall op ops0 operands0 s0,
            process_stack op ops0 operands0 s0 <> OutOfFuel).
  { intros op ops0. induction ops0 as [|t ops0 IH]; intros operands0 s0;
      cbn [process_stack]; [done|].
    destruct (precedence t >=? precedence op)%Z; [|done].
    apply Hbind; [apply Happly|]. intros. apply IH. }
  assert (Hcl : forall ops0 operands0 s0,
            close_paren_loop ops0 operands0 s0 <> OutOfFuel).
  { induction ops0 as [|t ops0 IH]; intros operands0 s0;
      cbn [close_paren_loop]; [done|].
    destruct (Ascii.eqb t "("); [done|].
    apply Hbind; [apply Happly|]. intros. apply IH. }
  assert (Hfl : forall ops0 operands0 s0,
            flush_loop ops0 operands0 s0 <> OutOfFuel).
  { induction ops0 as [|t ops0 IH]; intros operands0 s0;
      cbn [flush_loop]; [done|].
    destruct (Ascii.eqb t "(" || Ascii.eqb t ")"); [done|].
    apply Hbind; [apply Happly|]. intros. apply IH. }
  assert (Hd : forall c l s0, dispatch c l s0 <> OutOfFuel).
  { intros c l s0. unfold dispatch.
    destruct (Ascii.eqb c "("); [done|].
    destruct (Ascii.eqb c ")").
    { apply Hbind; [apply Hcl|]. intros [ops1 operands1] s1.
      destruct ops1; [done|]. apply Hbind; [apply Htop|]. done. }
    destruct (Ascii.eqb c "*" || Ascii.eqb c "+" || Ascii.eqb c "?").
    { destruct (prev l) as [x|]; [|done].
      apply Hbind; [apply Hpop|]. intros operands1 s1.
      apply Hbind.
      - destruct (Ascii.eqb c "*").
        { apply Hbind; [apply (Hcreate (Some x) None)|]. done. }
        destruct (Ascii.eqb c "+").
        { apply Hbind; [apply (Hcreate (Some x) None)|]. intros st s2.
          apply Hbind; [apply (Hcreate (Some x) st)|]. done. }
        destruct (Ascii.eqb c "?"); [|done].
        apply Hbind; [apply (Hcreate None None)|]. intros e s2.
        apply Hbind; [apply (Hcreate e (Some x))|]. done.
      - intros operands2 s2. apply Hbind; [apply Htop|]. done. }
    destruct (Ascii.eqb c "|").
    { apply Hbind; [apply Hps|]. by intros [? ?] s1. }
    apply Hbind; [done|]. intros r s1.
    apply Hbind.
    - destruct (prev l); [|done].
      apply Hbind; [apply Hps|]. by intros [? ?] s2.
    - by intros [? ?] s2. }
  assert (Hloop : forall n p l s0, String.length p <= n ->
            parse_loop p l s0 <> OutOfFuel).
  { induction n as [|n IH]; intros p l s0 Hn.
    - destruct p; [done|simpl in Hn; lia].
    - destruct p as [|c rest]; [done|]. simpl in Hn. cbn [parse_loop].
      destruct (Ascii.eqb c "\").
      + destruct rest as [|c' rest']; [done|]. simpl in Hn.
        apply Hbind; [apply Hd|]. intros. apply IH. lia.
      + apply Hbind; [apply Hd|]. intros. apply IH. lia. }
  unfold parse_regex. apply Hbind; [by apply (Hloop (String.length pattern))|].
  intros l s1. apply Hbind; [apply Hfl|]. intros operands1 s2.
  case_decide; [apply Htop|done].
Qed.


(** ** Plain words inside a larger pattern *)

Lemma process_stack_dot_stops ops0 operands0 s :
  dot_stops ops0 ->
  process_stack "." ops0 operands0 s = Ok (ops0, operands0) s.
Proof.
  destruct ops0 as [|t ops0]; [done|]. simpl. intros ->. done.
Qed.

(** A plain character where an operand is expected. *)
Lemma dispatch_plain_fresh c below ops0 s :
  plain c = true ->
  dispatch c (mkLocals below ops0 None) s
  = (let* r := alloc (Char c) in ret (mkLocals (r :: below) ops0 r)) s.
Proof.
  intros Hc. destruct (plain_spec c Hc) as (_ & E1 & E2 & E3 & E4 & E5 & E6).
  unfold dispatch. rewrite E1, E2, E3, E4, E5, E6. reflexivity.
Qed.

(** A plain character after an operand, nothing to reduce before it. *)
Lemma dispatch_plain_after c below ops0 x s :
  plain c = true -> dot_stops ops0 ->
  dispatch c (mkLocals below ops0 (Some x)) s
  = (let* r := alloc (Char c) in
     ret (mkLocals (r :: below) ("."%char :: ops0) r)) s.
Proof.
  intros Hc Hstop. destruct (plain_spec c Hc) as (_ & E1 & E2 & E3 & E4 & E5 & E6).
  unfold dispatch. rewrite E1, E2, E3, E4, E5, E6. cbn [orb].
  unfold bind, alloc. cbn [prev ops operands].
  by rewrite process_stack_dot_stops.
Qed.

(** A plain character after an operand, with a ['.'] pending. *)
Lemma dispatch_plain_pending c pk acc below ops0 x s :
  plain c = true -> dot_stops ops0 ->
  dispatch c (mkLocals (pk :: acc :: below) ("."%char :: ops0) (Some x)) s
  = (let* r := alloc (Char c) in
     let* acc' := Concat_create acc pk in
     ret (mkLocals (r :: acc' :: below) ("."%char :: ops0) r)) s.
Proof.
  intros Hc Hstop. destruct (plain_spec c Hc) as (_ & E1 & E2 & E3 & E4 & E5 & E6).
  unfold dispatch. rewrite E1, E2, E3, E4, E5, E6. cbn [orb].
  unfold bind, ret, alloc. cbn. unfold bind, ret, top, pop. cbn.
  match goal with |- context [Concat_create acc pk ?s1] =>
    destruct (Concat_create acc pk s1) as [acc' s2| | |] end; try reflexivity.
  by rewrite process_stack_dot_stops.
Qed.

Lemma only_le s s' p u :
  wf s' -> State_le s s' -> valid s p ->
  only (lang (heap s) p) u -> only (lang (heap s') p) u.
Proof.
  intros Hwf Hle Hp Hu v. rewrite (lang_le_iff s s') by done. apply Hu.
Qed.

Lemma parse_loop_cons c rest l s :
  Ascii.eqb c "\" = false ->
  parse_loop (String c rest) l s
  = (let* l' := dispatch c l in parse_loop rest l') s.
Proof. intros Hc. cbn [parse_loop]. by rewrite Hc. Qed.

(** The first letter of a word. *)
Lemma word_first c below ops_below s :
  plain c = true -> wf s ->
  exists l' s',
    dispatch c (mkLocals below ops_below None) s = Ok l' s'
    /\ wf s' /\ State_le s s' /\ word_shape s' below ops_below [] c l'.
Proof.
  intros Hc Hwf.
  destruct (alloc_Char_total c s Hwf) as (s1 & Halloc & Hwf1 & Hle1 & Hr & Lr).
  eexists _, s1. split; [|split; [done|split; [done|]]].
  - rewrite dispatch_plain_fresh by done. by rewrite (bind_Ok _ _ _ _ _ Halloc).
  - by eapply shape_single.
Qed.

(** One more letter. *)
Lemma word_step c below ops_below u k l s :
  plain c = true -> dot_stops ops_below -> wf s ->
  word_shape s below ops_below u k l ->
  exists l' s',
    dispatch c l s = Ok l' s'
    /\ wf s' /\ State_le s s' /\ word_shape s' below ops_below (u ++ [k]) c l'.
Proof.
  intros Hc Hstop Hwf [x -> -> Hx Lx|x acc -> Hx Lx Hacc Lacc].
  - destruct (alloc_Char_total c s Hwf) as (s1 & Halloc & Hwf1 & Hle1 & Hr & Lr).
    eexists _, s1. split; [|split; [done|split; [done|]]].
    + rewrite dispatch_plain_after by done.
      by rewrite (bind_Ok _ _ _ _ _ Halloc).
    + eapply shape_pending; [done|done|done|by eapply valid_le|].
      by eapply only_le.
  - destruct (alloc_Char_total c s Hwf) as (s1 & Halloc & Hwf1 & Hle1 & Hr & Lr).
    assert (Hacc1 : valid s1 acc) by (by eapply valid_le).
    assert (Hx1 : valid s1 (Some x)) by (by eapply valid_le).
    destruct (Concat_create_total s1 acc (Some x) Hwf1 Hacc1 Hx1)
      as (acc' & s2 & Hcat & Hwf2 & Hle2 & Hacc' & Lacc').
    eexists _, s2. split; [|split; [done|split; [by etrans|]]].
    + rewrite dispatch_plain_pending by done.
      rewrite (bind_Ok _ _ _ _ _ Halloc). by rewrite (bind_Ok _ _ _ _ _ Hcat).
    + eapply shape_pending; [done|by eapply valid_le|by eapply only_le|done|].
      intros w. rewrite Lacc'. split.
      * intros (w1 & w2 & -> & L1 & L2).
        apply (only_le s s1 _ _ Hwf1 Hle1 Hacc Lacc) in L1.
        apply (only_le s s1 _ _ Hwf1 Hle1 Hx Lx) in L2. by subst.
      * intros ->. exists u, [k]. split; [done|]. split.
        -- by apply (only_le s s1 _ _ Hwf1 Hle1 Hacc Lacc).
        -- by apply (only_le s s1 _ _ Hwf1 Hle1 Hx Lx).
Qed.

(** The remaining letters of a word. *)
Lemma word_tail below ops_below rest :
  all_plain rest = true -> dot_stops ops_below ->
  forall s l u k,
    wf s -> word_shape s below ops_below u k l ->
    exists l' s' u' k',
      parse_loop rest l s = Ok l' s'
      /\ wf s' /\ State_le s s' /\ word_shape s' below ops_below u' k' l'
      /\ u' ++ [k'] = u ++ k :: list_ascii_of_string rest.
Proof.
  intros Hplain Hstop. induction rest as [|c rest IH]; intros s l u k Hwf Hshape.
  - exists l, s, u, k. split; [done|]. split; [done|].
    split; [apply State_le_refl|]. done.
  - simpl in Hplain. apply andb_true_iff in Hplain as [Hc Hrest].
    destruct (plain_spec c Hc) as (Hesc & _).
    destruct (word_step c below ops_below u k l s Hc Hstop Hwf Hshape)
      as (l1 & s1 & Hd & Hwf1 & Hle1 & Hshape1).
    destruct (IH Hrest s1 l1 (u ++ [k]) c Hwf1 Hshape1)
      as (l2 & s2 & u' & k' & Hloop & Hwf2 & Hle2 & Hshape2 & Hw).
    exists l2, s2, u', k'. split; [|split; [done|split; [by etrans|split; [done|]]]].
    + rewrite parse_loop_cons by done. by rewrite (bind_Ok _ _ _ _ _ Hd).
    + rewrite Hw. by rewrite <- app_assoc.
Qed.

(** A whole plain word, scanned where an operand is expected. *)
Lemma word_scan p below ops_below s :
  all_plain p = true -> p <> "" -> dot_stops ops_below -> wf s ->
  exists l' s' u k,
    parse_loop p (mkLocals below ops_below None) s = Ok l' s'
    /\ wf s' /\ State_le s s' /\ word_shape s' below ops_below u k l'
    /\ u ++ [k] = list_ascii_of_string p.
Proof.
  intros Hplain Hne Hstop Hwf. destruct p as [|c rest]; [done|].
  simpl in Hplain. apply andb_true_iff in Hplain as [Hc Hrest].
  destruct (plain_spec c Hc) as (Hesc & _).
  destruct (word_first c below ops_below s Hc Hwf)
    as (l1 & s1 & Hd & Hwf1 & Hle1 & Hshape1).
  destruct (word_tail below ops_below rest Hrest Hstop s1 l1 [] c Hwf1 Hshape1)
    as (l2 & s2 & u & k & Hloop & Hwf2 & Hle2 & Hshape2 & Hw).
  exists l2, s2, u, k. split; [|split; [done|split; [by etrans|done]]].
  rewrite parse_loop_cons by done. by rewrite (bind_Ok _ _ _ _ _ Hd).
Qed.

(** What is left of a scanned word once its pending ['.'] is applied: one
    operand for the whole word.  The three loops that pop the operator
    stack go on below the word as if that operand had been pushed. *)
Lemma word_value below ops_below u k l s :
  wf s -> word_shape s below ops_below u k l ->
  exists w s',
    wf s' /\ State_le s s' /\ valid s' w
    /\ only (lang (heap s') w) (u ++ [k])
    /\ process_stack "|" (ops l) (operands l) s
       = process_stack "|" ops_below (w :: below) s'
    /\ close_paren_loop (ops l) (operands l) s
       = close_paren_loop ops_below (w :: below) s'
    /\ flush_loop (ops l) (operands l) s
       = flush_loop ops_below (w :: below) s'.
Proof.
  intros Hwf [x -> -> Hx Lx|x acc -> Hx Lx Hacc Lacc].
  - exists (Some x), s. split; [done|]. split; [apply State_le_refl|].
    split; [done|]. by split.
  - destruct (Concat_create_total s acc (Some x) Hwf Hacc Hx)
      as (w & s' & Hcat & Hwf' & Hle & Hw & Lw).
    assert (Happly : forall (k0 : list RegexPtr -> M (list ascii * list RegexPtr)),
              (let* operands0 := apply_op "." (Some x :: acc :: below) in
               k0 operands0) s = k0 (w :: below) s').
    { intros k0.
      change (apply_op "." (Some x :: acc :: below))
        with (let* r := Concat_create acc (Some x) in ret (r :: below)).
      rewrite bind_assoc. by rewrite (bind_Ok _ _ _ _ _ Hcat). }
    assert (Happly' : forall (k0 : list RegexPtr -> M (list RegexPtr)),
              (let* operands0 := apply_op "." (Some x :: acc :: below) in
               k0 operands0) s = k0 (w :: below) s').
    { intros k0.
      change (apply_op "." (Some x :: acc :: below))
        with (let* r := Concat_create acc (Some x) in ret (r :: below)).
      rewrite bind_assoc. by rewrite (bind_Ok _ _ _ _ _ Hcat). }
    exists w, s'. split; [done|]. split; [done|]. split; [done|]. split.
    + intros v. rewrite Lw. split.
      * intros (w1 & w2 & -> & L1 & L2). apply Lacc in L1. apply Lx in L2.
        by subst.
      * intros ->. exists u, [k]. split; [done|].
        split; [by apply Lacc|by apply Lx].
    + cbn [ops operands process_stack close_paren_loop flush_loop].
      split; [|split].
      * change (precedence "." >=? precedence "|")%Z with true. cbv iota.
        apply Happly.
      * change (Ascii.eqb "." "(") with false. cbv iota. apply Happly.
      * change (Ascii.eqb "." "(" || Ascii.eqb "." ")") with false. cbv iota.
        apply Happly'.
Qed.

Lemma Or_create_total s a b :
  wf s -> valid s a -> valid s b ->
  exists p s',
    Or_create a b s = Ok p s' /\ wf s' /\ State_le s s' /\ valid s' p
    /\ forall w, lang (heap s') p w <-> lang (heap s) a w \/ lang (heap s) b w.
Proof.
  intros Hwf Ha Hb.
  destruct (Or_create_valid s a b Hwf Ha Hb) as (p & s' & H1 & _ & Hwf' & Hle & Hp).
  destruct (Or_create_lang s a b Hwf Ha Hb p s' H1) as (_ & _ & _ & Hl).
  exists p, s'. split; [done|]. split; [done|]. split; [done|]. split; [done|].
  intros w. by rewrite Hl, !(lang_le_iff s s').
Qed.

Lemma dispatch_bar l s :
  dispatch "|" l s
  = (let* '(ops1, operands1) := process_stack "|" (ops l) (operands l) in
     ret (mkLocals operands1 ("|"%char :: ops1) None)) s.
Proof. reflexivity. Qed.

Lemma parse_regex_unfold pattern s l s1 :
  parse_loop pattern (mkLocals [] [] None) s = Ok l s1 ->
  parse_regex pattern s
  = (let* operands0 := flush_loop (ops l) (operands l) in
     if decide (length operands0 = 1) then top operands0
     else throw "Invalid regex") s1.
Proof. intros H. unfold parse_regex. by rewrite (bind_Ok _ _ _ _ _ H). Qed.

(** X14: two non-empty plain words joined by ['|'] are accepted from
    every well-formed store; the node stands for exactly the two words, and
    [is_match] on it returns true for these two texts and false for every
    other. *)
Theorem alternation_of_plain_words order p1 p2 s :
  all_plain p1 = true -> p1 <> "" -> all_plain p2 = true -> p2 <> "" -> wf s ->
  exists root s',
    parse_regex (p1 +:+ String "|" p2) s = Ok root s' /\ wf s' /\ valid s' root
    /\ (forall w, lang (heap s') root w
                  <-> w = list_ascii_of_string p1 \/ w = list_ascii_of_string p2)
    /\ forall text, exists v s'',
         is_match order root text s' = Ok v s''
         /\ (v = true <-> text = p1 \/ text = p2).
Proof.
  intros Hp1 Hn1 Hp2 Hn2 Hwf.
  destruct (word_scan p1 [] [] s Hp1 Hn1 I Hwf)
    as (l1 & s1 & u1 & k1 & Hloop1 & Hwf1 & Hle1 & Hshape1 & Hw1).
  destruct (word_value [] [] u1 k1 l1 s1 Hwf1 Hshape1)
    as (w1 & s1' & Hwf1' & Hle1' & Hv1 & L1 & Hps1 & _ & _).
  rewrite Hw1 in L1.
  assert (Hstop : dot_stops ["|"%char]) by reflexivity.
  destruct (word_scan p2 [w1] ["|"%char] s1' Hp2 Hn2 Hstop Hwf1')
    as (l2 & s2 & u2 & k2 & Hloop2 & Hwf2 & Hle2 & Hshape2 & Hw2).
  destruct (word_value [w1] ["|"%char] u2 k2 l2 s2 Hwf2 Hshape2)
    as (w2 & s2' & Hwf2' & Hle2' & Hv2 & L2 & _ & _ & Hfl2).
  rewrite Hw2 in L2.
  assert (Hv1' : valid s2' w1).
  { apply (valid_le s1'); [by etrans|done]. }
  destruct (Or_create_total s2' w1 w2 Hwf2' Hv1' Hv2)
    as (root & s3 & Hor & Hwf3 & Hle3 & Hroot & Lroot).
  assert (Hlang : forall w, lang (heap s3) root w
                    <-> w = list_ascii_of_string p1 \/ w = list_ascii_of_string p2).
  { intros w. rewrite Lroot.
    rewrite (only_le s1' s2' w1 _ Hwf2' ltac:(by etrans) Hv1 L1 w).
    by rewrite (L2 w). }
  exists root, s3. split; [|split; [done|split; [done|split; [done|]]]].
  - assert (Hscan : parse_loop (p1 +:+ String "|" p2) (mkLocals [] [] None) s
                    = Ok l2 s2).
    { rewrite (parse_loop_app _ _ _ _ _ _ Hloop1).
      rewrite parse_loop_cons by done.
      rewrite (bind_Ok _ _ _ (mkLocals [w1] ["|"%char] None) s1'); [done|].
      rewrite dispatch_bar. unfold bind. by rewrite Hps1. }
    rewrite (parse_regex_unfold _ _ _ _ Hscan).
    unfold bind. rewrite Hfl2. cbn [flush_loop].
    change (Ascii.eqb "|" "(" || Ascii.eqb "|" ")") with false. cbv iota.
    change (apply_op "|" [w2; w1])
      with (let* r := Or_create w1 w2 in ret [r]).
    unfold bind. by rewrite Hor.
  - intros text.
    destruct (is_match_total_lang order s3 root text Hwf3 Hroot)
      as (v & s4 & Hm & Hv).
    exists v, s4. split; [done|]. rewrite Hv, Hlang. split.
    + intros [H|H]; [left|right]; by apply list_ascii_of_string_inj.
    + by intros [-> | ->]; [left|right].
Qed.

Lemma alternation_of_plain_words_witness :
  exists root s',
    parse_regex "ab|c" initial_state = Ok root s' /\ wf s' /\ valid s' root
    /\ (forall w, lang (heap s') root w
                  <-> w = list_ascii_of_string "ab" \/ w = list_ascii_of_string "c")
    /\ forall text, exists v s'',
         is_match LeftToRight root text s' = Ok v s''
         /\ (v = true <-> text = "ab" \/ text = "c").
Proof.
  apply (alternation_of_plain_words LeftToRight "ab" "c" initial_state).
  - reflexivity.
  - discriminate.
  - reflexivity.
  - discriminate.
  - apply (bool_decide_unpack _); vm_compute; exact I.
Defined.

(** ** Postfix operators *)

Lemma star_of_letter (L : list ascii -> Prop) k w :
  only L [k] ->
  (exists ws, w = concat ws /\ Forall L ws) <-> exists n, w = repeat k n.
Proof.
  intros HL. split.
  - intros (ws & -> & Hws). exists (length ws).
    induction Hws as [|w1 ws H1 _ IH]; [done|].
    apply HL in H1 as ->. simpl. by rewrite IH.
  - intros [n ->]. exists (repeat [k] n). split.
    + induction n as [|n IH]; [done|]. simpl. by rewrite IH.
    + induction n as [|n IH]; simpl; constructor; [by apply HL|done].
Qed.

Lemma Star_create_total s x k :
  wf s -> valid s (Some x) -> only (lang (heap s) (Some x)) [k] ->
  exists st s',
    Star_create (Some x) s = Ok st s' /\ wf s' /\ State_le s s' /\ valid s' st
    /\ forall w, lang (heap s') st w <-> exists n, w = repeat k n.
Proof.
  intros Hwf Hx Lx.
  destruct (Star_create_valid s (Some x) Hwf Hx)
    as (st & s' & H1 & _ & Hwf' & Hle & Hst).
  destruct (Star_create_lang s (Some x) Hwf Hx st s' H1) as (_ & _ & _ & q & -> & Hq).
  exists (Some q), s'. split; [done|]. split; [done|]. split; [done|].
  split; [done|]. intros w. rewrite lang_Star_iff by done.
  apply star_of_letter. by eapply only_le.
Qed.

Lemma dispatch_star x rest_operands ops0 s :
  dispatch "*" (mkLocals (Some x :: rest_operands) ops0 (Some x)) s
  = (let* r := Star_create (Some x) in
     ret (mkLocals (r :: rest_operands) ops0 r)) s.
Proof.
  unfold dispatch. cbn -[Star_create]. unfold bind, pop, ret.
  by destruct (Star_create (Some x) s).
Qed.

Lemma dispatch_plus x rest_operands ops0 s :
  dispatch "+" (mkLocals (Some x :: rest_operands) ops0 (Some x)) s
  = (let* st := Star_create (Some x) in
     let* r := Concat_create (Some x) st in
     ret (mkLocals (r :: rest_operands) ops0 r)) s.
Proof.
  unfold dispatch. cbn -[Star_create Concat_create]. unfold bind, pop, ret.
  destruct (Star_create (Some x) s) as [st s1| | |]; try done.
  by destruct (Concat_create (Some x) st s1).
Qed.

Lemma dispatch_question x rest_operands ops0 s :
  dispatch "?" (mkLocals (Some x :: rest_operands) ops0 (Some x)) s
  = (let* e := Eps_instance in
     let* r := Or_create e (Some x) in
     ret (mkLocals (r :: rest_operands) ops0 r)) s.
Proof.
  unfold dispatch. cbn -[Eps_instance Or_create]. unfold bind, pop, ret.
  destruct (Eps_instance s) as [e s1| | |]; try done.
  by destruct (Or_create e (Some x) s1).
Qed.

(** A postfix operator right after the [Char] of the letter [k]: the
    [Char] on top of the operand stack is replaced. *)
Lemma dispatch_postfix op x rest_operands ops0 s k :
  op = "*"%char \/ op = "+"%char \/ op = "?"%char ->
  wf s -> valid s (Some x) -> only (lang (heap s) (Some x)) [k] ->
  exists v s',
    dispatch op (mkLocals (Some x :: rest_operands) ops0 (Some x)) s
    = Ok (mkLocals (v :: rest_operands) ops0 v) s'
    /\ wf s' /\ State_le s s' /\ valid s' v
    /\ forall w, lang (heap s') v w <-> postfix_lang op k w.
Proof.
  intros [-> | [-> | ->]] Hwf Hx Lx.
  - destruct (Star_create_total s x k Hwf Hx Lx)
      as (st & s' & Hst & Hwf' & Hle & Hv & Lst).
    exists st, s'. split; [|done].
    rewrite dispatch_star. by rewrite (bind_Ok _ _ _ _ _ Hst).
  - destruct (Star_create_total s x k Hwf Hx Lx)
      as (st & s1 & Hst & Hwf1 & Hle1 & Hv1 & Lst).
    assert (Hx1 : valid s1 (Some x)) by (by eapply valid_le).
    destruct (Concat_create_total s1 (Some x) st Hwf1 Hx1 Hv1)
      as (v & s2 & Hcat & Hwf2 & Hle2 & Hv & Lv).
    exists v, s2. split; [|split; [done|split; [by etrans|split; [done|]]]].
    + rewrite dispatch_plus. rewrite (bind_Ok _ _ _ _ _ Hst).
      by rewrite (bind_Ok _ _ _ _ _ Hcat).
    + intros w. rewrite Lv. unfold postfix_lang. cbn. split.
      * intros (w1 & w2 & -> & L1 & L2).
        apply (only_le s s1 _ _ Hwf1 Hle1 Hx Lx) in L1 as ->.
        apply Lst in L2 as [n ->]. by exists n.
      * intros [n ->]. exists [k], (repeat k n). split; [done|].
        split; [by apply (only_le s s1 _ _ Hwf1 Hle1 Hx Lx)|].
        apply Lst. by exists n.
  - destruct (agree_Eps_instance s Hwf)
      as (e & s1 & He & _ & Hwf1 & Hle1 & _ & Heps).
    assert (Hx1 : valid s1 (Some x)) by (by eapply valid_le).
    assert (He1 : valid s1 e) by (by eapply cached_ok_valid).
    destruct (Or_create_total s1 e (Some x) Hwf1 He1 Hx1)
      as (v & s2 & Hor & Hwf2 & Hle2 & Hv & Lv).
    exists v, s2. split; [|split; [done|split; [by etrans|split; [done|]]]].
    + rewrite dispatch_question. rewrite (bind_Ok _ _ _ _ _ He).
      by rewrite (bind_Ok _ _ _ _ _ Hor).
    + intros w. rewrite Lv. unfold postfix_lang. cbn.
      destruct e as [q|]; [|done]. simpl in Heps.
      rewrite lang_Eps_iff by done.
      by rewrite (only_le s s1 _ _ Hwf1 Hle1 Hx Lx w).
Qed.

(** X15: a postfix operator after a non-empty plain word applies to the
    last letter only (it binds tighter than concatenation): the pattern is
    accepted from every well-formed store and its node stands for the
    letters before the last one followed by any number ([*]), at least one
    ([+]) or at most one ([?]) of the last letter. *)
Theorem postfix_applies_to_last_letter p op s :
  all_plain p = true -> p <> "" ->
  op = "*"%char \/ op = "+"%char \/ op = "?"%char ->
  wf s ->
  exists root s' u k,
    parse_regex (p +:+ String op "") s = Ok root s' /\ wf s' /\ valid s' root
    /\ list_ascii_of_string p = u ++ [k]
    /\ forall w, lang (heap s') root w
                 <-> exists t, w = u ++ t /\ postfix_lang op k t.
Proof.
  intros Hp Hne Hop Hwf.
  destruct (word_scan p [] [] s Hp Hne I Hwf)
    as (l1 & s1 & u & k & Hloop1 & Hwf1 & Hle1 & Hshape1 & Hw1).
  assert (Hesc : Ascii.eqb op "\" = false) by (by destruct Hop as [-> | [-> | ->]]).
  assert (Hscan : forall l2 s2, dispatch op l1 s1 = Ok l2 s2 ->
            parse_loop (p +:+ String op "") (mkLocals [] [] None) s = Ok l2 s2).
  { intros l2 s2 Hd. rewrite (parse_loop_app _ _ _ _ _ _ Hloop1).
    rewrite parse_loop_cons by done. by rewrite (bind_Ok _ _ _ _ _ Hd). }
  destruct Hshape1 as [x -> -> Hx Lx|x acc -> Hx Lx Hacc Lacc].
  - destruct (dispatch_postfix op x [] [] s1 k Hop Hwf1 Hx Lx)
      as (v & s2 & Hd & Hwf2 & Hle2 & Hv & Lv).
    exists v, s2, [], k. split; [|split; [done|split; [done|split; [done|]]]].
    + by rewrite (parse_regex_unfold _ _ _ _ (Hscan _ _ Hd)).
    + intros w. rewrite Lv. split; [by exists w|]. by intros (t & -> & Ht).
  - destruct (dispatch_postfix op x [acc] ["."%char] s1 k Hop Hwf1 Hx Lx)
      as (v & s2 & Hd & Hwf2 & Hle2 & Hv & Lv).
    assert (Hacc2 : valid s2 acc) by (by eapply valid_le).
    destruct (Concat_create_total s2 acc v Hwf2 Hacc2 Hv)
      as (root & s3 & Hcat & Hwf3 & Hle3 & Hroot & Lroot).
    exists root, s3, u, k. split; [|split; [done|split; [done|split; [done|]]]].
    + rewrite (parse_regex_unfold _ _ _ _ (Hscan _ _ Hd)).
      cbn [ops operands flush_loop].
      change (Ascii.eqb "." "(" || Ascii.eqb "." ")") with false. cbv iota.
      change (apply_op "." [v; acc])
        with (let* r := Concat_create acc v in ret [r]).
      unfold bind. by rewrite Hcat.
    + intros w. rewrite Lroot. split.
      * intros (w1 & w2 & -> & L1 & L2).
        apply (only_le s1 s2 _ _ Hwf2 Hle2 Hacc Lacc) in L1 as ->.
        exists w2. split; [done|]. by apply Lv.
      * intros (t & -> & Ht). exists u, t. split; [done|].
        split; [by apply (only_le s1 s2 _ _ Hwf2 Hle2 Hacc Lacc)|by apply Lv].
Qed.

Lemma postfix_applies_to_last_letter_witness :
  exists root s' u k,
    parse_regex "ab*" initial_state = Ok root s' /\ wf s' /\ valid s' root
    /\ list_ascii_of_string "ab" = u ++ [k]
    /\ forall w, lang (heap s') root w
                 <-> exists t, w = u ++ t /\ postfix_lang "*" k t.
Proof.
  apply (postfix_applies_to_last_letter "ab" "*"%char initial_state).
  - reflexivity.
  - discriminate.
  - by left.
  - apply (bool_decide_unpack _); vm_compute; exact I.
Defined.

(** ** Groups *)

(** A postfix operator right after an operand, whatever it stands for. *)
Lemma dispatch_postfix_closure op x rest_operands ops0 s :
  op = "*"%char \/ op = "+"%char \/ op = "?"%char ->
  wf s -> valid s (Some x) ->
  exists v s',
    dispatch op (mkLocals (Some x :: rest_operands) ops0 (Some x)) s
    = Ok (mkLocals (v :: rest_operands) ops0 v) s'
    /\ wf s' /\ State_le s s' /\ valid s' v
    /\ forall w, lang (heap s') v w
                 <-> postfix_closure op (lang (heap s) (Some x)) w.
Proof.
  intros [-> | [-> | ->]] Hwf Hx.
  - destruct (Star_create_valid s (Some x) Hwf Hx)
      as (st & s' & Hst & _ & Hwf' & Hle & Hv).
    destruct (Star_create_lang s (Some x) Hwf Hx st s' Hst)
      as (_ & _ & _ & q & -> & Hq).
    exists (Some q), s'. split; [|split; [done|split; [done|split; [done|]]]].
    + rewrite dispatch_star. by rewrite (bind_Ok _ _ _ _ _ Hst).
    + intros w. rewrite lang_Star_iff by done. unfold postfix_closure. cbn.
      split; intros (ws & -> & Hws); exists ws; (split; [done|]);
        (eapply Forall_impl; [exact Hws|]); intros u;
        by apply (lang_le_iff s s').
  - destruct (Star_create_valid s (Some x) Hwf Hx)
      as (st & s1 & Hst & _ & Hwf1 & Hle1 & Hv1).
    destruct (Star_create_lang s (Some x) Hwf Hx st s1 Hst)
      as (_ & _ & _ & q & -> & Hq).
    assert (Hx1 : valid s1 (Some x)) by (by eapply valid_le).
    destruct (Concat_create_total s1 (Some x) (Some q) Hwf1 Hx1 Hv1)
      as (v & s2 & Hcat & Hwf2 & Hle2 & Hv & Lv).
    exists v, s2. split; [|split; [done|split; [by etrans|split; [done|]]]].
    + rewrite dispatch_plus. rewrite (bind_Ok _ _ _ _ _ Hst).
      by rewrite (bind_Ok _ _ _ _ _ Hcat).
    + intros w. rewrite Lv. unfold postfix_closure. cbn. split.
      * intros (w1 & w2 & -> & L1 & L2).
        apply (lang_le_iff s s1) in L1; [|done..].
        apply (lang_Star_iff _ q (Some x) _ Hq) in L2 as (ws & -> & Hws).
        exists w1, ws. split; [done|]. split; [done|].
        eapply Forall_impl; [exact Hws|]. intros u. by apply (lang_le_iff s s1).
      * intros (w1 & ws & -> & L1 & Hws). exists w1, (concat ws).
        split; [done|]. split; [by apply (lang_le_iff s s1)|].
        apply (lang_Star_iff _ q (Some x) _ Hq). exists ws. split; [done|].
        eapply Forall_impl; [exact Hws|]. intros u. by apply (lang_le_iff s s1).
  - destruct (agree_Eps_instance s Hwf)
      as (e & s1 & He & _ & Hwf1 & Hle1 & _ & Heps).
    assert (Hx1 : valid s1 (Some x)) by (by eapply valid_le).
    assert (He1 : valid s1 e) by (by eapply cached_ok_valid).
    destruct (Or_create_total s1 e (Some x) Hwf1 He1 Hx1)
      as (v & s2 & Hor & Hwf2 & Hle2 & Hv & Lv).
    exists v, s2. split; [|split; [done|split; [by etrans|split; [done|]]]].
    + rewrite dispatch_question. rewrite (bind_Ok _ _ _ _ _ He).
      by rewrite (bind_Ok _ _ _ _ _ Hor).
    + intros w. rewrite Lv. unfold postfix_closure. cbn.
      destruct e as [q|]; [|done]. simpl in Heps.
      rewrite lang_Eps_iff by done. by rewrite (lang_le_iff s s1).
Qed.

Lemma dispatch_open l s :
  dispatch "(" l s = Ok (mkLocals (operands l) ("("%char :: ops l) None) s.
Proof. reflexivity. Qed.

Lemma dispatch_close l s :
  dispatch ")" l s
  = (let* '(ops1, operands1) := close_paren_loop (ops l) (operands l) in
     match ops1 with
     | [] => throw "Mismatched parentheses"
     | _ :: ops2 =>
         let* prev1 := top operands1 in
         ret (mkLocals operands1 ops2 prev1)
     end) s.
Proof. reflexivity. Qed.

(** The scan of two plain words joined by ['|'] inside parentheses leaves
    a single operand for the two words, and [prev] pointing at it. *)
Lemma group_scan p1 p2 s :
  all_plain p1 = true -> p1 <> "" -> all_plain p2 = true -> p2 <> "" -> wf s ->
  exists x s',
    parse_loop (String "(" (p1 +:+ String "|" (p2 +:+ ")")))
               (mkLocals [] [] None) s
    = Ok (mkLocals [Some x] [] (Some x)) s'
    /\ wf s' /\ State_le s s' /\ valid s' (Some x)
    /\ forall w, lang (heap s') (Some x) w
                 <-> w = list_ascii_of_string p1 \/ w = list_ascii_of_string p2.
Proof.
  intros Hp1 Hn1 Hp2 Hn2 Hwf.
  assert (Hstop1 : dot_stops ["("%char]) by reflexivity.
  destruct (word_scan p1 [] ["("%char] s Hp1 Hn1 Hstop1 Hwf)
    as (l1 & s1 & u1 & k1 & Hloop1 & Hwf1 & Hle1 & Hshape1 & Hw1).
  destruct (word_value [] ["("%char] u1 k1 l1 s1 Hwf1 Hshape1)
    as (w1 & s1' & Hwf1' & Hle1' & Hv1 & L1 & Hps1 & _ & _).
  rewrite Hw1 in L1.
  assert (Hstop2 : dot_stops ["|"; "("]%char) by reflexivity.
  destruct (word_scan p2 [w1] ["|"; "("]%char s1' Hp2 Hn2 Hstop2 Hwf1')
    as (l2 & s2 & u2 & k2 & Hloop2 & Hwf2 & Hle2 & Hshape2 & Hw2).
  destruct (word_value [w1] ["|"; "("]%char u2 k2 l2 s2 Hwf2 Hshape2)
    as (w2 & s2' & Hwf2' & Hle2' & Hv2 & L2 & _ & Hcl2 & _).
  rewrite Hw2 in L2.
  assert (Hv1' : valid s2' w1).
  { apply (valid_le s1'); [by etrans|done]. }
  destruct (Or_create_total s2' w1 w2 Hwf2' Hv1' Hv2)
    as (root & s3 & Hor & Hwf3 & Hle3 & Hroot & Lroot).
  destruct root as [x|]; [|done].
  exists x, s3. split; [|split; [done|split; [|split; [done|]]]].
  - rewrite parse_loop_cons by done.
    rewrite (bind_Ok _ _ _ _ _ (dispatch_open _ _)). cbn [operands ops].
    rewrite (parse_loop_app _ _ _ _ _ _ Hloop1).
    rewrite parse_loop_cons by done.
    rewrite (bind_Ok _ _ _ (mkLocals [w1] ["|"; "("]%char None) s1').
    2: { rewrite dispatch_bar. unfold bind. by rewrite Hps1. }
    rewrite (parse_loop_app _ _ _ _ _ _ Hloop2).
    rewrite parse_loop_cons by done.
    rewrite (bind_Ok _ _ _ (mkLocals [Some x] [] (Some x)) s3); [done|].
    rewrite dispatch_close. unfold bind at 1. rewrite Hcl2.
    cbn [close_paren_loop]. change (Ascii.eqb "|" "(") with false. cbv iota.
    change (apply_op "|" [w2; w1]) with (let* r := Or_create w1 w2 in ret [r]).
    unfold bind. by rewrite Hor.
  - etrans; [exact Hle1|]. etrans; [exact Hle1'|]. etrans; [exact Hle2|].
    by etrans.
  - intros w. rewrite Lroot.
    rewrite (only_le s1' s2' w1 _ Hwf2' ltac:(by etrans) Hv1 L1 w).
    by rewrite (L2 w).
Qed.

(** X16: two non-empty plain words joined by ['|'] inside parentheses
    are accepted from every well-formed store, and the node stands for
    exactly the two words. *)
Theorem group_of_two_words order p1 p2 s :
  all_plain p1 = true -> p1 <> "" -> all_plain p2 = true -> p2 <> "" -> wf s ->
  exists root s',
    parse_regex (String "(" (p1 +:+ String "|" (p2 +:+ ")"))) s = Ok root s'
    /\ wf s' /\ valid s' root
    /\ (forall w, lang (heap s') root w
                  <-> w = list_ascii_of_string p1 \/ w = list_ascii_of_string p2)
    /\ forall text, exists v s'',
         is_match order root text s' = Ok v s''
         /\ (v = true <-> text = p1 \/ text = p2).
Proof.
  intros Hp1 Hn1 Hp2 Hn2 Hwf.
  destruct (group_scan p1 p2 s Hp1 Hn1 Hp2 Hn2 Hwf)
    as (x & s' & Hscan & Hwf' & Hle & Hx & Lx).
  exists (Some x), s'. split; [|split; [done|split; [done|split; [done|]]]].
  - by rewrite (parse_regex_unfold _ _ _ _ Hscan).
  - intros text.
    destruct (is_match_total_lang order s' (Some x) text Hwf' Hx)
      as (v & s'' & Hm & Hv).
    exists v, s''. split; [done|]. rewrite Hv, Lx. split.
    + intros [H|H]; [left|right]; by apply list_ascii_of_string_inj.
    + by intros [-> | ->]; [left|right].
Qed.

Lemma group_of_two_words_witness :
  exists root s',
    parse_regex "(a|b)" initial_state = Ok root s'
    /\ wf s' /\ valid s' root
    /\ (forall w, lang (heap s') root w
                  <-> w = list_ascii_of_string "a" \/ w = list_ascii_of_string "b")
    /\ forall text, exists v s'',
         is_match LeftToRight root text s' = Ok v s''
         /\ (v = true <-> text = "a" \/ text = "b").
Proof.
  apply (group_of_two_words LeftToRight "a" "b" initial_state).
  - reflexivity.
  - discriminate.
  - reflexivity.
  - discriminate.
  - apply (bool_decide_unpack _); vm_compute; exact I.
Defined.

(** X17: a postfix operator after a closing parenthesis applies to the
    whole group: for two non-empty plain words [p1] and [p2] the pattern
    [(p1|p2)] followed by [*], [+] or [?] is accepted, and its node stands
    for any number, at least one, or at most one word out of [p1] and [p2]
    in a row. *)
Theorem postfix_applies_to_group p1 p2 op s :
  all_plain p1 = true -> p1 <> "" -> all_plain p2 = true -> p2 <> "" ->
  op = "*"%char \/ op = "+"%char \/ op = "?"%char ->
  wf s ->
  exists root s',
    parse_regex (String "(" (p1 +:+ String "|" (p2 +:+ ")")) +:+ String op "") s
    = Ok root s'
    /\ wf s' /\ valid s' root
    /\ forall w, lang (heap s') root w
                 <-> postfix_closure op
                       (fun u => u = list_ascii_of_string p1
                                 \/ u = list_ascii_of_string p2) w.
Proof.
  intros Hp1 Hn1 Hp2 Hn2 Hop Hwf.
  destruct (group_scan p1 p2 s Hp1 Hn1 Hp2 Hn2 Hwf)
    as (x & s1 & Hscan & Hwf1 & Hle1 & Hx & Lx).
  destruct (dispatch_postfix_closure op x [] [] s1 Hop Hwf1 Hx)
    as (v & s2 & Hd & Hwf2 & Hle2 & Hv & Lv).
  assert (Hesc : Ascii.eqb op "\" = false) by (by destruct Hop as [-> | [-> | ->]]).
  exists v, s2. split; [|split; [done|split; [done|]]].
  - assert (Hscan2 :
      parse_loop (String "(" (p1 +:+ String "|" (p2 +:+ ")")) +:+ String op "")
                 (mkLocals [] [] None) s
      = Ok (mkLocals [v] [] v) s2).
    { rewrite (parse_loop_app _ _ _ _ _ _ Hscan).
      rewrite parse_loop_cons by done. by rewrite (bind_Ok _ _ _ _ _ Hd). }
    by rewrite (parse_regex_unfold _ _ _ _ Hscan2).
  - intros w. rewrite Lv. unfold postfix_closure.
    destruct (Ascii.eqb op "*"); [|destruct (Ascii.eqb op "+")].
    + split; intros (ws & -> & Hws); exists ws; (split; [done|]);
        (eapply Forall_impl; [exact Hws|]); intros u; apply Lx.
    + split; intros (w1 & ws & -> & H1 & Hws); exists w1, ws;
        (split; [done|]); (split; [by apply Lx|]);
        (eapply Forall_impl; [exact Hws|]); intros u; apply Lx.
    + by rewrite Lx.
Qed.

Lemma postfix_applies_to_group_witness :
  exists root s',
    parse_regex "(a|b)+" initial_state = Ok root s'
    /\ wf s' /\ valid s' root
    /\ forall w, lang (heap s') root w
                 <-> postfix_closure "+"
                       (fun u => u = list_ascii_of_string "a"
                                 \/ u = list_ascii_of_string "b") w.
Proof.
  apply (postfix_applies_to_group "a" "b" "+"%char initial_state).
  - reflexivity.
  - discriminate.
  - reflexivity.
  - discriminate.
  - right; by left.
  - apply (bool_decide_unpack _); vm_compute; exact I.
Defined.

(** ** Shape of the reachable stores *)

(** X18: in every store a process can reach no object holds a null
    child, and every child was allocated before its parent: the nodes form
    a directed acyclic graph. *)
Theorem children_are_earlier_and_not_null s a obj :
  reachable s -> heap s !! a = Some obj ->
  match obj with
  | Or r1 r2 | Concat r1 r2 =>
      exists x y, r1 = Some x /\ r2 = Some y /\ x < a /\ y < a
  | Star r1 => exists x, r1 = Some x /\ x < a
  | _ => True
  end.
Proof.
  intros Hs Ha. destruct (reachable_wf_registered s Hs) as [Hwf _].
  pose proof (proj1 (heap_ok_lookup s) (wf_heap s Hwf) a obj Ha) as Hok.
  destruct obj as [| |c|r1 r2|r1 r2|r1]; simpl in Hok; try done.
  - destruct Hok as [H1 H2]. destruct r1 as [x|]; [|done].
    destruct r2 as [y|]; [|done]. by exists x, y.
  - destruct Hok as [H1 H2]. destruct r1 as [x|]; [|done].
    destruct r2 as [y|]; [|done]. by exists x, y.
  - destruct r1 as [x|]; [|done]. by exists x.
Qed.

Lemma children_are_earlier_and_not_null_witness :
  reachable ab_star_store
  /\ heap ab_star_store !! 3 = Some (Concat (Some 0) (Some 2))
  /\ exists x y, Some 0 = Some x /\ Some 2 = Some y /\ x < 3 /\ y < 3.
Proof.
  assert (Hs : reachable ab_star_store).
  { apply (reachable_parse initial_state "ab*" (Some 3));
      [apply reachable_initial|vm_compute; reflexivity]. }
  assert (Ha : heap ab_star_store !! 3 = Some (Concat (Some 0) (Some 2)))
    by reflexivity.
  split; [exact Hs|]. split; [exact Ha|].
  exact (children_are_earlier_and_not_null ab_star_store 3 _ Hs Ha).
Defined.

(** X19: the caches are sound.  In every store a process can reach, an
    entry of [Or::cache] under the key [(type, r1, r2)] has the type "Or"
    and points to an [Or] object over [r1] and [r2]; likewise
    [Concat::cache]; an entry of [Star::cache] under [r1] points to a
    [Star] object over [r1]. *)
Theorem caches_are_sound s :
  reachable s ->
  (forall key v, Or_cache s !! key = Some v ->
     type key = "Or"
     /\ exists q, v = Some q /\ heap s !! q = Some (Or (key_r1 key) (key_r2 key)))
  /\ (forall key v, Concat_cache s !! key = Some v ->
        type key = "Concat"
        /\ exists q, v = Some q
                     /\ heap s !! q = Some (Concat (key_r1 key) (key_r2 key)))
  /\ (forall r1 v, Star_cache s !! r1 = Some v ->
        exists q, v = Some q /\ heap s !! q = Some (Star r1)).
Proof.
  intros Hs. destruct (reachable_wf_registered s Hs) as [Hwf _].
  split; [|split].
  - intros key v Hk.
    destruct (map_Forall_lookup_1 _ _ _ _ (wf_Or s Hwf) Hk) as [Hty Hv].
    split; [done|]. destruct v as [q|]; [|done]. by exists q.
  - intros key v Hk.
    destruct (map_Forall_lookup_1 _ _ _ _ (wf_Concat s Hwf) Hk) as [Hty Hv].
    split; [done|]. destruct v as [q|]; [|done]. by exists q.
  - intros r1 v Hk.
    pose proof (map_Forall_lookup_1 _ _ _ _ (wf_Star s Hwf) Hk) as Hv.
    cbv beta in Hv. destruct v as [q|]; [|done]. by exists q.
Qed.

Lemma caches_are_sound_witness :
  reachable ab_star_store
  /\ forall r1 v, Star_cache ab_star_store !! r1 = Some v ->
       exists q, v = Some q /\ heap ab_star_store !! q = Some (Star r1).
Proof.
  assert (Hs : reachable ab_star_store).
  { apply (reachable_parse initial_state "ab*" (Some 3));
      [apply reachable_initial|vm_compute; reflexivity]. }
  split; [exact Hs|].
  exact (proj2 (proj2 (caches_are_sound ab_star_store Hs))).
Defined.

(** ** The parser on its grammar *)

Lemma scan_app ts1 ts2 :
  forall l s l1 s1,
    scan ts1 l s = Ok l1 s1 -> scan (ts1 ++ ts2) l s = scan ts2 l1 s1.
Proof.
  induction ts1 as [|c ts1 IH]; intros l s l1 s1 H; simpl in *.
  - by injection H as <- <-.
  - apply bind_Ok_inv in H as (l' & s' & Hd & H).
    rewrite (bind_Ok _ _ _ _ _ Hd). by apply IH.
Qed.

Lemma scan_cons c ts l s l1 s1 :
  dispatch c l s = Ok l1 s1 -> scan (c :: ts) l s = scan ts l1 s1.
Proof. intros Hd. cbn [scan]. by rewrite (bind_Ok _ _ _ _ _ Hd). Qed.

Lemma scan_one c l s l1 s1 :
  dispatch c l s = Ok l1 s1 -> scan [c] l s = Ok l1 s1.
Proof. intros Hd. by rewrite (scan_cons _ _ _ _ _ _ Hd). Qed.

(** With its escapes closed, a pattern is scanned as the sequence of its
    dispatched characters. *)
Lemma parse_loop_dispatched pattern l s :
  escapes_closed pattern = true ->
  parse_loop pattern l s = scan (dispatched pattern) l s.
Proof.
  assert (H : forall n pattern l s,
            String.length pattern <= n -> escapes_closed pattern = true ->
            parse_loop pattern l s = scan (dispatched pattern) l s).
  { clear. induction n as [|n IH]; intros pattern l s Hn Hclosed.
    - destruct pattern; [done|simpl in Hn; lia].
    - destruct pattern as [|c rest]; [done|]. simpl in Hn.
      cbn [parse_loop dispatched escapes_closed] in *.
      destruct (Ascii.eqb c "\").
      + destruct rest as [|c' rest']; [done|]. simpl in Hn. cbn [scan].
        unfold bind. destruct (dispatch c' l s) as [l1 s1| | |]; try done.
        apply IH; [lia|done].
      + cbn [scan]. unfold bind.
        destruct (dispatch c l s) as [l1 s1| | |]; try done.
        apply IH; [lia|done]. }
  by apply (H (String.length pattern)).
Qed.

Lemma literal_spec c :
  literal c = true ->
  Ascii.eqb c "(" = false /\ Ascii.eqb c ")" = false
  /\ Ascii.eqb c "*" = false /\ Ascii.eqb c "+" = false
  /\ Ascii.eqb c "?" = false /\ Ascii.eqb c "|" = false.
Proof.
  unfold literal, operators. cbn [forallb].
  rewrite !andb_true_iff, !negb_true_iff. tauto.
Qed.

Lemma dispatch_literal_fresh c below ops0 s :
  literal c = true ->
  dispatch c (mkLocals below ops0 None) s
  = (let* r := alloc (Char c) in ret (mkLocals (r :: below) ops0 r)) s.
Proof.
  intros Hc. destruct (literal_spec c Hc) as (E1 & E2 & E3 & E4 & E5 & E6).
  unfold dispatch. rewrite E1, E2, E3, E4, E5, E6. reflexivity.
Qed.

Lemma dispatch_literal_after c below ops0 x s :
  literal c = true -> dot_stops ops0 ->
  dispatch c (mkLocals below ops0 (Some x)) s
  = (let* r := alloc (Char c) in
     ret (mkLocals (r :: below) ("."%char :: ops0) r)) s.
Proof.
  intros Hc Hstop. destruct (literal_spec c Hc) as (E1 & E2 & E3 & E4 & E5 & E6).
  unfold dispatch. rewrite E1, E2, E3, E4, E5, E6. cbn [orb].
  unfold bind, alloc. cbn [prev ops operands].
  by rewrite process_stack_dot_stops.
Qed.

Lemma dispatch_literal_pending c pk acc below ops0 x s :
  literal c = true -> dot_stops ops0 ->
  dispatch c (mkLocals (pk :: acc :: below) ("."%char :: ops0) (Some x)) s
  = (let* r := alloc (Char c) in
     let* acc' := Concat_create acc pk in
     ret (mkLocals (r :: acc' :: below) ("."%char :: ops0) r)) s.
Proof.
  intros Hc Hstop. destruct (literal_spec c Hc) as (E1 & E2 & E3 & E4 & E5 & E6).
  unfold dispatch. rewrite E1, E2, E3, E4, E5, E6. cbn [orb].
  unfold bind, ret, alloc. cbn. unfold bind, ret, top, pop. cbn.
  match goal with |- context [Concat_create acc pk ?s1] =>
    destruct (Concat_create acc pk s1) as [acc' s2| | |] end; try reflexivity.
  by rewrite process_stack_dot_stops.
Qed.

Lemma postfix_closure_ext op (L L' : list ascii -> Prop) w :
  (forall u, L u <-> L' u) ->
  postfix_closure op L w <-> postfix_closure op L' w.
Proof.
  intros HL. unfold postfix_closure.
  destruct (Ascii.eqb op "*"); [|destruct (Ascii.eqb op "+")].
  - split; intros (ws & -> & Hws); exists ws; (split; [done|]);
      (eapply Forall_impl; [exact Hws|]); intros u; apply HL.
  - split; intros (w1 & ws & -> & H1 & Hws); exists w1, ws;
      (split; [done|]); (split; [by apply HL|]);
      (eapply Forall_impl; [exact Hws|]); intros u; apply HL.
  - by rewrite HL.
Qed.

(** What is left of a scanned term once its pending ['.'] is applied. *)
Lemma term_value below ops_below L l s :
  wf s -> term_shape s below ops_below L l ->
  exists w s',
    wf s' /\ State_le s s' /\ valid s' w
    /\ (forall u, lang (heap s') w u <-> L u)
    /\ process_stack "|" (ops l) (operands l) s
       = process_stack "|" ops_below (w :: below) s'
    /\ close_paren_loop (ops l) (operands l) s
       = close_paren_loop ops_below (w :: below) s'
    /\ flush_loop (ops l) (operands l) s
       = flush_loop ops_below (w :: below) s'.
Proof.
  intros Hwf [(x & -> & Hx & Lx)|(La & Lb & (x & acc & -> & Hx & Hacc & HLa & HLb) & HL)].
  - exists (Some x), s. split; [done|]. split; [apply State_le_refl|].
    split; [done|]. by split.
  - destruct (Concat_create_total s acc (Some x) Hwf Hacc Hx)
      as (w & s' & Hcat & Hwf' & Hle & Hw & Lw).
    assert (Happly : forall (k0 : list RegexPtr -> M (list ascii * list RegexPtr)),
              (let* operands0 := apply_op "." (Some x :: acc :: below) in
               k0 operands0) s = k0 (w :: below) s').
    { intros k0.
      change (apply_op "." (Some x :: acc :: below))
        with (let* r := Concat_create acc (Some x) in ret (r :: below)).
      rewrite bind_assoc. by rewrite (bind_Ok _ _ _ _ _ Hcat). }
    assert (Happly' : forall (k0 : list RegexPtr -> M (list RegexPtr)),
              (let* operands0 := apply_op "." (Some x :: acc :: below) in
               k0 operands0) s = k0 (w :: below) s').
    { intros k0.
      change (apply_op "." (Some x :: acc :: below))
        with (let* r := Concat_create acc (Some x) in ret (r :: below)).
      rewrite bind_assoc. by rewrite (bind_Ok _ _ _ _ _ Hcat). }
    exists w, s'. split; [done|]. split; [done|]. split; [done|]. split.
    + intros u. rewrite Lw, HL.
      split; intros (w1 & w2 & -> & L1 & L2); exists w1, w2;
        (split; [done|]); split; first [by apply HLa|by apply HLb].
    + cbn [ops operands process_stack close_paren_loop flush_loop].
      split; [|split].
      * change (precedence "." >=? precedence "|")%Z with true. cbv iota.
        apply Happly.
      * change (Ascii.eqb "." "(") with false. cbv iota. apply Happly.
      * change (Ascii.eqb "." "(" || Ascii.eqb "." ")") with false. cbv iota.
        apply Happly'.
Qed.

(** What is left of a scanned expression once its pending operators are
    applied; [process_stack('|')] then stops at the stack below. *)
Lemma expr_value below ops_below L l s :
  wf s -> expr_shape s below ops_below L l ->
  exists w s',
    wf s' /\ State_le s s' /\ valid s' w
    /\ (forall u, lang (heap s') w u <-> L u)
    /\ process_stack "|" (ops l) (operands l) s
       = process_stack "|" ops_below (w :: below) s'
    /\ close_paren_loop (ops l) (operands l) s
       = close_paren_loop ops_below (w :: below) s'
    /\ flush_loop (ops l) (operands l) s
       = flush_loop ops_below (w :: below) s'.
Proof.
  intros Hwf [Hterm|(v & L2 & Hv & Hterm & HL)].
  - by apply term_value.
  - destruct (term_value (v :: below) ("|"%char :: ops_below) L2 l s Hwf Hterm)
      as (w2 & s1 & Hwf1 & Hle1 & Hw2 & Lw2 & Hps & Hcl & Hfl).
    assert (Hv1 : valid s1 v) by (by eapply valid_le).
    destruct (Or_create_total s1 v w2 Hwf1 Hv1 Hw2)
      as (w & s2 & Hor & Hwf2 & Hle2 & Hw & Lw).
    assert (Happly : forall (k0 : list RegexPtr -> M (list ascii * list RegexPtr)),
              (let* operands0 := apply_op "|" (w2 :: v :: below) in
               k0 operands0) s1 = k0 (w :: below) s2).
    { intros k0.
      change (apply_op "|" (w2 :: v :: below))
        with (let* r := Or_create v w2 in ret (r :: below)).
      rewrite bind_assoc. by rewrite (bind_Ok _ _ _ _ _ Hor). }
    assert (Happly' : forall (k0 : list RegexPtr -> M (list RegexPtr)),
              (let* operands0 := apply_op "|" (w2 :: v :: below) in
               k0 operands0) s1 = k0 (w :: below) s2).
    { intros k0.
      change (apply_op "|" (w2 :: v :: below))
        with (let* r := Or_create v w2 in ret (r :: below)).
      rewrite bind_assoc. by rewrite (bind_Ok _ _ _ _ _ Hor). }
    exists w, s2. split; [done|]. split; [by etrans|]. split; [done|]. split.
    + intros u. rewrite Lw, HL, (Lw2 u). by rewrite (lang_le_iff s s1).
    + rewrite Hps, Hcl, Hfl. cbn [process_stack close_paren_loop flush_loop].
      split; [|split].
      * change (precedence "|" >=? precedence "|")%Z with true. cbv iota.
        apply Happly.
      * change (Ascii.eqb "|" "(") with false. cbv iota. apply Happly.
      * change (Ascii.eqb "|" "(" || Ascii.eqb "|" ")") with false. cbv iota.
        apply Happly'.
Qed.

Lemma process_stack_bar_stops ops0 operands0 s :
  bar_stops ops0 ->
  process_stack "|" ops0 operands0 s = Ok (ops0, operands0) s.
Proof.
  destruct ops0 as [|t ops0]; [done|]. simpl. intros ->. done.
Qed.

(** A literal with its postfix operators after a term: the term is
    reduced to one operand, and the new operand waits above it with a
    ['.'] pending. *)
Lemma lfactor_scan ts e :
  lfactor ts e ->
  forall below ops_below La l s,
    wf s -> dot_stops ops_below -> term_shape s below ops_below La l ->
    exists l' s',
      scan ts l s = Ok l' s' /\ wf s' /\ State_le s s'
      /\ pending_shape s' below ops_below La (den e) l'.
Proof.
  induction 1 as [c Hc|ts e op Hlf IH Hop];
    intros below ops_below La l s Hwf Hstop Hterm.
  - destruct Hterm as [(x & -> & Hx & Lx)
                      |(L1 & L2 & (x & acc & -> & Hx & Hacc & HL1 & HL2) & HL)].
    + destruct (alloc_Char_total c s Hwf) as (s1 & Hal & Hwf1 & Hle1 & Hr & Lr).
      exists (mkLocals (Some (length (heap s)) :: Some x :: below)
                       ("."%char :: ops_below) (Some (length (heap s)))), s1.
      split; [|split; [done|split; [done|]]].
      * apply scan_one. rewrite dispatch_literal_after by done.
        by rewrite (bind_Ok _ _ _ _ _ Hal).
      * exists (length (heap s)), (Some x).
        split; [done|]. split; [done|]. split; [by eapply valid_le|]. split.
        -- intros w. by rewrite (lang_le_iff s s1).
        -- done.
    + destruct (alloc_Char_total c s Hwf) as (s1 & Hal & Hwf1 & Hle1 & Hr & Lr).
      assert (Hx1 : valid s1 (Some x)) by (by eapply valid_le).
      assert (Hacc1 : valid s1 acc) by (by eapply valid_le).
      destruct (Concat_create_total s1 acc (Some x) Hwf1 Hacc1 Hx1)
        as (v & s2 & Hcat & Hwf2 & Hle2 & Hv & Lv).
      exists (mkLocals (Some (length (heap s)) :: v :: below)
                       ("."%char :: ops_below) (Some (length (heap s)))), s2.
      split; [|split; [done|split; [by etrans|]]].
      * apply scan_one. rewrite dispatch_literal_pending by done.
        rewrite (bind_Ok _ _ _ _ _ Hal). by rewrite (bind_Ok _ _ _ _ _ Hcat).
      * exists (length (heap s)), v.
        split; [done|]. split; [by eapply valid_le|]. split; [done|]. split.
        -- intros w. rewrite Lv, HL.
           split; intros (w1 & w2 & -> & A1 & A2); exists w1, w2;
             (split; [done|]).
           ++ apply (lang_le_iff s s1) in A1; [|done..].
              apply (lang_le_iff s s1) in A2; [|done..].
              split; [by apply HL1|by apply HL2].
           ++ split; apply (lang_le_iff s s1); try done;
                [by apply HL1|by apply HL2].
        -- intros w. by rewrite (lang_le_iff s1 s2).
  - destruct (IH below ops_below La l s Hwf Hstop Hterm)
      as (l1 & s1 & Hscan & Hwf1 & Hle1 & x & acc & -> & Hx & Hacc & HLa & HLx).
    destruct (dispatch_postfix_closure op x (acc :: below)
                ("."%char :: ops_below) s1 Hop Hwf1 Hx)
      as (v & s2 & Hd & Hwf2 & Hle2 & Hv & Lv).
    destruct v as [x'|]; [|done].
    exists (mkLocals (Some x' :: acc :: below) ("."%char :: ops_below) (Some x')), s2.
    split; [|split; [done|split; [by etrans|]]].
    + rewrite (scan_app _ _ _ _ _ _ Hscan). by apply scan_one.
    + exists x', acc. split; [done|]. split; [done|].
      split; [by eapply valid_le|]. split.
      * intros w. by rewrite (lang_le_iff s1 s2).
      * intros w. rewrite Lv. cbn [den]. by apply postfix_closure_ext.
Qed.

(** The scan of a pattern of the grammar, started where an operand is
    expected above any stacks, succeeds and leaves the shape of its level
    for the language of its tree. *)
Lemma parses_scan lvl ts e :
  parses lvl ts e ->
  forall below ops_below s,
    wf s -> context_ok lvl ops_below ->
    exists l' s',
      scan ts (mkLocals below ops_below None) s = Ok l' s'
      /\ wf s' /\ State_le s s'
      /\ shape lvl s' below ops_below (den e) l'.
Proof.
  induction 1 as [c Hc|ts e Hp IH|ts e Hp IH|ts e op Hp IH Hop|ts e Hp IH
                 |ts1 e1 ts2 e2 Hp IH Hlf|ts e Hp IH
                 |ts1 e1 ts2 e2 Hp1 IH1 Hp2 IH2];
    intros below ops_below s Hwf Hctx.
  - destruct (alloc_Char_total c s Hwf) as (s1 & Hal & Hwf1 & Hle1 & Hr & Lr).
    exists (mkLocals (Some (length (heap s)) :: below) ops_below
                     (Some (length (heap s)))), s1.
    split; [|split; [done|split; [done|]]].
    + apply scan_one. rewrite dispatch_literal_fresh by done.
      by rewrite (bind_Ok _ _ _ _ _ Hal).
    + exists (length (heap s)). by split.
  - assert (Hctx' : context_ok Expr ("("%char :: ops_below)) by done.
    destruct (IH below ("("%char :: ops_below) s Hwf Hctx')
      as (l1 & s1 & Hscan & Hwf1 & Hle1 & Hshape).
    destruct (expr_value below ("("%char :: ops_below) (den e) l1 s1 Hwf1 Hshape)
      as (w & s2 & Hwf2 & Hle2 & Hw & Lw & _ & Hcl & _).
    destruct w as [x|]; [|done].
    exists (mkLocals (Some x :: below) ops_below (Some x)), s2.
    split; [|split; [done|split; [by etrans|]]].
    + rewrite (scan_cons _ _ _ _ _ _ (dispatch_open _ _)).
      cbn [operands ops].
      rewrite (scan_app _ _ _ _ _ _ Hscan). apply scan_one.
      rewrite dispatch_close. unfold bind at 1. by rewrite Hcl.
    + exists x. by split.
  - by apply IH.
  - destruct (IH below ops_below s Hwf Hctx)
      as (l1 & s1 & Hscan & Hwf1 & Hle1 & x & -> & Hx & Lx).
    destruct (dispatch_postfix_closure op x below ops_below s1 Hop Hwf1 Hx)
      as (v & s2 & Hd & Hwf2 & Hle2 & Hv & Lv).
    destruct v as [x'|]; [|done].
    exists (mkLocals (Some x' :: below) ops_below (Some x')), s2.
    split; [|split; [done|split; [by etrans|]]].
    + rewrite (scan_app _ _ _ _ _ _ Hscan). by apply scan_one.
    + exists x'. split; [done|]. split; [done|].
      intros w. rewrite Lv. cbn [den]. by apply postfix_closure_ext.
  - destruct (IH below ops_below s Hwf I)
      as (l1 & s1 & Hscan & Hwf1 & Hle1 & Hshape).
    exists l1, s1. split; [done|]. split; [done|]. split; [done|]. by left.
  - destruct (IH below ops_below s Hwf Hctx)
      as (l1 & s1 & Hscan & Hwf1 & Hle1 & Hshape).
    destruct (lfactor_scan ts2 e2 Hlf below ops_below (den e1) l1 s1
                Hwf1 Hctx Hshape)
      as (l2 & s2 & Hscan2 & Hwf2 & Hle2 & Hpend).
    exists l2, s2. split; [|split; [done|split; [by etrans|]]].
    + by rewrite (scan_app _ _ _ _ _ _ Hscan).
    + right. exists (den e1), (den e2). by split.
  - destruct Hctx as [Hdot Hbar].
    destruct (IH below ops_below s Hwf Hdot)
      as (l1 & s1 & Hscan & Hwf1 & Hle1 & Hshape).
    exists l1, s1. split; [done|]. split; [done|]. split; [done|]. by left.
  - destruct Hctx as [Hdot Hbar].
    destruct (IH1 below ops_below s Hwf (conj Hdot Hbar))
      as (l1 & s1 & Hscan & Hwf1 & Hle1 & Hshape).
    destruct (expr_value below ops_below (den e1) l1 s1 Hwf1 Hshape)
      as (v & s2 & Hwf2 & Hle2 & Hv & Lv & Hps & _ & _).
    assert (Hctx2 : context_ok Term ("|"%char :: ops_below)) by done.
    destruct (IH2 (v :: below) ("|"%char :: ops_below) s2 Hwf2 Hctx2)
      as (l3 & s3 & Hscan3 & Hwf3 & Hle3 & Hshape3).
    exists l3, s3. split; [|split; [done|split; [by etrans; [etrans|]|]]].
    + rewrite (scan_app _ _ _ _ _ _ Hscan).
      assert (Hd : dispatch "|" l1 s1
                   = Ok (mkLocals (v :: below) ("|"%char :: ops_below) None) s2).
      { rewrite dispatch_bar. unfold bind at 1. rewrite Hps.
        by rewrite process_stack_bar_stops. }
      by rewrite (scan_cons _ _ _ _ _ _ Hd).
    + right. exists v, (den e2). split; [by eapply valid_le|]. split; [done|].
      intros w. cbn [den]. by rewrite (lang_le_iff s2 s3), Lv.
Qed.

(** X20: [parse_regex] is correct on its grammar. When the characters it
    dispatches on (each escaped character standing for itself, escaped
    operators included) form an expression of the grammar [parses] - terms
    separated by ['|'], each a literal or parenthesised expression with
    postfix operators, followed by literals with postfix operators - and no
    backslash ends the pattern, then from every well-formed store it
    returns a node whose language is that of the expression's tree, and
    [is_match] on this node decides that language. *)
Theorem parse_regex_on_grammar order pattern e s :
  escapes_closed pattern = true ->
  parses Expr (dispatched pattern) e ->
  wf s ->
  exists root s',
    parse_regex pattern s = Ok root s' /\ wf s' /\ State_le s s'
    /\ valid s' root
    /\ (forall w, lang (heap s') root w <-> den e w)
    /\ forall text, exists v s'',
         is_match order root text s' = Ok v s''
         /\ (v = true <-> den e (list_ascii_of_string text)).
Proof.
  intros Hclosed Hparses Hwf.
  destruct (parses_scan Expr _ e Hparses [] [] s Hwf (conj I I))
    as (l1 & s1 & Hscan & Hwf1 & Hle1 & Hshape).
  destruct (expr_value [] [] (den e) l1 s1 Hwf1 Hshape)
    as (root & s2 & Hwf2 & Hle2 & Hroot & Lroot & _ & _ & Hflush).
  exists root, s2.
  split; [|split; [done|split; [by etrans|split; [done|split; [done|]]]]].
  - rewrite <- parse_loop_dispatched in Hscan by done.
    rewrite (parse_regex_unfold _ _ _ _ Hscan).
    unfold bind. by rewrite Hflush.
  - intros text.
    destruct (is_match_total_lang order s2 root text Hwf2 Hroot)
      as (v & s3 & Hm & Hv).
    exists v, s3. split; [done|]. by rewrite Hv, Lroot.
Qed.

Lemma parse_regex_on_grammar_witness :
  exists root s',
    parse_regex "(a|b\\)+c?" initial_state = Ok root s'
    /\ wf s' /\ State_le initial_state s'
    /\ valid s' root
    /\ (forall w, lang (heap s') root w
                  <-> den (Cat (Post "+" (Alt (Lit "a") (Cat (Lit "b") (Lit "\"))))
                               (Post "?" (Lit "c"))) w)
    /\ forall text, exists v s'',
         is_match LeftToRight root text s' = Ok v s''
         /\ (v = true
             <-> den (Cat (Post "+" (Alt (Lit "a") (Cat (Lit "b") (Lit "\"))))
                          (Post "?" (Lit "c")))
                     (list_ascii_of_string text)).
Proof.
  apply (parse_regex_on_grammar LeftToRight "(a|b\\)+c?").
  - reflexivity.
  - apply p_term.
    apply (p_cat ["("; "a"; "|"; "b"; "\"; ")"; "+"]%char _ ["c"; "?"]%char).
    + apply p_factor.
      apply (p_post ["("; "a"; "|"; "b"; "\"; ")"]%char); [|right; by left].
      apply p_atom. apply (p_group ["a"; "|"; "b"; "\"]%char).
      apply (p_alt ["a"]%char _ ["b"; "\"]%char).
      * apply p_term, p_factor, p_atom, p_lit. reflexivity.
      * apply (p_cat ["b"]%char _ ["\"]%char).
        -- apply p_factor, p_atom, p_lit. reflexivity.
        -- apply lf_lit. reflexivity.
    + apply (lf_post ["c"]%char); [|right; by right].
      apply lf_lit. reflexivity.
  - apply (bool_decide_unpack _); vm_compute; exact I.
Defined.

(** X21: a parenthesis without its partner around an expression of the
    grammar is reported, not left to an empty-stack access: a [')'] after
    the expression throws "Mismatched parentheses" when it is read,
    whatever follows it, and a ['('] before the expression throws the same
    when the operators are flushed at the end.  The store keeps the nodes
    built until then. *)
Theorem unmatched_parenthesis_throws pattern e rest s :
  escapes_closed pattern = true ->
  parses Expr (dispatched pattern) e ->
  wf s ->
  (exists s1,
     parse_regex (pattern +:+ String ")" rest) s
     = Throw "Mismatched parentheses" s1 /\ wf s1 /\ State_le s s1)
  /\ (exists s2,
        parse_regex (String "(" pattern) s
        = Throw "Mismatched parentheses" s2 /\ wf s2 /\ State_le s s2).
Proof.
  intros Hclosed Hparses Hwf. split.
  - destruct (parses_scan Expr _ e Hparses [] [] s Hwf (conj I I))
      as (l1 & s1 & Hscan & Hwf1 & Hle1 & Hshape).
    destruct (expr_value [] [] (den e) l1 s1 Hwf1 Hshape)
      as (w & s2 & Hwf2 & Hle2 & _ & _ & _ & Hcl & _).
    exists s2. split; [|split; [done|by etrans]].
    rewrite <- parse_loop_dispatched in Hscan by done.
    assert (Hloop : parse_loop (pattern +:+ String ")" rest)
                               (mkLocals [] [] None) s
                    = Throw "Mismatched parentheses" s2).
    { rewrite (parse_loop_app _ _ _ _ _ _ Hscan).
      rewrite parse_loop_cons by done. unfold bind at 1.
      rewrite dispatch_close. unfold bind. by rewrite Hcl. }
    unfold parse_regex, bind. by rewrite Hloop.
  - destruct (parses_scan Expr _ e Hparses [] ["("%char] s Hwf (conj eq_refl eq_refl))
      as (l1 & s1 & Hscan & Hwf1 & Hle1 & Hshape).
    destruct (expr_value [] ["("%char] (den e) l1 s1 Hwf1 Hshape)
      as (w & s2 & Hwf2 & Hle2 & _ & _ & _ & _ & Hfl).
    exists s2. split; [|split; [done|by etrans]].
    rewrite <- parse_loop_dispatched in Hscan by done.
    assert (Hloop : parse_loop (String "(" pattern) (mkLocals [] [] None) s
                    = Ok l1 s1).
    { rewrite parse_loop_cons by done.
      by rewrite (bind_Ok _ _ _ _ _ (dispatch_open _ _)). }
    unfold parse_regex, bind. by rewrite Hloop, Hfl.
Qed.

Lemma unmatched_parenthesis_throws_witness :
  (exists s1,
     parse_regex ("a|b" +:+ String ")" "c") initial_state
     = Throw "Mismatched parentheses" s1 /\ wf s1 /\ State_le initial_state s1)
  /\ (exists s2,
        parse_regex (String "(" "a|b") initial_state
        = Throw "Mismatched parentheses" s2 /\ wf s2
        /\ State_le initial_state s2).
Proof.
  apply (unmatched_parenthesis_throws "a|b" (Alt (Lit "a") (Lit "b")) "c"
           initial_state).
  - reflexivity.
  - apply (p_alt ["a"]%char _ ["b"]%char).
    + apply p_term, p_factor, p_atom, p_lit. reflexivity.
    + apply p_factor, p_atom, p_lit. reflexivity.
  - apply (bool_decide_unpack _); vm_compute; exact I.
Defined.

(** The final flush over pending ['.'] and ['|'] only: every operator
    takes two operands and leaves one. *)
Lemma flush_loop_counts ops0 :
  forall operands0 s k,
    wf s ->
    Forall (fun op => op = "."%char \/ op = "|"%char) ops0 ->
    Forall (valid s) operands0 ->
    length operands0 = length ops0 + S k ->
    exists r s',
      flush_loop ops0 operands0 s = Ok r s' /\ wf s' /\ State_le s s'
      /\ length r = S k.
Proof.
  induction ops0 as [|op ops0 IH]; intros operands0 s k Hwf Hops Hvalid Hlen.
  - exists operands0, s. split; [done|]. split; [done|].
    split; [apply State_le_refl|done].
  - destruct operands0 as [|b [|a rest]]; simpl in Hlen; [lia..|].
    apply Forall_cons in Hops as [Hop Hops].
    apply Forall_cons in Hvalid as [Hb Hvalid].
    apply Forall_cons in Hvalid as [Ha Hrest].
    assert (Hstep : exists r s1,
              apply_op op (b :: a :: rest) s = Ok (r :: rest) s1
              /\ wf s1 /\ State_le s s1 /\ valid s1 r).
    { destruct Hop as [-> | ->].
      - destruct (Concat_create_total s a b Hwf Ha Hb)
          as (r & s1 & Hc & Hwf1 & Hle1 & Hr & _).
        exists r, s1. split; [|done].
        change (apply_op "." (b :: a :: rest))
          with (let* r := Concat_create a b in ret (r :: rest)).
        by rewrite (bind_Ok _ _ _ _ _ Hc).
      - destruct (Or_create_total s a b Hwf Ha Hb)
          as (r & s1 & Hc & Hwf1 & Hle1 & Hr & _).
        exists r, s1. split; [|done].
        change (apply_op "|" (b :: a :: rest))
          with (let* r := Or_create a b in ret (r :: rest)).
        by rewrite (bind_Ok _ _ _ _ _ Hc). }
    destruct Hstep as (r & s1 & Hap & Hwf1 & Hle1 & Hr).
    destruct (IH (r :: rest) s1 k Hwf1 Hops) as (r' & s2 & Hfl & Hwf2 & Hle2 & Hlen2).
    { apply Forall_cons. split; [done|].
      eapply Forall_impl; [exact Hrest|]. intros p. by apply valid_le. }
    { simpl. lia. }
    exists r', s2. split; [|split; [done|split; [by etrans|done]]].
    cbn [flush_loop].
    replace (Ascii.eqb op "(" || Ascii.eqb op ")") with false
      by (by destruct Hop as [-> | ->]).
    by rewrite (bind_Ok _ _ _ _ _ Hap).
Qed.

(** After an expression scanned from empty stacks only ['.'] and ['|']
    are pending, with one operand more than operators. *)
Lemma expr_shape_counts s L l :
  expr_shape s [] [] L l ->
  Forall (fun op => op = "."%char \/ op = "|"%char) (ops l)
  /\ Forall (valid s) (operands l)
  /\ length (operands l) = S (length (ops l)).
Proof.
  intros [[(x & -> & Hx & _)|(La & Lb & (x & acc & -> & Hx & Hacc & _) & _)]
         |(v & L2 & Hv
           & [(x & -> & Hx & _)|(La & Lb & (x & acc & -> & Hx & Hacc & _) & _)]
           & _)];
    cbn [ops operands]; (split; [|split; [|done]]);
    repeat (apply Forall_cons; split); try apply Forall_nil; auto.
Qed.

(** X22: an opening parenthesis never concatenates.  When an expression
    of the grammar is followed directly by a parenthesised expression of
    the grammar, the group is scanned as a fresh operand, nothing joins it
    to the operand before it, and after the final flush two operands are
    left: [parse_regex] throws "Invalid regex". *)
Theorem group_after_operand_is_rejected p1 e1 p2 e2 s :
  escapes_closed p1 = true -> parses Expr (dispatched p1) e1 ->
  escapes_closed p2 = true -> parses Expr (dispatched p2) e2 ->
  wf s ->
  exists s',
    parse_regex (p1 +:+ String "(" (p2 +:+ ")")) s = Throw "Invalid regex" s'
    /\ wf s' /\ State_le s s'.
Proof.
  intros Hc1 Hp1 Hc2 Hp2 Hwf.
  destruct (parses_scan Expr _ e1 Hp1 [] [] s Hwf (conj I I))
    as (l1 & s1 & Hscan1 & Hwf1 & Hle1 & Hshape1).
  rewrite <- parse_loop_dispatched in Hscan1 by done.
  destruct (expr_shape_counts s1 _ l1 Hshape1) as (Hops & Hvalid & Hlen).
  destruct (parses_scan Expr _ e2 Hp2 (operands l1) ("("%char :: ops l1) s1
              Hwf1 (conj eq_refl eq_refl))
    as (l2 & s2 & Hscan2 & Hwf2 & Hle2 & Hshape2).
  rewrite <- parse_loop_dispatched in Hscan2 by done.
  destruct (expr_value _ _ (den e2) l2 s2 Hwf2 Hshape2)
    as (w & s3 & Hwf3 & Hle3 & Hw & _ & _ & Hcl & _).
  destruct (flush_loop_counts (ops l1) (w :: operands l1) s3 1 Hwf3 Hops)
    as (r & s4 & Hfl & Hwf4 & Hle4 & Hr).
  { apply Forall_cons. split; [done|].
    eapply Forall_impl; [exact Hvalid|]. intros p Hp.
    eapply valid_le; [|exact Hp]. by etrans. }
  { simpl. lia. }
  exists s4. split; [|split; [done|by etrans; [etrans; [etrans|]|]]].
  assert (Hloop : parse_loop (p1 +:+ String "(" (p2 +:+ ")"))
                             (mkLocals [] [] None) s
                  = Ok (mkLocals (w :: operands l1) (ops l1) w) s3).
  { rewrite (parse_loop_app _ _ _ _ _ _ Hscan1).
    rewrite parse_loop_cons by done.
    rewrite (bind_Ok _ _ _ _ _ (dispatch_open _ _)).
    rewrite (parse_loop_app _ _ _ _ _ _ Hscan2).
    rewrite parse_loop_cons by done. unfold bind at 1.
    rewrite dispatch_close. unfold bind at 1. by rewrite Hcl. }
  rewrite (parse_regex_unfold _ _ _ _ Hloop). cbn [ops operands].
  rewrite (bind_Ok _ _ _ _ _ Hfl).
  destruct (decide (length r = 1)) as [Hone|_]; [lia|done].
Qed.

Lemma group_after_operand_is_rejected_witness :
  exists s',
    parse_regex ("a|bc" +:+ String "(" ("d*" +:+ ")")) initial_state
    = Throw "Invalid regex" s'
    /\ wf s' /\ State_le initial_state s'.
Proof.
  apply (group_after_operand_is_rejected
           "a|bc" (Alt (Lit "a") (Cat (Lit "b") (Lit "c")))
           "d*" (Post "*" (Lit "d")) initial_state).
  - reflexivity.
  - apply (p_alt ["a"]%char _ ["b"; "c"]%char).
    + apply p_term, p_factor, p_atom, p_lit. reflexivity.
    + apply (p_cat ["b"]%char _ ["c"]%char).
      * apply p_factor, p_atom, p_lit. reflexivity.
      * apply lf_lit. reflexivity.
  - reflexivity.
  - apply p_term, p_factor. apply (p_post ["d"]%char); [|by left].
    apply p_atom, p_lit. reflexivity.
  - apply (bool_decide_unpack _); vm_compute; exact I.
Defined.
